(** * Hyperion: a shallow embedding of the storage engine

    The development follows the C++ headers: [arena.hpp] (bump allocator
    over one mapping), [index.hpp] (open-addressed index with linear
    probing and tombstones), [seqlock.hpp] (sequence lock) and
    [hyperion.hpp] (put / get / del).  The operations are first run by a
    single thread; [get_under] then runs the retry loop of [get] with
    the operations of the writer in between the steps of the reader.
    Runs of the writer are compared with a dictionary that has a byte
    budget ([Dict]), and the store calls of [bench_hyperion] in
    [main.cpp] are run on the embedding.

    Conventions.
    - A [uintN_t] is a [Z] in [0, 2^N); every operation that can leave
      the range is wrapped explicitly ([u8], [u16], [u32], [u64]).
    - A [std::string] is a [list byte].
    - The mapped region is a function from offsets to bytes together
      with its size; an access outside [0, size_) has no defined result.
    - Operations that can touch memory return [option]: [None] stands
      for an execution without a defined result (an access outside the
      mapping or outside the slot array, a failed single-writer
      assertion, or a reader spinning on an odd sequence number that no
      writer will ever complete).
    - Multi-byte header fields are laid out little-endian, as on the
      x86-64 and AArch64 targets the headers are written for. *)

From Stdlib Require Import Strings.Byte Strings.String.
From stdpp Require Import base numbers list option.

Local Open Scope Z_scope.

(** ** Fixed-width unsigned integers *)

Definition wrap (w x : Z) : Z := x mod 2 ^ w.
Definition u8 : Z -> Z := wrap 8.
Definition u16 : Z -> Z := wrap 16.
Definition u32 : Z -> Z := wrap 32.
Definition u64 : Z -> Z := wrap 64.

Definition UINT32_MAX : Z := 0xFFFFFFFF.

(** ** Bytes *)

#[global] Instance byte_eq_decision : EqDecision byte := Byte.byte_eq_dec.

Definition byte_val (b : byte) : Z := Z.of_N (Byte.to_N b).

Definition byte_of (z : Z) : byte :=
  default Byte.x00 (Byte.of_N (Z.to_N (z mod 256))).

(** [std::string::size], a [size_t]. *)
Definition size (s : list byte) : Z := Z.of_nat (length s).

(** Little-endian images of the 16- and 32-bit header fields. *)
Definition le16 (x : Z) : list byte :=
  [byte_of x; byte_of (x ≫ 8)].

Definition le32 (x : Z) : list byte :=
  [byte_of x; byte_of (x ≫ 8); byte_of (x ≫ 16); byte_of (x ≫ 24)].

Fixpoint le_val (bs : list byte) : Z :=
  match bs with
  | [] => 0
  | b :: bs' => byte_val b + 256 * le_val bs'
  end.

(** ** Raw memory: contents of the mapping, addressed by offset from [base_] *)

Definition memory : Type := Z -> byte.

Definition mem_load (m : memory) (off : Z) (n : nat) : list byte :=
  map (λ i : nat, m (off + Z.of_nat i)) (seq 0 n).

Definition mem_store (m : memory) (off : Z) (bs : list byte) : memory :=
  λ a, if bool_decide (off <= a < off + size bs)
       then nth (Z.to_nat (a - off)) bs Byte.x00
       else m a.

(** ** index.hpp: Slot *)

Module Slot.

Record t : Type := mk {
  hash_tag : Z;   (* uint8_t  *)
  key_len  : Z;   (* uint8_t  *)
  val_len  : Z;   (* uint16_t *)
  offset   : Z;   (* uint32_t *)
  _padding : Z    (* uint64_t *)
}.

Definition OFF_EMPTY : Z := 0xFFFFFFFF.
Definition OFF_TOMB : Z := 0xFFFFFFFE.

Definition empty : t := mk 0 0 0 OFF_EMPTY 0.

Definition is_empty (s : t) : bool := offset s =? OFF_EMPTY.
Definition is_tombstone (s : t) : bool := offset s =? OFF_TOMB.
Definition is_valid (s : t) : bool := offset s <? OFF_TOMB.

(** [offset = OFF_TOMB; hash_tag = 0;] the other fields stay. *)
Definition make_tombstone (s : t) : t :=
  mk 0 (key_len s) (val_len s) OFF_TOMB (_padding s).

End Slot.

(** ** index.hpp: Index *)

Module Index.

Record t : Type := mk {
  slots_ : list Slot.t;   (* unique_ptr<Slot[]> *)
  capacity_ : Z;          (* uint32_t *)
  mask_ : Z               (* uint32_t *)
}.

(** [Index() = default]: no slot array, capacity and mask 0. *)
Definition default : t := mk [] 0 0.

(** [v--; v |= v >> 1; ... v |= v >> 16; return v + 1;] on [uint32_t]. *)
Definition next_pow2 (v : Z) : Z :=
  let v := u32 (v - 1) in
  let v := Z.lor v (v ≫ 1) in
  let v := Z.lor v (v ≫ 2) in
  let v := Z.lor v (v ≫ 4) in
  let v := Z.lor v (v ≫ 8) in
  let v := Z.lor v (v ≫ 16) in
  u32 (v + 1).

Definition init (slots : Z) : t :=
  let capacity := next_pow2 (Z.max slots 8) in
  let mask := u32 (capacity - 1) in
  mk (replicate (Z.to_nat capacity) Slot.empty) capacity mask.

(** The loop [for (i = 0; i < len; ++i) { h ^= data[i]; h *= 16777619u; }]
    with the index [i] and the running hash [h] as loop state; [n] is
    the number of iterations still to run. *)
Fixpoint hash_loop (data : list byte) (n : nat) (i : Z) (h : Z) : Z :=
  match n with
  | O => h
  | S n' =>
      let h := Z.lxor h (byte_val (nth (Z.to_nat i) data Byte.x00)) in
      let h := u32 (h * 16777619) in
      hash_loop data n' (i + 1) h
  end.

Definition hash (data : list byte) : Z :=
  hash_loop data (length data) 0 2166136261.

(** [slots_[idx]]: defined inside the array only. *)
Definition at_ (ix : t) (idx : Z) : option Slot.t :=
  slots_ ix !! Z.to_nat idx.

(** [(first_tomb != UINT32_MAX) ? first_tomb : idx] *)
Definition candidate (first_tomb idx : Z) : Z :=
  if negb (first_tomb =? UINT32_MAX) then first_tomb else idx.

(** The probe loop of [find]; [n] is the number of iterations still to
    run, [idx] and [first_tomb] are the loop variables. *)
Fixpoint find_loop (ix : t) (tag klen : Z) (eq : Slot.t -> option bool)
    (n : nat) (idx first_tomb : Z) : option (Z * bool) :=
  match n with
  | O => Some (candidate first_tomb idx, false)
  | S n' =>
      s ← at_ ix idx;
      if Slot.is_empty s then Some (candidate first_tomb idx, false)
      else
        let next := Z.land (u32 (idx + 1)) (mask_ ix) in
        if Slot.is_tombstone s then
          find_loop ix tag klen eq n' next
            (if first_tomb =? UINT32_MAX then idx else first_tomb)
        else if (Slot.hash_tag s =? tag) && (Slot.key_len s =? klen) then
          b ← eq s;
          if b : bool then Some (idx, true)
          else find_loop ix tag klen eq n' next first_tomb
        else find_loop ix tag klen eq n' next first_tomb
  end.

Definition find (ix : t) (h klen : Z) (eq : Slot.t -> option bool)
    : option (Z * bool) :=
  let tag := u8 (h ≫ 24) in
  let idx := Z.land h (mask_ ix) in
  find_loop ix tag klen eq (Z.to_nat (capacity_ ix)) idx UINT32_MAX.

(** [slots_[idx] = s] with [s] built from the arguments and zero padding. *)
Definition update (ix : t) (idx tag klen vlen off : Z) : option t :=
  if bool_decide (Z.to_nat idx < length (slots_ ix))%nat
  then Some (mk (<[Z.to_nat idx := Slot.mk tag klen vlen off 0]> (slots_ ix))
                (capacity_ ix) (mask_ ix))
  else None.

(** [at(idx).make_tombstone()] *)
Definition tombstone_at (ix : t) (idx : Z) : option t :=
  s ← at_ ix idx;
  Some (mk (<[Z.to_nat idx := Slot.make_tombstone s]> (slots_ ix))
           (capacity_ ix) (mask_ ix)).

End Index.

(** ** arena.hpp *)

(** [AE_None] is [ArenaError::None]. *)
Inductive ArenaError : Type := AE_None | OutOfSpace | MmapFailed | TooLarge.

Module Arena.

Record t : Type := mk {
  base_ : memory;   (* contents at base_ + offset *)
  size_ : Z;        (* uint32_t *)
  offset_ : Z       (* atomic<uint32_t>, the allocation cursor *)
}.

(** [Arena()]: no mapping, size 0, cursor 0. *)
Definition default : t := mk (λ _, Byte.x00) 0 0.

(** [mapped] is the answer of the operating system to the mapping
    request; a granted mapping is zero-filled. *)
Definition create (size_bytes : Z) (mapped : bool) : t * ArenaError :=
  if size_bytes >? UINT32_MAX then (default, TooLarge)
  else if negb mapped then (default, MmapFailed)
  else (mk (λ _, Byte.x00) (u32 size_bytes) 8, AE_None).

(** [old_off = offset_.fetch_add(size); if (old_off + size > size_) ...]
    The cursor is advanced before the test and is not rolled back.
    The result is the error code, the value written to [out_offset]
    (if any) and the arena afterwards. *)
Definition alloc (a : t) (sz : Z) : ArenaError * option Z * t :=
  let old_off := offset_ a in
  let a' := mk (base_ a) (size_ a) (u32 (old_off + sz)) in
  if u32 (old_off + sz) >? size_ a then (OutOfSpace, None, a')
  else (AE_None, Some old_off, a').

Definition in_bounds (a : t) (off len : Z) : bool :=
  (0 <=? off) && (off + len <=? size_ a).

(** Reading [len] bytes at [ptr_at(off)]. *)
Definition read (a : t) (off len : Z) : option (list byte) :=
  if in_bounds a off len then Some (mem_load (base_ a) off (Z.to_nat len))
  else None.

(** Writing the bytes [bs] at [ptr_at(off)]. *)
Definition write (a : t) (off : Z) (bs : list byte) : option t :=
  if in_bounds a off (size bs)
  then Some (mk (mem_store (base_ a) off bs) (size_ a) (offset_ a))
  else None.

Definition read16 (a : t) (off : Z) : option Z := le_val <$> read a off 2.
Definition read32 (a : t) (off : Z) : option Z := le_val <$> read a off 4.

End Arena.

(** ** seqlock.hpp, run by one thread *)

Module SeqLock.

Record t (T : Type) : Type := mk {
  seq_ : Z;    (* atomic<uint64_t> *)
  data_ : T
}.
Arguments mk {T} _ _.
Arguments seq_ {T} _.
Arguments data_ {T} _.

(** [SeqLock(T&& initial) : seq_(0), data_(initial)] *)
Definition make {T} (initial : T) : t T := mk 0 initial.

(** With no concurrent writer [v2 = v1], so an even sequence number
    returns [f(data_)] after one round and an odd one spins forever. *)
Definition read {T R} (l : t T) (f : T -> option R) : option R :=
  if Z.odd (seq_ l) then None else f (data_ l).

(** [prev = seq_.fetch_add(1); assert((prev & 1) == 0); f(data_);
    seq_.store(prev + 2)].  The mutator returns the new value of
    [data_] together with what it stored in the variables it captured
    by reference. *)
Definition write {T R} (l : t T) (f : T -> option (T * R))
    : option (t T * R) :=
  let prev := seq_ l in
  if negb (Z.land prev 1 =? 0) then None
  else '(d, r) ← f (data_ l); Some (mk (u64 (prev + 2)) d, r).

End SeqLock.

(** ** hyperion.hpp *)

Definition MAX_KEY : Z := 255.
Definition MAX_VAL : Z := 65535.

Inductive Status : Type := OK | KeyTooLong | ValTooLong | ArenaFull | NotFound.

(** [sizeof(EntryHeader)]: klen at 0, vlen at 2, hash at 4. *)
Definition HEADER : Z := 8.

Module Hyperion.

Record t : Type := mk {
  arena_ : Arena.t;
  index_ : SeqLock.t Index.t
}.

(** [Hyperion() = default] *)
Definition default : t := mk Arena.default (SeqLock.make Index.default).

Definition create (bytes slots : Z) (mapped : bool) : t * ArenaError :=
  let '(a, ae) := Arena.create bytes mapped in
  match ae with
  | AE_None => (mk a (SeqLock.make (Index.init slots)), ae)
  | _ => (default, ae)
  end.

(** The comparison closure [eq] of put, get and del (the three copies
    read the same fields in the same order): validity of the slot, then
    [e->hash], then [e->klen], then [memcmp] over [key.size()] bytes. *)
Definition key_eq (a : Arena.t) (h : Z) (key : list byte) (s : Slot.t)
    : option bool :=
  if negb (Slot.is_valid s) then Some false
  else
    e_hash ← Arena.read32 a (Slot.offset s + 4);
    if negb (e_hash =? h) then Some false
    else
      e_klen ← Arena.read16 a (Slot.offset s);
      if negb (e_klen =? size key) then Some false
      else
        kb ← Arena.read a (Slot.offset s + HEADER) (size key);
        Some (bool_decide (kb = key)).

(** [needed = (uint32_t)(sizeof(EntryHeader) + key.size() + val.size());
    needed = (needed + 7) & ~7;] *)
Definition needed (key val : list byte) : Z :=
  let n := u32 (HEADER + size key + size val) in
  Z.land (u32 (n + 7)) (u32 (Z.lnot 7)).

(** Header fields, key bytes and value bytes, in the order of the code. *)
Definition write_entry (a : Arena.t) (off h : Z) (key val : list byte)
    : option Arena.t :=
  a ← Arena.write a off (le16 (u16 (size key)));
  a ← Arena.write a (off + 2) (le16 (u16 (size val)));
  a ← Arena.write a (off + 4) (le32 h);
  a ← Arena.write a (off + HEADER) key;
  Arena.write a (off + HEADER + size key) val.

Definition put (key val : list byte) (st : t) : option (Status * t) :=
  if size key >? MAX_KEY then Some (KeyTooLong, st)
  else if size val >? MAX_VAL then Some (ValTooLong, st)
  else
    let h := Index.hash key in
    let tag := u8 (h ≫ 24) in
    let '(err, out_offset, a) := Arena.alloc (arena_ st) (needed key val) in
    match err with
    | AE_None =>
        off ← out_offset;
        a ← write_entry a off h key val;
        '(l, _) ← SeqLock.write (index_ st) (λ idx,
               '(slot_idx, _) ← Index.find idx h (size key) (key_eq a h key);
               idx ← Index.update idx slot_idx tag (u8 (size key))
                                  (u16 (size val)) off;
               Some (idx, ()));
        Some (OK, mk a l)
    | _ => Some (ArenaFull, mk a (index_ st))
    end.

(** The lambda that [get] runs inside the read transaction.  The result
    is its return value and the contents of [out_val] afterwards:
    [out_val.assign] happens on the [exists] path only. *)
Definition get_body (a : Arena.t) (key out_val : list byte) (idx : Index.t)
    : option (bool * list byte) :=
  let h := Index.hash key in
  '(slot_idx, exists_) ← Index.find idx h (size key) (key_eq a h key);
  if exists_ : bool then
    s ← Index.at_ idx slot_idx;
    e_klen ← Arena.read16 a (Slot.offset s);
    e_vlen ← Arena.read16 a (Slot.offset s + 2);
    v ← Arena.read a (Slot.offset s + HEADER + e_klen) e_vlen;
    Some (true, v)
  else Some (false, out_val).

(** The result is the status and the contents of [out_val] afterwards. *)
Definition get (key : list byte) (out_val : list byte) (st : t)
    : option (Status * list byte) :=
  '(found, out) ← SeqLock.read (index_ st) (get_body (arena_ st) key out_val);
  Some (if found : bool then OK else NotFound, out).

Definition del (key : list byte) (st : t) : option (Status * t) :=
  let h := Index.hash key in
  let a := arena_ st in
  '(l, found) ← SeqLock.write (index_ st) (λ idx,
      '(slot_idx, exists_) ← Index.find idx h (size key) (key_eq a h key);
      if exists_ : bool then
        idx ← Index.tombstone_at idx slot_idx; Some (idx, true)
      else Some (idx, false));
  Some (if found : bool then OK else NotFound, mk a l).

End Hyperion.

(** ** get while the writer is at work

    The reader thread runs [SeqLock::read]: load [v1], run the lambda,
    load [v2], return when [v1 == v2] and go round again otherwise.  The
    single writer thread runs puts and deletes; here each of them runs as
    a whole between two steps of the reader.  A schedule gives, for each
    round of the reader, the operations of the writer that complete
    before the load of [v1] and those that complete between the lambda
    and the load of [v2]. *)

Inductive wop : Type :=
  | W_put (key val : list byte)
  | W_del (key : list byte).

Definition writer_step (w : wop) (st : Hyperion.t) : option Hyperion.t :=
  match w with
  | W_put key val => snd <$> Hyperion.put key val st
  | W_del key => snd <$> Hyperion.del key st
  end.

Fixpoint writer_run (ws : list wop) (st : Hyperion.t) : option Hyperion.t :=
  match ws with
  | [] => Some st
  | w :: ws' => st' ← writer_step w st; writer_run ws' st'
  end.

(** The result is the status, the contents of [out_val] and the state of
    the store when [get] returns; [None] when the schedule ends with the
    reader still in its loop, or when some step has no defined result.
    What the lambda assigned to [out_val] in a round that is retried
    stays in [out_val]. *)
Fixpoint get_under (sched : list (list wop * list wop))
    (key out_val : list byte) (st : Hyperion.t)
    : option (Status * list byte * Hyperion.t) :=
  match sched with
  | [] => None
  | (before, during) :: sched' =>
      st1 ← writer_run before st;
      let v1 := SeqLock.seq_ (Hyperion.index_ st1) in
      if Z.odd v1 then get_under sched' key out_val st1
      else
        '(found, out) ← Hyperion.get_body (Hyperion.arena_ st1) key out_val
                          (SeqLock.data_ (Hyperion.index_ st1));
        st2 ← writer_run during st1;
        let v2 := SeqLock.seq_ (Hyperion.index_ st2) in
        if v1 =? v2 then Some (if found : bool then OK else NotFound, out, st2)
        else get_under sched' key out st2
  end.

(** * Specification-level definitions *)

(** ** FNV-1a as the specification words it

    Start with the offset basis; for each byte [b], in order,
    [h = (h XOR b) * FNV_prime] with unsigned 32-bit wrap. *)

Definition FNV_offset_basis : Z := 2166136261.
Definition FNV_prime : Z := 16777619.

Definition fnv1a (bs : list byte) : Z :=
  fold_left (λ h b, (Z.lxor h (byte_val b) * FNV_prime) mod 2 ^ 32)
            bs FNV_offset_basis.

(** ** Powers of two *)

Definition is_pow2 (c : Z) : Prop := ∃ k, 0 <= k ∧ c = 2 ^ k.

(** [c] is the smallest power of two that is at least [m]. *)
Definition smallest_pow2_geq (m c : Z) : Prop :=
  is_pow2 c ∧ m <= c ∧ ∀ c', is_pow2 c' → m <= c' → c <= c'.

(** ** Well-formed states: every field within the range of its C++ type,
    the index as [Index::init] builds it, the sequence lock idle *)

Definition index (st : Hyperion.t) : Index.t :=
  SeqLock.data_ (Hyperion.index_ st).

Definition slot_wf (s : Slot.t) : Prop :=
  0 <= Slot.hash_tag s < 2 ^ 8 ∧ 0 <= Slot.key_len s < 2 ^ 8 ∧
  0 <= Slot.val_len s < 2 ^ 16 ∧ 0 <= Slot.offset s < 2 ^ 32 ∧
  0 <= Slot._padding s < 2 ^ 64.

Definition index_wf (ix : Index.t) : Prop :=
  (∃ n, 0 <= n <= 31 ∧ Index.capacity_ ix = 2 ^ n) ∧
  Index.mask_ ix = Index.capacity_ ix - 1 ∧
  Z.of_nat (length (Index.slots_ ix)) = Index.capacity_ ix ∧
  Forall slot_wf (Index.slots_ ix).

Definition arena_wf (a : Arena.t) : Prop :=
  0 <= Arena.size_ a < 2 ^ 32 ∧ 0 <= Arena.offset_ a < 2 ^ 32.

Definition lock_idle {T} (l : SeqLock.t T) : Prop :=
  0 <= SeqLock.seq_ l < 2 ^ 64 ∧ Z.even (SeqLock.seq_ l) = true.

Definition store_wf (st : Hyperion.t) : Prop :=
  arena_wf (Hyperion.arena_ st) ∧ lock_idle (Hyperion.index_ st) ∧
  index_wf (index st).

(** ** Probing *)

(** The [i]-th slot index visited by a probe that starts at [start]. *)
Definition probe (ix : Index.t) (start : Z) (i : nat) : Z :=
  (start + Z.of_nat i) mod Index.capacity_ ix.

(** The home bucket of a key. *)
Definition home (ix : Index.t) (key : list byte) : Z :=
  Z.land (Index.hash key) (Index.mask_ ix).

(** The tag and length filter of the probe loop. *)
Definition prefilter (tag klen : Z) (s : Slot.t) : bool :=
  (Slot.hash_tag s =? tag) && (Slot.key_len s =? klen).

(** The loop stops at [s] with [found = true]. *)
Definition matches (tag klen : Z) (eq : Slot.t -> option bool) (s : Slot.t)
    : Prop :=
  Slot.is_empty s = false ∧ Slot.is_tombstone s = false ∧
  prefilter tag klen s = true ∧ eq s = Some true.

(** The loop steps over [s]. *)
Definition passed (tag klen : Z) (eq : Slot.t -> option bool) (s : Slot.t)
    : Prop :=
  Slot.is_empty s = false ∧
  (Slot.is_tombstone s = true ∨ prefilter tag klen s = false ∨
   eq s = Some false).

(** The loop steps over the first [m] slots of the probe from [start]. *)
Definition stepped (ix : Index.t) (tag klen : Z) (eq : Slot.t -> option bool)
    (start : Z) (m : nat) : Prop :=
  ∀ i, (i < m)%nat →
    ∃ s, Index.at_ ix (probe ix start i) = Some s ∧ passed tag klen eq s.

(** Number of slots that are not EMPTY. *)
Definition used (ix : Index.t) : nat :=
  length (List.filter (λ s, negb (Slot.is_empty s)) (Index.slots_ ix)).

(** ** Entry records and the data-model invariants *)

(** The bytes of a complete entry record for [key] and [val] lie at
    offset [off] inside the mapping. *)
Definition entry_at (a : Arena.t) (off : Z) (key val : list byte) : Prop :=
  0 <= off ∧ off + HEADER + size key + size val <= Arena.size_ a ∧
  size key <= MAX_KEY ∧ size val <= MAX_VAL ∧
  mem_load (Arena.base_ a) off 2 = le16 (size key) ∧
  mem_load (Arena.base_ a) (off + 2) 2 = le16 (size val) ∧
  mem_load (Arena.base_ a) (off + 4) 4 = le32 (Index.hash key) ∧
  mem_load (Arena.base_ a) (off + HEADER) (length key) = key ∧
  mem_load (Arena.base_ a) (off + HEADER + size key) (length val) = val.

(** Slot [j] is valid and points at the record of [key] with [val]. *)
Definition holds (st : Hyperion.t) (j : Z) (key val : list byte) : Prop :=
  0 <= j ∧
  ∃ s, Index.at_ (index st) j = Some s ∧ Slot.is_valid s = true ∧
       entry_at (Hyperion.arena_ st) (Slot.offset s) key val.

(** I1: a valid slot points at a complete record below the cursor whose
    key has the slot's tag and length. *)
Definition slot_ok (a : Arena.t) (s : Slot.t) : Prop :=
  Slot.is_valid s = true →
  ∃ key val, entry_at a (Slot.offset s) key val ∧
    Slot.hash_tag s = Index.hash key ≫ 24 ∧
    Slot.key_len s = size key ∧ Slot.val_len s = size val ∧
    Slot.offset s + HEADER + size key + size val <= Arena.offset_ a.

(** I1 for every slot of the store. *)
Definition records_ok (st : Hyperion.t) : Prop :=
  Forall (slot_ok (Hyperion.arena_ st)) (Index.slots_ (index st)).

(** Every stored key is reached from its home bucket over slots that are
    not EMPTY. *)
Definition chain_ok (st : Hyperion.t) : Prop :=
  ∀ j key val, holds st j key val →
    ∃ d : nat, Z.of_nat d < Index.capacity_ (index st) ∧
      probe (index st) (home (index st) key) d = j ∧
      ∀ i, (i < d)%nat →
        ∃ s, Index.at_ (index st) (probe (index st) (home (index st) key) i)
               = Some s ∧ Slot.is_empty s = false.

(** I3: at most one valid slot per key. *)
Definition unique_ok (st : Hyperion.t) : Prop :=
  ∀ j j' key val val',
    holds st j key val → holds st j' key val' → j = j'.

(** The invariant of a store whose arena is at most [2^32 - 8] bytes. *)
Definition store_inv (st : Hyperion.t) : Prop :=
  store_wf st ∧
  Arena.size_ (Hyperion.arena_ st) + 8 <= 2 ^ 32 ∧
  records_ok st ∧ chain_ok st ∧ unique_ok st.

(** ** Sequences of operations *)

(** A put or a delete on one fixed key. *)
Inductive op : Type := Put (val : list byte) | Del.

Definition apply_op (key : list byte) (o : op) (st : Hyperion.t)
    : option Hyperion.t :=
  match o with
  | Put val => snd <$> Hyperion.put key val st
  | Del => snd <$> Hyperion.del key st
  end.

Fixpoint run (key : list byte) (ops : list op) (st : Hyperion.t)
    : option Hyperion.t :=
  match ops with
  | [] => Some st
  | o :: ops' => st' ← apply_op key o st; run key ops' st'
  end.

(** The index is saturated for [key]: every slot is valid (none EMPTY,
    none a tombstone) and none of them holds [key]. *)
Definition crowded (key : list byte) (st : Hyperion.t) : Prop :=
  Forall (λ s, Slot.is_valid s = true) (Index.slots_ (index st)) ∧
  ∀ j val, ¬ holds st j key val.

(** No put of the sequence starts on an index saturated for [key]. *)
Fixpoint roomy (key : list byte) (ops : list op) (st : Hyperion.t) : Prop :=
  match ops with
  | [] => True
  | o :: ops' =>
      (match o with Put _ => ¬ crowded key st | Del => True end) ∧
      ∀ st', apply_op key o st = Some st' → roomy key ops' st'
  end.

(** The states reached from [create], with an arena of at most
    [2^32 - 8] bytes and at most [2^31] slots, by puts and deletes of any
    keys that have a defined result ([get] leaves the state as it is). *)
Inductive reachable : Hyperion.t → Prop :=
  | reach_create bytes slots :
      0 <= bytes → bytes + 8 <= 2 ^ 32 → 0 <= slots <= 2 ^ 31 →
      reachable (fst (Hyperion.create bytes slots true))
  | reach_put st key val s st' :
      reachable st → Hyperion.put key val st = Some (s, st') → reachable st'
  | reach_del st key s st' :
      reachable st → Hyperion.del key st = Some (s, st') → reachable st'.

(** A schedule in which the writer does nothing: the execution of [get]
    is single-threaded. *)
Definition quiet (sched : list (list wop * list wop)) : Prop :=
  Forall (λ round, round = ([], [])) sched.

(** [n] puts of the same key and value in a row, each answered ArenaFull. *)
Definition put_full (key val : list byte) (o : option Hyperion.t)
    : option Hyperion.t :=
  st ← o;
  match Hyperion.put key val st with
  | Some (ArenaFull, st') => Some st'
  | _ => None
  end.

Definition puts_full (n : N) (key val : list byte) (st : Hyperion.t)
    : option Hyperion.t :=
  N.iter n (put_full key val) (Some st).

(** ** What [find] returns, in terms of the probe sequence *)

(** [r] is the first tombstone among the first [m] probes from [start],
    or the [m]-th probe when there is none. *)
Definition recycled (ix : Index.t) (start : Z) (m : nat) (r : Z) : Prop :=
  (∃ t, (t < m)%nat ∧ r = probe ix start t ∧
        (∃ s, Index.at_ ix r = Some s ∧ Slot.is_tombstone s = true) ∧
        ∀ i, (i < t)%nat →
          ∃ s, Index.at_ ix (probe ix start i) = Some s ∧
               Slot.is_tombstone s = false)
  ∨ (r = probe ix start m ∧
     ∀ i, (i < m)%nat →
       ∃ s, Index.at_ ix (probe ix start i) = Some s ∧
            Slot.is_tombstone s = false).

(** Found at the [m]-th probe, after stepping over [m] slots. *)
Definition find_found (ix : Index.t) (tag klen : Z)
    (eq : Slot.t -> option bool) (start : Z) (n : nat) (r : Z) : Prop :=
  ∃ m, (m < n)%nat ∧ stepped ix tag klen eq start m ∧ r = probe ix start m ∧
       ∃ s, Index.at_ ix r = Some s ∧ matches tag klen eq s.

(** Not found: the loop stepped over [m] slots and then met an EMPTY slot
    or ran out of iterations; [r] is the insertion candidate. *)
Definition find_absent (ix : Index.t) (tag klen : Z)
    (eq : Slot.t -> option bool) (start : Z) (n : nat) (ft r : Z) : Prop :=
  ∃ m, (m <= n)%nat ∧ stepped ix tag klen eq start m ∧
       ((m < n)%nat →
        ∃ s, Index.at_ ix (probe ix start m) = Some s ∧
             Slot.is_empty s = true) ∧
       ((ft ≠ UINT32_MAX ∧ r = ft) ∨
        (ft = UINT32_MAX ∧ recycled ix start m r)).

(** ** Auxiliary states and slots *)

(** The arena after the cursor has moved by [n]. *)
Definition advanced (a : Arena.t) (n : Z) : Arena.t :=
  Arena.mk (Arena.base_ a) (Arena.size_ a) (u32 (Arena.offset_ a + n)).

(** The store with the cursor at [c]. *)
Definition at_cursor (st : Hyperion.t) (c : Z) : Hyperion.t :=
  Hyperion.mk (Arena.mk (Arena.base_ (Hyperion.arena_ st))
                        (Arena.size_ (Hyperion.arena_ st)) c)
              (Hyperion.index_ st).

(** The index with slot [r] replaced by [s]. *)
Definition with_slot (ix : Index.t) (r : Z) (s : Slot.t) : Index.t :=
  Index.mk (<[Z.to_nat r := s]> (Index.slots_ ix))
           (Index.capacity_ ix) (Index.mask_ ix).

(** The slot that [put] writes. *)
Definition new_slot (key val : list byte) (off : Z) : Slot.t :=
  Slot.mk (u8 (Index.hash key ≫ 24)) (u8 (size key)) (u16 (size val)) off 0.

(** The store after a write transaction that left the index [ix]. *)
Definition bumped (st : Hyperion.t) (ix : Index.t) : Hyperion.t :=
  Hyperion.mk (Hyperion.arena_ st)
    (SeqLock.mk (u64 (SeqLock.seq_ (Hyperion.index_ st) + 2)) ix).

(** Bit [i] of [v] is set exactly when one of the [m] bits of [x] from
    position [i] upwards is set. *)
Definition covers (x m v : Z) : Prop :=
  ∀ i, 0 <= i →
    (Z.testbit v i = true ↔ ∃ j, 0 <= j < m ∧ Z.testbit x (i + j) = true).

(** A check that implies [roomy]: before every put some slot is not valid. *)
Fixpoint roomyb (key : list byte) (ops : list op) (st : Hyperion.t) : bool :=
  match ops with
  | [] => true
  | o :: ops' =>
      (match o with
       | Put _ => negb (forallb Slot.is_valid (Index.slots_ (index st)))
       | Del => true
       end) &&
      match apply_op key o st with
      | Some st' => roomyb key ops' st'
      | None => true
      end
  end.

(** ** Concrete inputs of the examples *)

Definition bytes (s : string) : list byte := list_byte_of_string s.

(** The state an operation leaves behind. *)
Definition after (o : option (Status * Hyperion.t)) : Hyperion.t :=
  match o with
  | Some (_, st) => st
  | None => Hyperion.default
  end.

(** Puts of several keys in a row. *)
Fixpoint put_all (kvs : list (list byte * list byte)) (st : Hyperion.t)
    : option Hyperion.t :=
  match kvs with
  | [] => Some st
  | (k, v) :: kvs' => st' ← snd <$> Hyperion.put k v st; put_all kvs' st'
  end.

(** [create(1 << 16, 16)] and the first scenario of the specification. *)
Definition store16 : Hyperion.t := fst (Hyperion.create 65536 16 true).
Definition user1001 : list byte := bytes "user:1001".
Definition user1002 : list byte := bytes "user:1002".
Definition balance5000 : list byte := bytes "balance:5000".
Definition balance0 : list byte := bytes "balance:0".
Definition store16_a : Hyperion.t :=
  after (Hyperion.put user1001 balance5000 store16).
Definition store16_b : Hyperion.t :=
  after (Hyperion.put user1002 balance0 store16).

(** [create(1 << 16, 8)] filled with eight keys. *)
Definition store8 : Hyperion.t := fst (Hyperion.create 65536 8 true).
Definition eight_keys : list (list byte * list byte) :=
  map (λ s, (bytes s, bytes s)) ["a"; "b"; "c"; "d"; "e"; "f"; "g"; "h"]%string.
Definition store8_full : Hyperion.t :=
  default Hyperion.default (put_all eight_keys store8).
Definition store8_ninth : Hyperion.t :=
  default Hyperion.default (run (bytes "i") [Put (bytes "i")] store8_full).

(** [create(64, 8)] and a value that does not fit. *)
Definition store64 : Hyperion.t := fst (Hyperion.create 64 8 true).
Definition value60 : list byte := replicate 60 "x"%byte.
Definition store64_full : Hyperion.t :=
  after (Hyperion.put (bytes "k") value60 store64).

(** The largest value, and the value whose request ends exactly at [2^32]
    after 65527 requests for the largest one. *)
Definition value_max : list byte := replicate (Z.to_nat 65535) "x"%byte.
Definition value_wrap : list byte := replicate (Z.to_nat 65519) "x"%byte.

(** ** Runs of the writer with the statuses it is answered *)

Definition writer_call (w : wop) (st : Hyperion.t) : option (Status * Hyperion.t) :=
  match w with
  | W_put key val => Hyperion.put key val st
  | W_del key => Hyperion.del key st
  end.

Fixpoint writer_log (ws : list wop) (st : Hyperion.t)
    : option (list Status * Hyperion.t) :=
  match ws with
  | [] => Some ([], st)
  | w :: ws' =>
      '(s, st1) ← writer_call w st;
      '(ss, st2) ← writer_log ws' st1;
      Some (s :: ss, st2)
  end.

(** ** A dictionary with a byte budget

    The store as a caller sees it: a finite map from keys to values and
    the number of arena bytes requested so far, against the size of the
    arena.  A record of [k] key bytes and [v] value bytes takes the
    header and the bytes, rounded up to a multiple of eight. *)

Definition record_size (key val : list byte) : Z :=
  8 * ((HEADER + size key + size val + 7) / 8).

Module Dict.

Record t : Type := mk {
  table : list byte → option (list byte);
  cursor : Z;
  limit : Z
}.

Definition create (bytes : Z) : t := mk (λ _, None) 8 bytes.

Definition put (key val : list byte) (d : t) : Status * t :=
  if bool_decide (MAX_KEY < size key) then (KeyTooLong, d)
  else if bool_decide (MAX_VAL < size val) then (ValTooLong, d)
  else
    let c := cursor d + record_size key val in
    if bool_decide (limit d < c) then (ArenaFull, mk (table d) c (limit d))
    else (OK, mk (λ k, if bool_decide (k = key) then Some val else table d k)
                 c (limit d)).

Definition get (key out : list byte) (d : t) : Status * list byte :=
  match table d key with
  | Some v => (OK, v)
  | None => (NotFound, out)
  end.

Definition del (key : list byte) (d : t) : Status * t :=
  match table d key with
  | Some _ => (OK, mk (λ k, if bool_decide (k = key) then None else table d k)
                       (cursor d) (limit d))
  | None => (NotFound, d)
  end.

Definition call (w : wop) (d : t) : Status * t :=
  match w with
  | W_put key val => put key val d
  | W_del key => del key d
  end.

Fixpoint log (ws : list wop) (d : t) : list Status * t :=
  match ws with
  | [] => ([], d)
  | w :: ws' =>
      let '(s, d1) := call w d in
      let '(ss, d2) := log ws' d1 in
      (s :: ss, d2)
  end.

End Dict.

(** The arena bytes that a run of the writer asks for. *)
Fixpoint demand (ws : list wop) : Z :=
  match ws with
  | [] => 0
  | W_put key val :: ws' =>
      (if bool_decide (size key <= MAX_KEY ∧ size val <= MAX_VAL)
       then record_size key val else 0) + demand ws'
  | W_del _ :: ws' => demand ws'
  end.

(** The number of puts in a run of the writer. *)
Fixpoint puts (ws : list wop) : nat :=
  match ws with
  | [] => 0
  | W_put _ _ :: ws' => S (puts ws')
  | W_del _ :: ws' => puts ws'
  end.

(** A put or a delete of a sequence on one key, as a call of the writer. *)
Definition on_key (key : list byte) (o : op) : wop :=
  match o with
  | Put val => W_put key val
  | Del => W_del key
  end.

(** The store answers as the dictionary does. *)
Definition refines (st : Hyperion.t) (d : Dict.t) : Prop :=
  Arena.offset_ (Hyperion.arena_ st) = Dict.cursor d ∧
  Arena.size_ (Hyperion.arena_ st) = Dict.limit d ∧
  ∀ key out, Hyperion.get key out st = Some (Dict.get key out d).

(** The status of a put that does not reach a fitting allocation. *)
Definition put_refused (key val : list byte) : Status :=
  if bool_decide (MAX_KEY < size key) then KeyTooLong
  else if bool_decide (MAX_VAL < size val) then ValTooLong
  else ArenaFull.

(** The cursor is a multiple of eight and, unless it is past the end of
    the arena, not below 8; the offset of every valid slot is a multiple
    of eight and not below 8. *)
Definition aligned_ok (st : Hyperion.t) : Prop :=
  (8 <= Arena.offset_ (Hyperion.arena_ st) ∨
   Arena.size_ (Hyperion.arena_ st) < Arena.offset_ (Hyperion.arena_ st)) ∧
  Arena.offset_ (Hyperion.arena_ st) mod 8 = 0 ∧
  Forall (λ s, Slot.is_valid s = true → 8 <= Slot.offset s ∧ Slot.offset s mod 8 = 0)
         (Index.slots_ (index st)).

(** ** main.cpp: the calls that [bench_hyperion] makes on the store

    The clock reads and the printing of the timings are left out; they
    do not touch the store. *)

(** [std::to_string] on an [int] that is not negative: its decimal
    digits, most significant first.  An [int] has at most ten. *)
Fixpoint digits (fuel : nat) (n : Z) (acc : list byte) : list byte :=
  match fuel with
  | O => acc
  | S fuel' =>
      let acc' := byte_of (48 + n mod 10) :: acc in
      if n / 10 =? 0 then acc' else digits fuel' (n / 10) acc'
  end.

Definition to_string (n : Z) : list byte := digits 10 n [].

(** [keys.push_back("key:" + std::to_string(i))] for [i] from 0 below
    [count]. *)
Definition bench_keys (count : Z) : list (list byte) :=
  map (λ i : nat, bytes "key:" ++ to_string (Z.of_nat i)) (seq 0 (Z.to_nat count)).

Definition bench_val : list byte :=
  bytes "payload:64bytes_xxxxxxxxxxxxxxxxxxxxxxxxxxxxxxxxxxxxxxxxxxxx".

(** [for (const auto& k : keys) db.put(k, val);] with the statuses that
    the loop drops. *)
Fixpoint bench_insert (keys : list (list byte)) (val : list byte)
    (db : Hyperion.t) : option (list Status * Hyperion.t) :=
  match keys with
  | [] => Some ([], db)
  | k :: keys' =>
      '(s, db1) ← Hyperion.put k val db;
      '(ss, db2) ← bench_insert keys' val db1;
      Some (s :: ss, db2)
  end.

(** [std::string out; for (const auto& k : keys) db.get(k, out);] with
    the statuses that the loop drops and the final contents of [out]. *)
Fixpoint bench_read (keys : list (list byte)) (out : list byte)
    (db : Hyperion.t) : option (list Status * list byte) :=
  match keys with
  | [] => Some ([], out)
  | k :: keys' =>
      '(s, out1) ← Hyperion.get k out db;
      '(ss, out2) ← bench_read keys' out1 db;
      Some (s :: ss, out2)
  end.

(** [exit(1)] after a failed [create] is [None]. *)
Definition bench_hyperion (count : Z) (mapped : bool)
    : option (list Status * list Status * list byte) :=
  let '(db, ae) := Hyperion.create (256 * 1024 * 1024) (u32 (count * 2)) mapped in
  match ae with
  | AE_None =>
      '(put_statuses, db) ← bench_insert (bench_keys count) bench_val db;
      '(get_statuses, out) ← bench_read (bench_keys count) [] db;
      Some (put_statuses, get_statuses, out)
  | _ => None
  end.

(** A run of the writer on [create(1 << 16, 16)]. *)
Definition five_calls : list wop :=
  [W_put user1001 balance5000; W_put user1002 balance0; W_del user1001;
   W_put (replicate 256 "k"%byte) balance0; W_del user1001].

(** A mapping of [1 << 16] bytes, and the record of "user:1001" in it. *)
Definition arena16 : Arena.t := Arena.mk (λ _, Byte.x00) 65536 8.
Definition arena16_entry : Arena.t :=
  default Arena.default
    (Hyperion.write_entry arena16 8 (Index.hash user1001) user1001 balance5000).

(** Two calls on the store that holds "user:1001". *)
Definition two_calls : list wop := [W_del user1001; W_put user1002 balance0].
Definition store16_a_log : list Status * Hyperion.t :=
  default ([], Hyperion.default) (writer_log two_calls store16_a).

(** Calls on the store whose cursor is past the end of the arena. *)
Definition calls_when_full : list wop :=
  [W_put (bytes "a") (bytes "b"); W_del (bytes "k");
   W_put (replicate 256 "k"%byte) (bytes "b")].

(** * Lemmas *)

(** ** Bytes, header fields and raw memory *)

Lemma byte_val_of z : byte_val (byte_of z) = z mod 256.
Proof.
  unfold byte_val, byte_of.
  pose proof (Z.mod_pos_bound z 256 eq_refl) as Hz.
  destruct (Byte.of_N (Z.to_N (z mod 256))) as [b|] eqn:E; simpl.
  - apply Byte.to_of_N in E. rewrite E. lia.
  - apply Byte.of_N_None_iff in E. lia.
Qed.

Lemma le_val_le16 x : 0 <= x < 2 ^ 16 -> le_val (le16 x) = x.
Proof.
  intros Hx. unfold le16. simpl le_val. rewrite !byte_val_of.
  rewrite Z.shiftr_div_pow2 by lia. change (2 ^ 8) with 256.
  change (2 ^ 16) with 65536 in Hx.
  rewrite (Z.mod_small (x / 256)) by (split; [apply Z.div_pos; lia | apply Z.div_lt_upper_bound; lia]).
  pose proof (Z.div_mod x 256). lia.
Qed.

Lemma le_val_le32 x : 0 <= x < 2 ^ 32 -> le_val (le32 x) = x.
Proof.
  intros Hx. unfold le32. simpl le_val. rewrite !byte_val_of.
  rewrite !Z.shiftr_div_pow2 by lia.
  change (2 ^ 8) with 256. change (2 ^ 16) with 65536. change (2 ^ 24) with 16777216.
  change (2 ^ 32) with 4294967296 in Hx.
  pose proof (Z.div_mod x 256). 
  pose proof (Z.mod_pos_bound x 256).
  pose proof (Z.div_mod (x / 256) 256). pose proof (Z.mod_pos_bound (x / 256) 256).
  pose proof (Z.div_mod (x / 65536) 256). pose proof (Z.mod_pos_bound (x / 65536) 256).
  assert (x / 65536 = x / 256 / 256) as E1 by (rewrite Z.div_div by lia; done).
  assert (x / 16777216 = x / 65536 / 256) as E2 by (rewrite Z.div_div by lia; done).
  assert (0 <= x / 16777216 < 256) by (split; [apply Z.div_pos; lia | apply Z.div_lt_upper_bound; lia]).
  rewrite (Z.mod_small (x / 16777216)) by lia.
  lia.
Qed.

Lemma length_mem_load m off n : length (mem_load m off n) = n.
Proof. unfold mem_load. by rewrite length_map, length_seq. Qed.

Lemma mem_load_ext m m' off n :
  (forall a, off <= a < off + Z.of_nat n -> m a = m' a) ->
  mem_load m off n = mem_load m' off n.
Proof.
  intros H. unfold mem_load. apply map_ext_in. intros i Hi%in_seq. apply H. lia.
Qed.

Lemma mem_store_outside m off bs a :
  ¬ (off <= a < off + size bs) -> mem_store m off bs a = m a.
Proof. intros H. unfold mem_store. by rewrite bool_decide_eq_false_2. Qed.

Lemma mem_store_inside m off bs a :
  off <= a < off + size bs -> mem_store m off bs a = nth (Z.to_nat (a - off)) bs Byte.x00.
Proof. intros H. unfold mem_store. by rewrite bool_decide_eq_true_2. Qed.

Lemma mem_load_store_same m off bs :
  mem_load (mem_store m off bs) off (length bs) = bs.
Proof.
  apply (nth_ext _ _ Byte.x00 Byte.x00).
  - apply length_mem_load.
  - intros i Hi. rewrite length_mem_load in Hi.
    unfold mem_load.
    rewrite (nth_indep _ _ (mem_store m off bs (off + Z.of_nat 0))) by (rewrite length_map, length_seq; done).
    rewrite (map_nth (λ i : nat, mem_store m off bs (off + Z.of_nat i))).
    rewrite seq_nth by done. simpl.
    rewrite mem_store_inside by (unfold size; lia).
    f_equal. lia.
Qed.

Lemma mem_load_store_disjoint m off bs off' n :
  off' + Z.of_nat n <= off ∨ off + size bs <= off' ->
  mem_load (mem_store m off bs) off' n = mem_load m off' n.
Proof.
  intros H. apply mem_load_ext. intros a Ha. apply mem_store_outside. lia.
Qed.

(** ** The hash loop *)

Lemma hash_loop_fold data n i h :
  (Z.to_nat i + n = length data)%nat -> 0 <= i ->
  Index.hash_loop data n i h =
  fold_left (λ h b, (Z.lxor h (byte_val b) * FNV_prime) mod 2 ^ 32)
            (drop (Z.to_nat i) data) h.
Proof.
  revert i h. induction n as [|n IH]; intros i h Hlen Hi.
  - simpl. rewrite drop_ge by lia. done.
  - simpl Index.hash_loop.
    rewrite IH by lia.
    destruct (drop (Z.to_nat i) data) as [|b rest] eqn:E.
    { apply (f_equal length) in E. rewrite length_drop in E. simpl in E. lia. }
    assert (data !! Z.to_nat i = Some b) as Hb.
    { rewrite <- (Nat.add_0_r (Z.to_nat i)), <- lookup_drop, E. done. }
    rewrite (nth_lookup_Some _ _ _ _ Hb).
    replace (Z.to_nat (i + 1)) with (S (Z.to_nat i)) by lia.
    assert (drop (S (Z.to_nat i)) data = rest) as ->.
    { rewrite <- (drop_drop data 1 (Z.to_nat i)) || idtac.
      change (S (Z.to_nat i)) with (1 + Z.to_nat i)%nat.
      rewrite Nat.add_comm, <- drop_drop, E. done. }
    simpl. done.
Qed.

Lemma hash_fnv1a data : Index.hash data = fnv1a data.
Proof.
  unfold Index.hash, fnv1a. rewrite hash_loop_fold by (simpl; lia). done.
Qed.

Lemma fnv1a_range data : 0 <= fnv1a data < 2 ^ 32.
Proof.
  unfold fnv1a.
  assert (0 <= FNV_offset_basis < 2 ^ 32) as H by (unfold FNV_offset_basis; lia).
  revert H. generalize FNV_offset_basis. induction data as [|b data IH]; intros h Hh; simpl.
  - done.
  - apply IH. apply Z.mod_pos_bound. lia.
Qed.

Lemma hash_range data : 0 <= Index.hash data < 2 ^ 32.
Proof. rewrite hash_fnv1a. apply fnv1a_range. Qed.

(** ** Rounding up to a power of two *)

Section Smear.
Variable x : Z.

Lemma covers_start : covers x 1 x.
Proof.
  intros i Hi. split.
  - intros H. exists 0. rewrite Z.add_0_r. split; [lia | done].
  - intros (j & Hj & H). by replace (i + j) with i in H by lia.
Qed.

Lemma covers_step m k v :
  0 < k <= m → covers x m v → covers x (m + k) (Z.lor v (v ≫ k)).
Proof.
  intros Hk Hv i Hi.
  rewrite Z.lor_spec, Z.shiftr_spec by lia.
  rewrite orb_true_iff, (Hv i Hi), (Hv (i + k)) by lia.
  split.
  - intros [(j & Hj & H) | (j & Hj & H)].
    + exists j. split; [lia | done].
    + exists (k + j). split; [lia |]. by rewrite Z.add_assoc.
  - intros (j & Hj & H). destruct (decide (j < m)).
    + left. exists j. split; [lia | done].
    + right. exists (j - k). split; [lia |].
      by replace (i + k + (j - k)) with (i + j) by lia.
Qed.
End Smear.

Lemma smear_ones x :
  0 < x < 2 ^ 32 →
  let v := x in
  let v := Z.lor v (v ≫ 1) in
  let v := Z.lor v (v ≫ 2) in
  let v := Z.lor v (v ≫ 4) in
  let v := Z.lor v (v ≫ 8) in
  let v := Z.lor v (v ≫ 16) in
  v = 2 ^ (Z.log2 x + 1) - 1.
Proof.
  intros Hx. cbv zeta.
  pose proof (covers_start x) as H1.
  apply (covers_step x 1 1) in H1; [|lia].
  apply (covers_step x 2 2) in H1; [|lia].
  apply (covers_step x 4 4) in H1; [|lia].
  apply (covers_step x 8 8) in H1; [|lia].
  apply (covers_step x 16 16) in H1; [|lia].
  simpl in H1.
  set (v := Z.lor _ _) in *. clearbody v.
  assert (Z.log2 x < 32) as HL by (apply Z.log2_lt_pow2; lia).
  pose proof (Z.log2_nonneg x) as HL0.
  replace (2 ^ (Z.log2 x + 1) - 1) with (Z.ones (Z.log2 x + 1)) by (rewrite Z.ones_equiv; lia).
  apply Z.bits_inj'. intros i Hi.
  destruct (decide (i <= Z.log2 x)) as [Hle|Hgt].
  - rewrite Z.ones_spec_low by lia.
    apply (H1 i Hi). exists (Z.log2 x - i). split; [lia |].
    replace (i + (Z.log2 x - i)) with (Z.log2 x) by lia.
    apply Z.bit_log2. lia.
  - rewrite Z.ones_spec_high by lia.
    apply not_true_is_false. intros (j & Hj & Hb)%(H1 i Hi).
    rewrite Z.bits_above_log2 in Hb by lia. done.
Qed.

Lemma next_pow2_log2_up v :
  2 <= v <= 2 ^ 31 → Index.next_pow2 v = 2 ^ Z.log2_up v.
Proof.
  intros Hv. unfold Index.next_pow2, u32, wrap.
  rewrite (Z.mod_small (v - 1)) by lia.
  pose proof (smear_ones (v - 1)) as H. cbv zeta in H. rewrite H by lia.
  replace (2 ^ (Z.log2 (v - 1) + 1) - 1 + 1) with (2 ^ (Z.log2 (v - 1) + 1)) by lia.
  assert (Z.log2_up v = Z.log2 (v - 1) + 1) as ->.
  { unfold Z.log2_up. destruct (1 ?= v) eqn:E; try (apply Z.compare_eq in E || apply Z.compare_gt_iff in E; lia).
    rewrite <- Z.sub_1_r. lia. }
  assert (Z.log2 (v - 1) < 31) by (apply Z.log2_lt_pow2; lia).
  pose proof (Z.log2_nonneg (v - 1)).
  apply Z.mod_small. split; [lia |].
  apply Z.pow_lt_mono_r; lia.
Qed.

Lemma log2_up_smallest m :
  2 <= m → smallest_pow2_geq m (2 ^ Z.log2_up m).
Proof.
  intros Hm. pose proof (Z.log2_up_spec m ltac:(lia)) as [Hlo Hhi].
  pose proof (Z.log2_up_nonneg m).
  split; [| split].
  - exists (Z.log2_up m). done.
  - done.
  - intros c' (k & Hk & ->) Hc'.
    apply Z.pow_le_mono_r; [lia |].
    destruct (decide (Z.log2_up m <= k)); [done | exfalso].
    assert (2 ^ k <= 2 ^ Z.pred (Z.log2_up m)) by (apply Z.pow_le_mono_r; lia).
    lia.
Qed.

(** Power-of-two rounding of [init], on the slot counts for which the
    result fits 32 bits. *)
Lemma init_capacity s :
  0 <= s <= 2 ^ 31 →
  smallest_pow2_geq (Z.max s 8) (Index.capacity_ (Index.init s)) ∧
  Index.mask_ (Index.init s) = Index.capacity_ (Index.init s) - 1.
Proof.
  intros Hs. unfold Index.init. simpl.
  rewrite next_pow2_log2_up by lia.
  pose proof (log2_up_smallest (Z.max s 8) ltac:(lia)) as Hsm.
  split; [done |].
  destruct Hsm as (_ & Hge & _).
  assert (2 ^ Z.log2_up (Z.max s 8) <= 2 ^ 31).
  { apply Z.pow_le_mono_r; [lia |]. apply Z.log2_up_le_pow2; lia. }
  unfold u32, wrap. apply Z.mod_small. lia.
Qed.

(** ** The probe loop, read backwards *)

Section IndexFacts.
Variable ix : Index.t.
Hypothesis Hwf : index_wf ix.

Lemma capacity_bounds : 0 < Index.capacity_ ix <= 2 ^ 31.
Proof.
  destruct Hwf as ((n & Hn & ->) & _).
  split; [apply Z.pow_pos_nonneg; lia | apply Z.pow_le_mono_r; lia].
Qed.

Lemma land_mask h : 0 <= h → Z.land h (Index.mask_ ix) = h mod Index.capacity_ ix.
Proof.
  intros Hh. destruct Hwf as ((n & Hn & Hc) & -> & _). rewrite Hc.
  replace (2 ^ n - 1) with (Z.ones n) by (rewrite Z.ones_equiv; lia).
  apply Z.land_ones. lia.
Qed.

Lemma next_index idx :
  0 <= idx < Index.capacity_ ix →
  Z.land (u32 (idx + 1)) (Index.mask_ ix) = (idx + 1) mod Index.capacity_ ix.
Proof.
  intros Hi. pose proof capacity_bounds.
  unfold u32, wrap. rewrite Z.mod_small by lia. apply land_mask. lia.
Qed.

Lemma at_in_range idx :
  0 <= idx < Index.capacity_ ix → ∃ s, Index.at_ ix idx = Some s ∧ slot_wf s.
Proof.
  intros Hi. destruct Hwf as (_ & _ & Hlen & Hall).
  unfold Index.at_.
  destruct (lookup_lt_is_Some_2 (Index.slots_ ix) (Z.to_nat idx)) as [s Hs]; [lia |].
  exists s. split; [done |].
  rewrite Forall_lookup in Hall. by eapply Hall.
Qed.

Lemma probe_range start i : 0 <= probe ix start i < Index.capacity_ ix.
Proof. unfold probe. apply Z.mod_pos_bound. apply capacity_bounds. Qed.

Lemma probe_0 start : 0 <= start < Index.capacity_ ix → probe ix start 0 = start.
Proof. intros H. unfold probe. rewrite Z.add_0_r. by apply Z.mod_small. Qed.

Lemma probe_S start i :
  probe ix ((start + 1) mod Index.capacity_ ix) i = probe ix start (S i).
Proof.
  unfold probe. rewrite Z.add_mod_idemp_l by (pose proof capacity_bounds; lia).
  f_equal. lia.
Qed.

Lemma probe_full start :
  0 <= start < Index.capacity_ ix →
  probe ix start (Z.to_nat (Index.capacity_ ix)) = start.
Proof.
  intros H. pose proof capacity_bounds. unfold probe.
  rewrite Z2Nat.id by lia.
  rewrite <- (Z.mul_1_l (Index.capacity_ ix)) at 1.
  rewrite Z.mod_add by lia. by apply Z.mod_small.
Qed.

(** Each slot index is visited within [capacity_] probes. *)
Lemma probe_reaches start j :
  0 <= j < Index.capacity_ ix →
  ∃ d : nat, Z.of_nat d < Index.capacity_ ix ∧ probe ix start d = j.
Proof.
  intros Hj. pose proof capacity_bounds as Hc.
  pose proof (Z.mod_pos_bound (j - start) (Index.capacity_ ix) ltac:(lia)) as Hd.
  exists (Z.to_nat ((j - start) mod Index.capacity_ ix)).
  split; [lia |]. unfold probe. rewrite Z2Nat.id by lia.
  rewrite Z.add_mod_idemp_r by lia.
  replace (start + (j - start)) with j by lia. apply Z.mod_small. lia.
Qed.

Section Find.
Variables (tag klen : Z) (eq : Slot.t → option bool).

Lemma stepped_S start m s :
  0 <= start < Index.capacity_ ix →
  Index.at_ ix start = Some s → passed tag klen eq s →
  stepped ix tag klen eq ((start + 1) mod Index.capacity_ ix) m →
  stepped ix tag klen eq start (S m).
Proof.
  intros Hr Hs Hp Hm [|i] Hi.
  - rewrite probe_0 by done. eauto.
  - rewrite <- probe_S. apply Hm. lia.
Qed.

Lemma find_loop_inv n : ∀ idx ft r b,
  0 <= idx < Index.capacity_ ix →
  Index.find_loop ix tag klen eq n idx ft = Some (r, b) →
  if b then find_found ix tag klen eq idx n r
  else find_absent ix tag klen eq idx n ft r.
Proof.
  induction n as [|n IH]; intros idx ft r b Hidx Hrun.
  - simpl in Hrun. injection Hrun as <- <-.
    exists 0%nat. split; [lia |]. split; [intros i Hi; lia |].
    split; [lia |]. unfold Index.candidate.
    destruct (ft =? UINT32_MAX) eqn:E; simpl.
    + right. apply Z.eqb_eq in E. split; [done |]. right.
      rewrite probe_0 by done. split; [done | intros i Hi; lia].
    + left. apply Z.eqb_neq in E. done.
  - simpl in Hrun.
    destruct (Index.at_ ix idx) as [s|] eqn:Hs; [|done]. simpl in Hrun.
    rewrite next_index in Hrun by done.
    pose proof (Z.mod_pos_bound (idx + 1) (Index.capacity_ ix) ltac:(pose proof capacity_bounds; lia)) as Hnext.
    destruct (Slot.is_empty s) eqn:Hemp.
    { injection Hrun as <- <-.
      exists 0%nat. split; [lia |]. split; [intros i Hi; lia |].
      split; [intros _; rewrite probe_0 by done; eauto |].
      unfold Index.candidate.
      destruct (ft =? UINT32_MAX) eqn:E; simpl.
      + right. apply Z.eqb_eq in E. split; [done |]. right.
        rewrite probe_0 by done. split; [done | intros i Hi; lia].
      + left. apply Z.eqb_neq in E. done. }
    assert (∀ ft', Index.find_loop ix tag klen eq n ((idx + 1) mod Index.capacity_ ix) ft' = Some (r, b) →
              Slot.is_tombstone s = false → ft' = ft → passed tag klen eq s →
              if b then find_found ix tag klen eq idx (S n) r
              else find_absent ix tag klen eq idx (S n) ft r) as Hcont.
    { intros ft' Hrun' Htomb -> Hpass.
      apply IH in Hrun'; [|done]. destruct b.
      - destruct Hrun' as (m & Hm & Hst & Hr & Hmatch).
        exists (S m). split; [lia |]. split; [by eapply stepped_S |].
        split; [by rewrite <- probe_S |]. done.
      - destruct Hrun' as (m & Hm & Hst & Hend & Hcand).
        exists (S m). split; [lia |]. split; [by eapply stepped_S |].
        split; [intros Hlt; rewrite <- probe_S; apply Hend; lia |].
        destruct Hcand as [Hft | [Hft Hrec]]; [by left |]. right. split; [done |].
        destruct Hrec as [(t & Ht & Hrt & Htb & Hbefore) | [Hrm Hbefore]].
        + left. exists (S t). split; [lia |]. split; [by rewrite <- probe_S |].
          split; [done |]. intros [|i] Hi.
          * rewrite probe_0 by done. eauto.
          * rewrite <- probe_S. apply Hbefore. lia.
        + right. split; [by rewrite <- probe_S |]. intros [|i] Hi.
          * rewrite probe_0 by done. eauto.
          * rewrite <- probe_S. apply Hbefore. lia. }
    destruct (Slot.is_tombstone s) eqn:Htomb.
    { apply IH in Hrun; [|done]. destruct b.
      - destruct Hrun as (m & Hm & Hst & Hr & Hmatch).
        exists (S m). split; [lia |].
        split; [eapply stepped_S; eauto; split; auto |].
        split; [by rewrite <- probe_S |]. done.
      - destruct Hrun as (m & Hm & Hst & Hend & Hcand).
        exists (S m). split; [lia |].
        split; [eapply stepped_S; eauto; split; auto |].
        split; [intros Hlt; rewrite <- probe_S; apply Hend; lia |].
        destruct (ft =? UINT32_MAX) eqn:E.
        + apply Z.eqb_eq in E. right. split; [done |].
          destruct Hcand as [[_ ->] | [Hidx' _]].
          * left. exists 0%nat. split; [lia |].
            rewrite probe_0 by done. split; [done |].
            split; [eauto | intros i Hi; lia].
          * pose proof capacity_bounds. unfold UINT32_MAX in Hidx'. lia.
        + apply Z.eqb_neq in E. left. split; [done |].
          destruct Hcand as [[_ ->] | [Hft _]]; done. }
    destruct ((Slot.hash_tag s =? tag) && (Slot.key_len s =? klen)) eqn:Hpre.
    + destruct (eq s) as [[|]|] eqn:Heq; simpl in Hrun; [| |done].
      * injection Hrun as <- <-.
        exists 0%nat. split; [lia |]. split; [intros i Hi; lia |].
        rewrite probe_0 by done. split; [done |]. exists s. done.
      * apply (Hcont ft); try done. split; auto.
    + apply (Hcont ft); try done. split; auto.
Qed.
End Find.
End IndexFacts.

(** ** The probe loop, read forwards *)

Section FindForward.
Variable ix : Index.t.
Hypothesis Hwf : index_wf ix.
Variables (tag klen : Z) (eq : Slot.t → option bool).

Lemma stepped_tail start m :
  0 <= start < Index.capacity_ ix →
  stepped ix tag klen eq start (S m) →
  stepped ix tag klen eq ((start + 1) mod Index.capacity_ ix) m.
Proof.
  intros Hr Hst i Hi. rewrite probe_S by done. apply Hst. lia.
Qed.

(** A matching slot behind [m] slots that are stepped over is found. *)
Lemma find_loop_found m : ∀ n idx ft s,
  0 <= idx < Index.capacity_ ix →
  (m < n)%nat →
  stepped ix tag klen eq idx m →
  Index.at_ ix (probe ix idx m) = Some s → matches tag klen eq s →
  Index.find_loop ix tag klen eq n idx ft = Some (probe ix idx m, true).
Proof.
  induction m as [|m IH]; intros n idx ft s Hidx Hn Hst Hs Hmatch.
  - destruct n as [|n]; [lia |]. rewrite probe_0 in * by done.
    destruct Hmatch as (He & Ht & Hp & Heq). unfold prefilter in Hp.
    simpl. rewrite Hs. simpl. by rewrite He, Ht, Hp, Heq.
  - destruct n as [|n]; [lia |].
    destruct (Hst 0%nat ltac:(lia)) as (s0 & Hs0 & He & Hpass).
    rewrite probe_0 in Hs0 by done.
    pose proof (Z.mod_pos_bound (idx + 1) (Index.capacity_ ix) ltac:(pose proof (capacity_bounds ix Hwf); lia)) as Hnext.
    assert (∀ ft', Index.find_loop ix tag klen eq n ((idx + 1) mod Index.capacity_ ix) ft'
                   = Some (probe ix idx (S m), true)) as Hrest.
    { intros ft'. rewrite <- probe_S by done.
      eapply IH; [done | lia | by apply stepped_tail | by rewrite probe_S | done]. }
    simpl. rewrite Hs0. simpl. rewrite He. rewrite next_index by done.
    destruct (Slot.is_tombstone s0) eqn:Ht; [apply Hrest |].
    unfold prefilter in Hpass.
    destruct ((Slot.hash_tag s0 =? tag) && (Slot.key_len s0 =? klen)) eqn:Hp.
    + destruct Hpass as [? | [? | Heq]]; [done | done |].
      rewrite Heq. simpl. apply Hrest.
    + apply Hrest.
Qed.

(** The loop has a result as soon as the comparison has one on every
    slot that passes the tag and length filter. *)
Lemma find_loop_total n : ∀ idx ft,
  0 <= idx < Index.capacity_ ix →
  (∀ s, s ∈ Index.slots_ ix → Slot.is_empty s = false →
        Slot.is_tombstone s = false → prefilter tag klen s = true →
        is_Some (eq s)) →
  is_Some (Index.find_loop ix tag klen eq n idx ft).
Proof.
  induction n as [|n IH]; intros idx ft Hidx Heq; [simpl; eauto |].
  destruct (at_in_range ix Hwf idx Hidx) as (s & Hs & _).
  pose proof (Z.mod_pos_bound (idx + 1) (Index.capacity_ ix) ltac:(pose proof (capacity_bounds ix Hwf); lia)) as Hnext.
  simpl. rewrite Hs. simpl. rewrite next_index by done.
  destruct (Slot.is_empty s) eqn:He; [eauto |].
  destruct (Slot.is_tombstone s) eqn:Ht; [by apply IH |].
  destruct ((Slot.hash_tag s =? tag) && (Slot.key_len s =? klen)) eqn:Hp; [| by apply IH].
  destruct (Heq s) as [[|] Hb]; try done.
  - by eapply list_elem_of_lookup_2.
  - rewrite Hb. simpl. eauto.
  - rewrite Hb. simpl. by apply IH.
Qed.
End FindForward.

(** The result index of [find] lies inside the slot array. *)
Lemma find_result_range ix h klen eq r b :
  index_wf ix → 0 <= h →
  Index.find ix h klen eq = Some (r, b) →
  0 <= r < Index.capacity_ ix.
Proof.
  intros Hwf Hh Hf. unfold Index.find in Hf.
  rewrite land_mask in Hf by done.
  pose proof (capacity_bounds ix Hwf) as Hc.
  apply find_loop_inv in Hf; [| done | apply Z.mod_pos_bound; lia].
  destruct b.
  - destruct Hf as (m & _ & _ & -> & _). by apply probe_range.
  - destruct Hf as (m & _ & _ & _ & [[Hne _] | [_ Hrec]]); [done |].
    destruct Hrec as [(t & _ & -> & _) | [-> _]]; by apply probe_range.
Qed.

(** ** Rounding up to a multiple of eight *)

Lemma land_round8 a : 0 <= a < 2 ^ 32 → Z.land a (u32 (Z.lnot 7)) = 8 * (a / 8).
Proof.
  intros Ha.
  change (u32 (Z.lnot 7)) with (Z.shiftl (Z.ones 29) 3).
  replace (8 * (a / 8)) with (Z.shiftl (Z.shiftr a 3) 3)
    by (rewrite Z.shiftl_mul_pow2, Z.shiftr_div_pow2 by lia; change (2 ^ 3) with 8; lia).
  apply Z.bits_inj'. intros i Hi. rewrite Z.land_spec.
  destruct (decide (i < 3)).
  - rewrite !Z.shiftl_spec_low by lia. by rewrite andb_false_r.
  - rewrite !Z.shiftl_spec by lia. rewrite Z.shiftr_spec by lia.
    replace (i - 3 + 3) with i by lia.
    destruct (decide (i < 32)).
    + rewrite Z.ones_spec_low by lia. by rewrite andb_true_r.
    + rewrite Z.ones_spec_high by lia. rewrite andb_false_r.
      rewrite <- (Z.mod_small a (2 ^ 32)) by lia.
      symmetry. apply Z.mod_pow2_bits_high. lia.
Qed.

Lemma size_nonneg bs : 0 <= size bs.
Proof. unfold size. lia. Qed.

Lemma needed_eq key val :
  size key <= MAX_KEY → size val <= MAX_VAL →
  Hyperion.needed key val = 8 * ((HEADER + size key + size val + 7) / 8).
Proof.
  intros Hk Hv. pose proof (size_nonneg key). pose proof (size_nonneg val).
  unfold MAX_KEY, MAX_VAL, HEADER in *.
  unfold Hyperion.needed, HEADER, u32 at 1 2, wrap.
  rewrite (Z.mod_small (8 + size key + size val)) by lia.
  rewrite (Z.mod_small (8 + size key + size val + 7)) by lia.
  apply land_round8. lia.
Qed.

Lemma needed_bounds key val :
  size key <= MAX_KEY → size val <= MAX_VAL →
  HEADER + size key + size val <= Hyperion.needed key val
    <= HEADER + size key + size val + 7.
Proof.
  intros Hk Hv. rewrite needed_eq by done.
  pose proof (size_nonneg key). pose proof (size_nonneg val).
  pose proof (Z.div_mod (HEADER + size key + size val + 7) 8 ltac:(lia)).
  pose proof (Z.mod_pos_bound (HEADER + size key + size val + 7) 8 ltac:(lia)).
  lia.
Qed.

(** ** Reading back what was written *)

Lemma read_Some a off len :
  0 <= off → 0 <= len → off + len <= Arena.size_ a →
  Arena.read a off len = Some (mem_load (Arena.base_ a) off (Z.to_nat len)).
Proof.
  intros H1 H2 H3. unfold Arena.read, Arena.in_bounds.
  rewrite (proj2 (Z.leb_le _ _) H1), (proj2 (Z.leb_le _ _) H3). done.
Qed.

Lemma write_Some_inv a off bs a' :
  Arena.write a off bs = Some a' →
  0 <= off ∧ off + size bs <= Arena.size_ a ∧
  a' = Arena.mk (mem_store (Arena.base_ a) off bs) (Arena.size_ a) (Arena.offset_ a).
Proof.
  unfold Arena.write, Arena.in_bounds. intros H.
  destruct (0 <=? off) eqn:E1; [|done]. destruct (off + size bs <=? Arena.size_ a) eqn:E2; [|done].
  simpl in H. injection H as <-. apply Z.leb_le in E1, E2. done.
Qed.

(** The five stores of [put] leave a complete record at [off] and change
    nothing outside it. *)
Lemma write_entry_inv a off key val a' :
  size key <= MAX_KEY → size val <= MAX_VAL →
  Hyperion.write_entry a off (Index.hash key) key val = Some a' →
  entry_at a' off key val ∧
  Arena.size_ a' = Arena.size_ a ∧ Arena.offset_ a' = Arena.offset_ a ∧
  ∀ x, ¬ (off <= x < off + HEADER + size key + size val) →
       Arena.base_ a' x = Arena.base_ a x.
Proof.
  intros Hk Hv. unfold Hyperion.write_entry. intros H.
  destruct (Arena.write a off _) as [a1|] eqn:W1; [|done]. simpl in H.
  destruct (Arena.write a1 (off + 2) _) as [a2|] eqn:W2; [|done]. simpl in H.
  destruct (Arena.write a2 (off + 4) _) as [a3|] eqn:W3; [|done]. simpl in H.
  destruct (Arena.write a3 (off + HEADER) _) as [a4|] eqn:W4; [|done]. simpl in H.
  rename H into W5.
  apply write_Some_inv in W1 as (B1 & B1' & ->).
  apply write_Some_inv in W2 as (B2 & B2' & ->).
  apply write_Some_inv in W3 as (B3 & B3' & ->).
  apply write_Some_inv in W4 as (B4 & B4' & ->).
  apply write_Some_inv in W5 as (B5 & B5' & ->).
  simpl in *. pose proof (size_nonneg key). pose proof (size_nonneg val).
  unfold HEADER, MAX_KEY, MAX_VAL in *.
  unfold u16, wrap. rewrite !Z.mod_small by lia.
  assert (size (le16 (size key)) = 2) as S1 by done.
  assert (size (le16 (size val)) = 2) as S2 by done.
  assert (size (le32 (Index.hash key)) = 4) as S3 by done.
  split; [| split; [done | split; [done |]]].
  - unfold entry_at, HEADER, MAX_KEY, MAX_VAL. simpl.
    split; [done |]. split; [lia |]. split; [done |]. split; [done |].
    unfold u16, wrap in *. rewrite !Z.mod_small in * by lia.
    split; [| split; [| split; [| split]]].
    + rewrite !mem_load_store_disjoint by (unfold size in *; simpl; lia).
      apply (mem_load_store_same _ off (le16 (size key))).
    + rewrite !mem_load_store_disjoint by (unfold size in *; simpl; lia).
      apply (mem_load_store_same _ (off + 2) (le16 (size val))).
    + rewrite !mem_load_store_disjoint by (unfold size in *; simpl; lia).
      apply (mem_load_store_same _ (off + 4) (le32 (Index.hash key))).
    + rewrite !mem_load_store_disjoint by (unfold size in *; simpl; lia).
      apply mem_load_store_same.
    + apply mem_load_store_same.
  - intros x Hx. unfold u16, wrap in *. rewrite !Z.mod_small in * by lia.
    rewrite !mem_store_outside; [done | lia..].
Qed.

Lemma write_entry_Some a off h key val :
  0 <= off → off + HEADER + size key + size val <= Arena.size_ a →
  is_Some (Hyperion.write_entry a off h key val).
Proof.
  intros H1 H2. pose proof (size_nonneg key). pose proof (size_nonneg val).
  unfold HEADER in *.
  assert (∀ a off bs, 0 <= off → off + size bs <= Arena.size_ a →
            Arena.write a off bs = Some (Arena.mk (mem_store (Arena.base_ a) off bs) (Arena.size_ a) (Arena.offset_ a))) as W.
  { intros a0 off0 bs B1 B2. unfold Arena.write, Arena.in_bounds.
    by rewrite (proj2 (Z.leb_le _ _) B1), (proj2 (Z.leb_le _ _) B2). }
  unfold Hyperion.write_entry, HEADER.
  rewrite W by (change (size (le16 _)) with 2; lia). simpl.
  rewrite W by (change (size (le16 _)) with 2; simpl; lia). simpl.
  rewrite W by (change (size (le32 _)) with 4; simpl; lia). simpl.
  rewrite W by (simpl; lia). simpl.
  rewrite W by (simpl; lia). eauto.
Qed.

(** A record is determined by the bytes at its offset. *)
Lemma entry_at_inj a off key val key' val' :
  entry_at a off key val → entry_at a off key' val' → key = key' ∧ val = val'.
Proof.
  intros (_ & _ & Hk & Hv & E1 & E2 & _ & E4 & E5) (_ & _ & Hk' & Hv' & E1' & E2' & _ & E4' & E5').
  pose proof (size_nonneg key). pose proof (size_nonneg val).
  pose proof (size_nonneg key'). pose proof (size_nonneg val').
  unfold MAX_KEY, MAX_VAL in *.
  assert (size key = size key') as Hsk.
  { rewrite <- (le_val_le16 (size key)), <- (le_val_le16 (size key')) by lia.
    by rewrite <- E1, <- E1'. }
  assert (size val = size val') as Hsv.
  { rewrite <- (le_val_le16 (size val)), <- (le_val_le16 (size val')) by lia.
    by rewrite <- E2, <- E2'. }
  assert (length key = length key') as Hlk by (unfold size in Hsk; lia).
  assert (length val = length val') as Hlv by (unfold size in Hsv; lia).
  assert (key = key') as <- by (rewrite <- E4, <- E4', Hlk; done).
  split; [done |]. rewrite <- E5, <- E5', Hlv. done.
Qed.

(** A record survives any change of the arena outside its bytes. *)
Lemma entry_at_frame a a' off key val :
  entry_at a off key val →
  Arena.size_ a' = Arena.size_ a →
  (∀ x, off <= x < off + HEADER + size key + size val →
        Arena.base_ a' x = Arena.base_ a x) →
  entry_at a' off key val.
Proof.
  intros (H0 & Hb & Hk & Hv & E1 & E2 & E3 & E4 & E5) Hsz Hm.
  pose proof (size_nonneg key). pose proof (size_nonneg val).
  unfold HEADER in *.
  unfold entry_at, HEADER. rewrite Hsz.
  split; [done |]. split; [done |]. split; [done |]. split; [done |].
  split; [| split; [| split; [| split]]].
  - rewrite <- E1. apply mem_load_ext. intros x Hx. apply Hm. lia.
  - rewrite <- E2. apply mem_load_ext. intros x Hx. apply Hm. lia.
  - rewrite <- E3. apply mem_load_ext. intros x Hx. apply Hm. lia.
  - rewrite <- E4 at 2. apply mem_load_ext. intros x Hx. apply Hm. unfold size in *. lia.
  - rewrite <- E5 at 2. apply mem_load_ext. intros x Hx. apply Hm. unfold size in *. lia.
Qed.

(** On a slot that points at the record of [k], the comparison closure
    answers whether [k] is the key looked for. *)
Lemma key_eq_entry a key s k v :
  Slot.is_valid s = true → entry_at a (Slot.offset s) k v →
  Hyperion.key_eq a (Index.hash key) key s = Some (bool_decide (k = key)).
Proof.
  intros Hvalid (H0 & Hb & Hk & Hv & E1 & E2 & E3 & E4 & E5).
  pose proof (size_nonneg k). pose proof (size_nonneg v).
  pose proof (size_nonneg key).
  unfold HEADER, MAX_KEY, MAX_VAL in *.
  unfold Hyperion.key_eq. rewrite Hvalid. simpl.
  unfold Arena.read32. rewrite (read_Some a (Slot.offset s + 4) 4) by lia.
  change (Z.to_nat 4) with 4%nat. rewrite E3.
  cbn [fmap option_fmap option_map mbind option_bind].
  rewrite le_val_le32 by apply hash_range.
  destruct (Index.hash k =? Index.hash key) eqn:Hh; simpl.
  2:{ apply Z.eqb_neq in Hh. rewrite bool_decide_eq_false_2; [done |]. by intros ->. }
  unfold Arena.read16. rewrite (read_Some a (Slot.offset s) 2) by lia.
  change (Z.to_nat 2) with 2%nat. rewrite E1.
  cbn [fmap option_fmap option_map mbind option_bind].
  rewrite le_val_le16 by lia.
  destruct (size k =? size key) eqn:Hs; simpl.
  2:{ apply Z.eqb_neq in Hs. rewrite bool_decide_eq_false_2; [done |]. by intros ->. }
  apply Z.eqb_eq in Hs. unfold HEADER.
  rewrite read_Some by lia. simpl.
  replace (Z.to_nat (size key)) with (length k) by (unfold size in *; lia).
  by rewrite E4.
Qed.

(** Reading the value through the header, as [get] does. *)
Lemma read_value a off k v :
  entry_at a off k v →
  Arena.read16 a off = Some (size k) ∧ Arena.read16 a (off + 2) = Some (size v) ∧
  Arena.read a (off + HEADER + size k) (size v) = Some v.
Proof.
  intros (H0 & Hb & Hk & Hv & E1 & E2 & E3 & E4 & E5).
  pose proof (size_nonneg k). pose proof (size_nonneg v).
  unfold HEADER, MAX_KEY, MAX_VAL in *.
  unfold Arena.read16. rewrite !read_Some by lia.
  change (Z.to_nat 2) with 2%nat. rewrite E1, E2.
  cbn [fmap option_fmap option_map mbind option_bind].
  rewrite !le_val_le16 by lia.
  split; [done |]. split; [done |].
  replace (Z.to_nat (size v)) with (length v) by (unfold size; lia).
  by rewrite E5.
Qed.

(** ** The paths through [put], [get] and [del] *)

Lemma put_OK_inv key val st st' :
  Hyperion.put key val st = Some (OK, st') →
  size key <= MAX_KEY ∧ size val <= MAX_VAL ∧
  u32 (Arena.offset_ (Hyperion.arena_ st) + Hyperion.needed key val)
    <= Arena.size_ (Hyperion.arena_ st) ∧
  Z.land (SeqLock.seq_ (Hyperion.index_ st)) 1 = 0 ∧
  ∃ a2 r b ix',
    Hyperion.write_entry (advanced (Hyperion.arena_ st) (Hyperion.needed key val))
      (Arena.offset_ (Hyperion.arena_ st)) (Index.hash key) key val = Some a2 ∧
    Index.find (index st) (Index.hash key) (size key)
      (Hyperion.key_eq a2 (Index.hash key) key) = Some (r, b) ∧
    Index.update (index st) r (u8 (Index.hash key ≫ 24)) (u8 (size key))
      (u16 (size val)) (Arena.offset_ (Hyperion.arena_ st)) = Some ix' ∧
    st' = Hyperion.mk a2
            (SeqLock.mk (u64 (SeqLock.seq_ (Hyperion.index_ st) + 2)) ix').
Proof.
  unfold Hyperion.put, Arena.alloc, SeqLock.write. intros H.
  destruct (size key >? MAX_KEY) eqn:Ek; [done |].
  destruct (size val >? MAX_VAL) eqn:Ev; [done |].
  destruct (u32 _ >? _) eqn:Ea; [done |]. simpl in H.
  destruct (Hyperion.write_entry _ _ _ _ _) as [a2|] eqn:Ew; [|done].
  simpl in H.
  destruct (Z.land _ 1 =? 0) eqn:Es; [|done]. simpl in H.
  destruct (Index.find _ _ _ _) as [[r b]|] eqn:Ef; [|done]. simpl in H.
  destruct (Index.update _ _ _ _ _ _) as [ix'|] eqn:Eu; [|done]. simpl in H.
  injection H as <-.
  rewrite Z.gtb_ltb, Z.ltb_ge in Ek, Ev, Ea. apply Z.eqb_eq in Es.
  repeat split; try done. exists a2, r, b, ix'. done.
Qed.

Lemma put_ArenaFull_inv key val st st' :
  Hyperion.put key val st = Some (ArenaFull, st') →
  size key <= MAX_KEY ∧ size val <= MAX_VAL ∧
  Arena.size_ (Hyperion.arena_ st)
    < u32 (Arena.offset_ (Hyperion.arena_ st) + Hyperion.needed key val) ∧
  st' = Hyperion.mk (advanced (Hyperion.arena_ st) (Hyperion.needed key val))
                    (Hyperion.index_ st).
Proof.
  unfold Hyperion.put, Arena.alloc, SeqLock.write. intros H.
  destruct (size key >? MAX_KEY) eqn:Ek; [done |].
  destruct (size val >? MAX_VAL) eqn:Ev; [done |].
  destruct (u32 _ >? _) eqn:Ea.
  - injection H as <-. rewrite Z.gtb_ltb in Ea. apply Z.ltb_lt in Ea.
    rewrite Z.gtb_ltb, Z.ltb_ge in Ek, Ev. done.
  - simpl in H.
    destruct (Hyperion.write_entry _ _ _ _ _) as [a2|]; [|done]. simpl in H.
    destruct (Z.land _ 1 =? 0); [|done]. simpl in H.
    destruct (Index.find _ _ _ _) as [[r b]|]; [|done]. simpl in H.
    destruct (Index.update _ _ _ _ _ _) as [ix'|]; done.
Qed.

Lemma put_ArenaFull key val st :
  size key <= MAX_KEY → size val <= MAX_VAL →
  Arena.size_ (Hyperion.arena_ st)
    < u32 (Arena.offset_ (Hyperion.arena_ st) + Hyperion.needed key val) →
  Hyperion.put key val st =
  Some (ArenaFull,
        Hyperion.mk (advanced (Hyperion.arena_ st) (Hyperion.needed key val))
                    (Hyperion.index_ st)).
Proof.
  intros Hk Hv Ha. unfold Hyperion.put, Arena.alloc.
  rewrite Z.gtb_ltb, (proj2 (Z.ltb_ge _ _) Hk).
  rewrite Z.gtb_ltb, (proj2 (Z.ltb_ge _ _) Hv).
  rewrite Z.gtb_ltb, (proj2 (Z.ltb_lt _ _) Ha). done.
Qed.

(** [get] reads the arena through its contents and size only, never
    through the cursor. *)
Lemma get_cursor_irrelevant key out a n l :
  Hyperion.get key out (Hyperion.mk (advanced a n) l) =
  Hyperion.get key out (Hyperion.mk a l).
Proof. reflexivity. Qed.

Lemma del_cursor_irrelevant key a n l :
  Hyperion.del key (Hyperion.mk (advanced a n) l) =
  (λ '(s, st), (s, Hyperion.mk (advanced (Hyperion.arena_ st) n) (Hyperion.index_ st)))
    <$> Hyperion.del key (Hyperion.mk a l).
Proof.
  unfold Hyperion.del. simpl.
  change (Hyperion.key_eq (advanced a n)) with (Hyperion.key_eq a).
  destruct (SeqLock.write _ _) as [[l' []]|]; simpl; done.
Qed.

Lemma get_status key out st s out' :
  Hyperion.get key out st = Some (s, out') → s = OK ∨ (s = NotFound ∧ out' = out).
Proof.
  unfold Hyperion.get, Hyperion.get_body, SeqLock.read. intros H.
  destruct (Z.odd _); [done |].
  destruct (Index.find _ _ _ _) as [[r [|]]|]; simpl in H; [| |done].
  - destruct (Index.at_ _ _) as [s0|]; [|done]. simpl in H.
    destruct (Arena.read16 _ (Slot.offset s0)) as [kl|]; [|done]. simpl in H.
    destruct (Arena.read16 _ _) as [vl|]; [|done]. simpl in H.
    destruct (Arena.read _ _ _) as [v|]; [|done]. simpl in H.
    injection H as <- <-. by left.
  - injection H as <- <-. by right.
Qed.

Lemma lock_idle_flags {T} (l : SeqLock.t T) :
  lock_idle l → Z.odd (SeqLock.seq_ l) = false ∧ Z.land (SeqLock.seq_ l) 1 = 0.
Proof.
  intros [Hr He]. split.
  - by rewrite <- Z.negb_even, He.
  - change 1 with (Z.ones 1). rewrite Z.land_ones by lia.
    change (2 ^ 1) with 2. rewrite Zmod_even, He. done.
Qed.

Lemma land_1_even s : Z.land s 1 = 0 → Z.even s = true.
Proof.
  change 1 with (Z.ones 1). rewrite Z.land_ones by lia.
  change (2 ^ 1) with 2. rewrite Zmod_even. by destruct (Z.even s).
Qed.

Lemma lock_idle_bump {T} (s : Z) (d : T) :
  Z.even s = true → lock_idle (SeqLock.mk (u64 (s + 2)) d).
Proof.
  intros He. unfold lock_idle, u64, wrap. simpl. split.
  - apply Z.mod_pos_bound. lia.
  - rewrite Zeven_mod.
    rewrite Z.mod_mod_divide by (by exists (2 ^ 63)).
    rewrite <- Zeven_mod. rewrite Z.even_add, He. done.
Qed.

(** ** Writing a slot and probing again *)

Lemma update_inv ix r tag klen vlen off ix' :
  Index.update ix r tag klen vlen off = Some ix' →
  ix' = with_slot ix r (Slot.mk tag klen vlen off 0).
Proof. unfold Index.update. case_bool_decide; [|done]. by intros [= <-]. Qed.

Lemma tombstone_at_inv ix r ix' :
  Index.tombstone_at ix r = Some ix' →
  ∃ s, Index.at_ ix r = Some s ∧ ix' = with_slot ix r (Slot.make_tombstone s).
Proof.
  unfold Index.tombstone_at. destruct (Index.at_ ix r) as [s|]; [|done].
  simpl. intros [= <-]. eauto.
Qed.

Lemma at_with_slot_eq ix r s :
  0 <= r < Index.capacity_ ix → index_wf ix →
  Index.at_ (with_slot ix r s) r = Some s.
Proof.
  intros Hr (_ & _ & Hlen & _). unfold Index.at_, with_slot. simpl.
  apply list_lookup_insert_eq. lia.
Qed.

Lemma at_with_slot_ne ix r s j :
  0 <= r → 0 <= j → j ≠ r →
  Index.at_ (with_slot ix r s) j = Index.at_ ix j.
Proof.
  intros Hr Hj Hne. unfold Index.at_, with_slot. simpl.
  apply list_lookup_insert_ne. lia.
Qed.

Lemma with_slot_wf ix r s :
  index_wf ix → slot_wf s → index_wf (with_slot ix r s).
Proof.
  intros (Hc & Hm & Hlen & Hall) Hs. unfold with_slot.
  split; [done |]. split; [done |]. simpl.
  split; [by rewrite length_insert |].
  destruct (decide (Z.to_nat r < length (Index.slots_ ix))%nat).
  - apply Forall_insert; done.
  - rewrite list_insert_ge by lia. done.
Qed.

Lemma probe_with_slot ix r s start i :
  probe (with_slot ix r s) start i = probe ix start i.
Proof. done. Qed.

Lemma passed_not_matches tag klen eq s :
  passed tag klen eq s → matches tag klen eq s → False.
Proof.
  intros (_ & [Ht | [Hp | He]]) (_ & Ht' & Hp' & He'); congruence.
Qed.

(** After [update] has written a matching slot at the index that [find]
    returned, the same [find] returns that index with [found = true]. *)
Lemma find_after_update ix h klen eq r b s :
  index_wf ix → slot_wf s → 0 <= h →
  Index.find ix h klen eq = Some (r, b) →
  matches (u8 (h ≫ 24)) klen eq s →
  Index.find (with_slot ix r s) h klen eq = Some (r, true).
Proof.
  intros Hwf Hs Hh Hf Hm.
  pose proof (find_result_range _ _ _ _ _ _ Hwf Hh Hf) as Hr.
  pose proof (with_slot_wf ix r s Hwf Hs) as Hwf'.
  pose proof (capacity_bounds ix Hwf) as Hc.
  unfold Index.find in *. simpl.
  rewrite land_mask in Hf by done.
  rewrite land_mask by done.
  set (start := h mod Index.capacity_ ix) in *.
  assert (0 <= start < Index.capacity_ ix) as Hstart by (apply Z.mod_pos_bound; lia).
  set (tag := u8 (h ≫ 24)) in *.
  change (Index.mask_ (with_slot ix r s)) with (Index.mask_ ix).
  change (Index.capacity_ (with_slot ix r s)) with (Index.capacity_ ix) in *.
  (* stepping over slots other than [r] is the same in both indexes *)
  assert (∀ m, stepped ix tag klen eq start m →
               (∀ i, (i < m)%nat → probe ix start i ≠ r) →
               stepped (with_slot ix r s) tag klen eq start m) as Hkeep.
  { intros m Hst Hne i Hi. rewrite probe_with_slot.
    rewrite at_with_slot_ne; [by apply Hst | lia | apply probe_range; done | by apply Hne]. }
  assert (∀ m, (m < Z.to_nat (Index.capacity_ ix))%nat → r = probe ix start m →
               stepped (with_slot ix r s) tag klen eq start m →
               Index.find_loop (with_slot ix r s) tag klen eq
                 (Z.to_nat (Index.capacity_ ix)) start UINT32_MAX = Some (r, true)) as Hgo.
  { intros m Hlt -> Hst.
    rewrite <- (probe_with_slot ix (probe ix start m) s start m) at 2.
    eapply (find_loop_found _ Hwf'); try done.
    rewrite probe_with_slot. by apply at_with_slot_eq. }
  apply find_loop_inv in Hf; [| done | done].
  destruct b.
  - destruct Hf as (m & Hlt & Hst & -> & s0 & Hs0 & Hm0).
    apply (Hgo m); [done | done |]. apply Hkeep; [done |].
    intros i Hi Heq. destruct (Hst i Hi) as (si & Hsi & Hpi).
    rewrite Heq in Hsi. simplify_eq. by eapply passed_not_matches.
  - destruct Hf as (m & Hle & Hst & Hend & [[Hne _] | [_ Hrec]]); [done |].
    destruct Hrec as [(t & Ht & -> & (st & Hst1 & Hst2) & Hbefore) | [-> Hbefore]].
    + apply (Hgo t); [lia | done |]. apply Hkeep.
      * intros i Hi. apply Hst. lia.
      * intros i Hi Heq. destruct (Hbefore i Hi) as (si & Hsi & Hti).
        rewrite Heq in Hsi. simplify_eq. congruence.
    + destruct (decide (m < Z.to_nat (Index.capacity_ ix))%nat) as [Hlt | Hge].
      * apply (Hgo m); [done | done |]. apply Hkeep; [done |].
        intros i Hi Heq. destruct (Hst i Hi) as (si & Hsi & Hei & _).
        destruct (Hend Hlt) as (se & Hse & Hee).
        rewrite Heq in Hsi. simplify_eq. congruence.
      * assert (m = Z.to_nat (Index.capacity_ ix)) as -> by lia.
        apply (Hgo 0%nat); [lia | | intros i Hi; lia].
        rewrite probe_full, probe_0 by done. done.
Qed.

(** ** Round trip *)

#[local] Arguments wrap : simpl never.
#[local] Arguments Z.shiftr : simpl never.
#[local] Arguments Index.hash : simpl never.

Lemma u8_small x : 0 <= x < 2 ^ 8 → u8 x = x.
Proof. apply Z.mod_small. Qed.
Lemma u16_small x : 0 <= x < 2 ^ 16 → u16 x = x.
Proof. apply Z.mod_small. Qed.
Lemma u32_small x : 0 <= x < 2 ^ 32 → u32 x = x.
Proof. apply Z.mod_small. Qed.

Lemma hash_tag_small key : u8 (Index.hash key ≫ 24) = Index.hash key ≫ 24.
Proof.
  pose proof (hash_range key) as Hh. apply u8_small.
  rewrite Z.shiftr_div_pow2 by lia. split.
  - apply Z.div_pos; lia.
  - apply Z.div_lt_upper_bound; [lia |]. change (2 ^ 24 * 2 ^ 8) with (2 ^ 32). lia.
Qed.

Lemma new_slot_facts a key val off :
  Arena.size_ a < 2 ^ 32 → entry_at a off key val →
  let s := new_slot key val off in
  slot_wf s ∧ Slot.is_valid s = true ∧
  matches (u8 (Index.hash key ≫ 24)) (size key)
          (Hyperion.key_eq a (Index.hash key) key) s.
Proof.
  intros Hsz He. pose proof He as (H0 & Hb & Hk & Hv & _).
  pose proof (size_nonneg key). pose proof (size_nonneg val).
  unfold HEADER, MAX_KEY, MAX_VAL in *.
  assert (Slot.is_valid (new_slot key val off) = true) as Hvalid.
  { unfold Slot.is_valid, Slot.OFF_TOMB, new_slot, Slot.offset. apply Z.ltb_lt. lia. }
  cbv zeta. split; [| split; [done |]].
  - unfold slot_wf, new_slot, Slot.hash_tag, Slot.key_len, Slot.val_len,
      Slot.offset, Slot._padding.
    split; [apply Z.mod_pos_bound; lia |]. split; [apply Z.mod_pos_bound; lia |].
    split; [apply Z.mod_pos_bound; lia |]. lia.
  - split; [| split; [| split]].
    + unfold Slot.is_empty, Slot.OFF_EMPTY, new_slot, Slot.offset. apply Z.eqb_neq. lia.
    + unfold Slot.is_tombstone, Slot.OFF_TOMB, new_slot, Slot.offset. apply Z.eqb_neq. lia.
    + unfold prefilter, new_slot, Slot.hash_tag, Slot.key_len.
      rewrite (u8_small (size key)) by lia.
      by rewrite !Z.eqb_refl.
    + rewrite (key_eq_entry a key _ key val Hvalid He).
      by rewrite bool_decide_eq_true_2.
Qed.

Lemma bump_not_odd s : Z.land s 1 = 0 → Z.odd (u64 (s + 2)) = false.
Proof.
  intros Hs.
  apply (lock_idle_flags (SeqLock.mk (u64 (s + 2)) ())).
  apply lock_idle_bump. by apply land_1_even.
Qed.

(** P1, for every well-formed state. *)
Lemma put_get key val out st st' :
  store_wf st →
  Hyperion.put key val st = Some (OK, st') →
  Hyperion.get key out st' = Some (OK, val).
Proof.
  intros (Ha & Hl & Hix) Hput.
  apply put_OK_inv in Hput as (Hk & Hv & Hfit & Hseq & a2 & r & b & ix' & Hw & Hf & Hu & ->).
  apply write_entry_inv in Hw as (He & Hsz & _); [| done | done].
  simpl in Hsz.
  apply update_inv in Hu as ->. fold (new_slot key val (Arena.offset_ (Hyperion.arena_ st))).
  destruct (new_slot_facts a2 key val _ ltac:(rewrite Hsz; apply Ha) He) as (Hswf & Hvalid & Hm).
  pose proof (hash_range key) as Hh.
  pose proof (find_result_range _ _ _ _ _ _ Hix (proj1 Hh) Hf) as Hr.
  pose proof (find_after_update _ _ _ _ _ _ _ Hix Hswf (proj1 Hh) Hf Hm) as Hf'.
  destruct (read_value _ _ _ _ He) as (R1 & R2 & R3).
  unfold Hyperion.get, Hyperion.get_body, SeqLock.read. simpl.
  rewrite (bump_not_odd _ Hseq).
  rewrite Hf'. simpl. rewrite at_with_slot_eq by done. simpl.
  rewrite R1. simpl. rewrite R2. simpl. rewrite R3. done.
Qed.

Lemma del_inv key st s st' :
  Hyperion.del key st = Some (s, st') →
  Z.land (SeqLock.seq_ (Hyperion.index_ st)) 1 = 0 ∧
  ∃ r b,
    Index.find (index st) (Index.hash key) (size key)
      (Hyperion.key_eq (Hyperion.arena_ st) (Index.hash key) key) = Some (r, b) ∧
    if b then
      s = OK ∧ ∃ s0, Index.at_ (index st) r = Some s0 ∧
        st' = bumped st (with_slot (index st) r (Slot.make_tombstone s0))
    else s = NotFound ∧ st' = bumped st (index st).
Proof.
  unfold Hyperion.del, SeqLock.write. intros H.
  destruct (Z.land _ 1 =? 0) eqn:Es; [|done]. simpl in H. apply Z.eqb_eq in Es.
  split; [done |].
  destruct (Index.find _ _ _ _) as [[r b]|] eqn:Ef; [|done]. simpl in H.
  exists r, b. split; [done |]. destruct b.
  - destruct (Index.tombstone_at _ _) as [ix'|] eqn:Et; [|done]. simpl in H.
    injection H as <- <-. split; [done |].
    apply tombstone_at_inv in Et as (s0 & Hs0 & ->). eauto.
  - simpl in H. injection H as <- <-. done.
Qed.

Lemma del_run key st r b :
  Z.land (SeqLock.seq_ (Hyperion.index_ st)) 1 = 0 →
  Index.find (index st) (Index.hash key) (size key)
    (Hyperion.key_eq (Hyperion.arena_ st) (Index.hash key) key) = Some (r, b) →
  Hyperion.del key st =
  if b then
    s0 ← Index.at_ (index st) r;
    Some (OK, bumped st (with_slot (index st) r (Slot.make_tombstone s0)))
  else Some (NotFound, bumped st (index st)).
Proof.
  intros Hs Hf. unfold Hyperion.del, SeqLock.write.
  rewrite Hs. simpl. unfold index in Hf. rewrite Hf. simpl.
  destruct b; [|done].
  unfold Index.tombstone_at, index. destruct (Index.at_ _ r); done.
Qed.

Lemma get_run key out st r b :
  Z.odd (SeqLock.seq_ (Hyperion.index_ st)) = false →
  Index.find (index st) (Index.hash key) (size key)
    (Hyperion.key_eq (Hyperion.arena_ st) (Index.hash key) key) = Some (r, b) →
  Hyperion.get key out st =
  if b then
    s ← Index.at_ (index st) r;
    e_klen ← Arena.read16 (Hyperion.arena_ st) (Slot.offset s);
    e_vlen ← Arena.read16 (Hyperion.arena_ st) (Slot.offset s + 2);
    v ← Arena.read (Hyperion.arena_ st) (Slot.offset s + HEADER + e_klen) e_vlen;
    Some (OK, v)
  else Some (NotFound, out).
Proof.
  intros Hs Hf. unfold Hyperion.get, Hyperion.get_body, SeqLock.read.
  rewrite Hs. unfold index in Hf. rewrite Hf. simpl.
  destruct b; [|done]. unfold index.
  destruct (Index.at_ _ r); [|done]. simpl.
  destruct (Arena.read16 _ (Slot.offset t)); [|done]. simpl.
  destruct (Arena.read16 _ _); [|done]. simpl.
  destruct (Arena.read _ _ _); done.
Qed.

(** ** Well-formedness is kept by every operation *)

Lemma tombstone_wf s : slot_wf s → slot_wf (Slot.make_tombstone s).
Proof.
  intros (H1 & H2 & H3 & H4 & H5). unfold slot_wf, Slot.make_tombstone, Slot.OFF_TOMB. simpl.
  repeat split; lia.
Qed.

Lemma u32_range x : 0 <= u32 x < 2 ^ 32.
Proof. apply Z.mod_pos_bound. lia. Qed.

(** The statuses of [put]: a rejected key or value leaves the state as
    it is, and [NotFound] is never returned. *)
Lemma put_rejected key val st s st' :
  Hyperion.put key val st = Some (s, st') →
  s ≠ OK → s ≠ ArenaFull →
  (s = KeyTooLong ∨ s = ValTooLong) ∧ st' = st.
Proof.
  unfold Hyperion.put, Arena.alloc, SeqLock.write. intros H H1 H2.
  destruct (size key >? MAX_KEY); [injection H as <- <-; auto |].
  destruct (size val >? MAX_VAL); [injection H as <- <-; auto |].
  destruct (u32 _ >? _); [injection H as <- <-; done |]. simpl in H.
  destruct (Hyperion.write_entry _ _ _ _ _) as [a2|]; [|done]. simpl in H.
  destruct (Z.land _ 1 =? 0); [|done]. simpl in H.
  destruct (Index.find _ _ _ _) as [[r b]|]; [|done]. simpl in H.
  destruct (Index.update _ _ _ _ _ _) as [ix'|]; [|done]. simpl in H.
  injection H as <- <-. done.
Qed.

Lemma put_wf key val st s st' :
  store_wf st → Hyperion.put key val st = Some (s, st') → store_wf st'.
Proof.
  intros (Ha & Hl & Hix) Hput. destruct s.
  - apply put_OK_inv in Hput as (Hk & Hv & Hfit & Hseq & a2 & r & b & ix' & Hw & Hf & Hu & ->).
    apply write_entry_inv in Hw as (He & Hsz & Hoff & _); [| done | done].
    simpl in Hsz, Hoff. apply update_inv in Hu as ->.
    destruct (new_slot_facts a2 key val _ ltac:(rewrite Hsz; apply Ha) He) as (Hswf & _).
    split; [| split].
    + simpl. unfold arena_wf. rewrite Hsz, Hoff. split; [apply Ha | apply u32_range].
    + apply lock_idle_bump. by apply land_1_even.
    + by apply with_slot_wf.
  - apply put_rejected in Hput as (_ & ->); done.
  - apply put_rejected in Hput as (_ & ->); done.
  - apply put_ArenaFull_inv in Hput as (_ & _ & _ & ->).
    split; [| done]. simpl. split; [apply Ha | apply u32_range].
  - apply put_rejected in Hput as (_ & ->); done.
Qed.

Lemma del_wf key st s st' :
  store_wf st → Hyperion.del key st = Some (s, st') → store_wf st'.
Proof.
  intros (Ha & Hl & Hix) Hdel.
  apply del_inv in Hdel as (Hseq & r & b & Hf & Hcase).
  pose proof (land_1_even _ Hseq) as Hev.
  destruct b.
  - destruct Hcase as (-> & s0 & Hs0 & ->).
    split; [done |]. split; [by apply lock_idle_bump |].
    apply with_slot_wf; [done |]. apply tombstone_wf.
    destruct Hix as (_ & _ & _ & Hall). rewrite Forall_lookup in Hall. by eapply Hall.
  - destruct Hcase as (-> & ->). split; [done |]. split; [by apply lock_idle_bump | done].
Qed.

(** ** Counting used slots *)

Lemma used_with_slot ix r s s0 :
  0 <= r → Index.at_ ix r = Some s0 →
  Slot.is_empty s = Slot.is_empty s0 →
  used (with_slot ix r s) = used ix.
Proof.
  unfold used, with_slot, Index.at_. simpl. intros _.
  generalize (Z.to_nat r). generalize (Index.slots_ ix). clear ix r.
  intros l. induction l as [|x l IH]; intros [|n] Hl He; simplify_eq/=.
  - rewrite He. by destruct (Slot.is_empty s0).
  - destruct (negb (Slot.is_empty x)); simpl; by rewrite (IH n).
Qed.

(** ** Tombstones *)

Lemma tombstone_not_empty s : Slot.is_tombstone s = true → Slot.is_empty s = false.
Proof.
  unfold Slot.is_tombstone, Slot.is_empty, Slot.OFF_TOMB, Slot.OFF_EMPTY.
  intros H%Z.eqb_eq. apply Z.eqb_neq. lia.
Qed.

Lemma valid_not_empty s : Slot.is_valid s = true → Slot.is_empty s = false.
Proof.
  unfold Slot.is_valid, Slot.is_empty, Slot.OFF_TOMB, Slot.OFF_EMPTY.
  intros H%Z.ltb_lt. apply Z.eqb_neq. lia.
Qed.

Lemma valid_not_tombstone s : Slot.is_valid s = true → Slot.is_tombstone s = false.
Proof.
  unfold Slot.is_valid, Slot.is_tombstone, Slot.OFF_TOMB.
  intros H%Z.ltb_lt. apply Z.eqb_neq. lia.
Qed.

Lemma live_valid s :
  slot_wf s → Slot.is_empty s = false → Slot.is_tombstone s = false →
  Slot.is_valid s = true.
Proof.
  unfold Slot.is_valid, Slot.is_empty, Slot.is_tombstone, Slot.OFF_TOMB, Slot.OFF_EMPTY.
  intros (_ & _ & _ & Ho & _) He%Z.eqb_neq Ht%Z.eqb_neq. apply Z.ltb_lt.
  change (2 ^ 32) with 4294967296 in Ho. lia.
Qed.

(** [found = true] is reported at a slot that passed every test. *)
Lemma find_true_matches ix h klen eq r :
  index_wf ix → 0 <= h →
  Index.find ix h klen eq = Some (r, true) →
  ∃ s, Index.at_ ix r = Some s ∧ matches (u8 (h ≫ 24)) klen eq s.
Proof.
  intros Hwf Hh Hf. pose proof (capacity_bounds ix Hwf) as Hc.
  unfold Index.find in Hf. rewrite land_mask in Hf by done.
  apply find_loop_inv in Hf; [| done | apply Z.mod_pos_bound; lia].
  destruct Hf as (m & _ & _ & _ & Hs). done.
Qed.

(** After a delete that found the key, the next probe for it ends on a
    slot that is not EMPTY. *)
Lemma find_after_tombstone ix h klen eq1 eq2 rD s0 r b :
  index_wf ix → 0 <= h →
  Index.find ix h klen eq1 = Some (rD, true) →
  Index.at_ ix rD = Some s0 →
  Index.find (with_slot ix rD (Slot.make_tombstone s0)) h klen eq2 = Some (r, b) →
  ∃ s, Index.at_ (with_slot ix rD (Slot.make_tombstone s0)) r = Some s ∧
       Slot.is_empty s = false.
Proof.
  intros Hwf Hh HD Hs0 HP.
  pose proof (capacity_bounds ix Hwf) as Hc.
  assert (slot_wf s0) as Hs0wf.
  { destruct Hwf as (_ & _ & _ & Hall). rewrite Forall_lookup in Hall. by eapply Hall. }
  pose proof (with_slot_wf ix rD _ Hwf (tombstone_wf s0 Hs0wf)) as Hwf2.
  pose proof (find_result_range _ _ _ _ _ _ Hwf Hh HD) as HrD.
  set (ix2 := with_slot ix rD (Slot.make_tombstone s0)) in *.
  unfold Index.find in HD, HP.
  change (Index.mask_ ix2) with (Index.mask_ ix) in HP.
  change (Index.capacity_ ix2) with (Index.capacity_ ix) in HP.
  rewrite land_mask in HD, HP by done.
  set (start := h mod Index.capacity_ ix) in *.
  assert (0 <= start < Index.capacity_ ix) as Hstart by (apply Z.mod_pos_bound; lia).
  apply find_loop_inv in HD; [| done | done].
  apply find_loop_inv in HP; [| done | done].
  destruct HD as (mD & HmD & HstD & -> & sD & HsD & HmatchD).
  (* every probe up to the deleted slot is not EMPTY in the new index *)
  assert (∀ i, (i <= mD)%nat →
            ∃ s, Index.at_ ix2 (probe ix start i) = Some s ∧ Slot.is_empty s = false) as Hne.
  { intros i Hi. destruct (decide (probe ix start i = probe ix start mD)) as [E | E].
    - rewrite E. exists (Slot.make_tombstone s0). split; [by apply at_with_slot_eq | done].
    - destruct (HstD i) as (s & Hs & He & _).
      { destruct (decide (i = mD)); [by subst | lia]. }
      exists s. split; [| done].
      unfold ix2. rewrite at_with_slot_ne; [done | lia | apply probe_range; done | done]. }
  assert (Index.at_ ix2 (probe ix start mD) = Some (Slot.make_tombstone s0)) as Htomb
    by (by apply at_with_slot_eq).
  destruct b.
  - destruct HP as (m & _ & _ & -> & s & Hs & He & _). eauto.
  - destruct HP as (m & Hm & Hst & Hend & [[Hne' _] | [_ Hrec]]); [done |].
    destruct Hrec as [(t & Ht & -> & (s & Hs1 & Hs2) & _) | [-> Hnotomb]].
    + exists s. split; [done |]. by apply tombstone_not_empty.
    + exfalso. destruct (decide (mD < m)%nat) as [Hlt | Hge].
      * destruct (Hnotomb mD Hlt) as (s & Hs & Ht).
        change (probe ix2 start mD) with (probe ix start mD) in Hs.
        rewrite Htomb in Hs. by injection Hs as <-.
      * destruct Hend as (s & Hs & He); [lia |].
        destruct (Hne m ltac:(lia)) as (s' & Hs' & He').
        change (probe ix2 start m) with (probe ix start m) in Hs.
        rewrite Hs in Hs'. injection Hs' as <-. congruence.
Qed.

(** P4: put, delete, put of one key. *)
Lemma put_del_put key v v' out st st1 st2 st3 :
  store_wf st →
  Hyperion.put key v st = Some (OK, st1) →
  Hyperion.del key st1 = Some (OK, st2) →
  Hyperion.put key v' st2 = Some (OK, st3) →
  Hyperion.get key out st3 = Some (OK, v') ∧
  used (index st3) = used (index st1).
Proof.
  intros Hwf H1 H2 H3.
  pose proof (put_wf _ _ _ _ _ Hwf H1) as Hwf1.
  pose proof (del_wf _ _ _ _ Hwf1 H2) as Hwf2.
  split; [by eapply put_get |].
  apply del_inv in H2 as (_ & rD & b & HfD & Hcase).
  destruct b; [| by destruct Hcase]. destruct Hcase as (_ & s0 & Hs0 & ->).
  apply put_OK_inv in H3 as (Hk & Hv & _ & _ & a3 & r & b & ix' & Hw & HfP & Hu & ->).
  apply write_entry_inv in Hw as (He3 & Hsz3 & _); [| done | done].
  destruct (new_slot_facts a3 key v' _ ltac:(rewrite Hsz3; apply Hwf2) He3)
    as (_ & _ & Hnew & _).
  apply update_inv in Hu as ->. simpl in HfP.
  change (index (bumped st1 ?i)) with i in HfP.
  unfold index at 1. simpl.
  destruct Hwf1 as (_ & _ & Hix1).
  pose proof (hash_range key) as Hh.
  destruct (find_after_tombstone _ _ _ _ _ _ _ _ _ Hix1 (proj1 Hh) HfD Hs0 HfP) as (s & Hs & He).
  pose proof (find_result_range _ _ _ _ _ _ Hix1 (proj1 Hh) HfD) as HrD.
  assert (0 <= r) as Hr.
  { destruct Hwf2 as (_ & _ & Hix2).
    apply (find_result_range _ _ _ _ _ _ Hix2 (proj1 Hh)) in HfP. lia. }
  erewrite used_with_slot; [| done | done |].
  - change (index (bumped st1 ?i)) with i.
    erewrite used_with_slot; [done | lia | done |].
    destruct (find_true_matches _ _ _ _ _ Hix1 (proj1 Hh) HfD) as (s1 & Hs1 & Hemp & _).
    rewrite Hs0 in Hs1. injection Hs1 as <-. by rewrite Hemp.
  - rewrite He. apply Hnew.
Qed.

(** ** Lookups in a state that satisfies I1 *)

Lemma matches_entry a key s :
  slot_wf s → slot_ok a s →
  matches (u8 (Index.hash key ≫ 24)) (size key)
          (Hyperion.key_eq a (Index.hash key) key) s →
  Slot.is_valid s = true ∧ ∃ v, entry_at a (Slot.offset s) key v.
Proof.
  intros Hwf Hok (He & Ht & _ & Heq).
  pose proof (live_valid s Hwf He Ht) as Hvalid. split; [done |].
  destruct (Hok Hvalid) as (k & v & Hentry & _).
  rewrite (key_eq_entry a key s k v Hvalid Hentry) in Heq.
  injection Heq as Heq. apply bool_decide_eq_true in Heq as ->. eauto.
Qed.

Lemma entry_matches a key v s :
  slot_ok a s → Slot.is_valid s = true → entry_at a (Slot.offset s) key v →
  matches (u8 (Index.hash key ≫ 24)) (size key)
          (Hyperion.key_eq a (Index.hash key) key) s.
Proof.
  intros Hok Hvalid Hentry.
  destruct (Hok Hvalid) as (k & v0 & Hentry0 & Htag & Hlen & _).
  destruct (entry_at_inj _ _ _ _ _ _ Hentry0 Hentry) as [-> ->].
  split; [by apply valid_not_empty |]. split; [by apply valid_not_tombstone |].
  split.
  - unfold prefilter. rewrite hash_tag_small, Htag, Hlen, !Z.eqb_refl. done.
  - rewrite (key_eq_entry a key s key v Hvalid Hentry). by rewrite bool_decide_eq_true_2.
Qed.

Section Lookup.
Variable st : Hyperion.t.
Hypothesis Hwf : store_wf st.
Hypothesis Hrec : records_ok st.

Lemma slot_facts j s :
  Index.at_ (index st) j = Some s → slot_wf s ∧ slot_ok (Hyperion.arena_ st) s.
Proof.
  intros Hs. destruct Hwf as (_ & _ & _ & _ & _ & Hall).
  unfold records_ok in Hrec. rewrite Forall_lookup in Hall, Hrec.
  split; [by eapply Hall | by eapply Hrec].
Qed.

Lemma find_defined key :
  ∃ r b, Index.find (index st) (Index.hash key) (size key)
           (Hyperion.key_eq (Hyperion.arena_ st) (Index.hash key) key) = Some (r, b).
Proof.
  destruct Hwf as (_ & _ & Hix). pose proof (capacity_bounds _ Hix) as Hc.
  pose proof (hash_range key) as Hh.
  unfold Index.find. rewrite land_mask by (done || lia).
  destruct (find_loop_total (index st) Hix (u8 (Index.hash key ≫ 24)) (size key)
              (Hyperion.key_eq (Hyperion.arena_ st) (Index.hash key) key)
              (Z.to_nat (Index.capacity_ (index st)))
              (Index.hash key mod Index.capacity_ (index st)) UINT32_MAX) as [[r b] Hf].
  - apply Z.mod_pos_bound. lia.
  - intros s Hin He Ht _. apply list_elem_of_lookup in Hin as [i Hi].
    assert (Index.at_ (index st) (Z.of_nat i) = Some s) as Hs
      by (unfold Index.at_; by rewrite Nat2Z.id).
    destruct (slot_facts _ _ Hs) as (Hswf & Hok).
    pose proof (live_valid s Hswf He Ht) as Hvalid.
    destruct (Hok Hvalid) as (k & v & Hentry & _).
    rewrite (key_eq_entry _ key s k v Hvalid Hentry). eauto.
  - eauto.
Qed.

Lemma find_true_holds key r :
  Index.find (index st) (Index.hash key) (size key)
    (Hyperion.key_eq (Hyperion.arena_ st) (Index.hash key) key) = Some (r, true) →
  ∃ v, holds st r key v.
Proof.
  intros Hf. destruct Hwf as (_ & _ & Hix).
  pose proof (hash_range key) as Hh.
  pose proof (find_result_range _ _ _ _ _ _ Hix (proj1 Hh) Hf) as Hr.
  destruct (find_true_matches _ _ _ _ _ Hix (proj1 Hh) Hf) as (s & Hs & Hm).
  destruct (slot_facts _ _ Hs) as (Hswf & Hok).
  destruct (matches_entry _ _ _ Hswf Hok Hm) as (Hvalid & v & Hentry).
  exists v. split; [lia |]. eauto.
Qed.

(** With the probe chains intact, a key that [find] does not find is
    in no slot. *)
Lemma find_false_absent key r :
  chain_ok st →
  Index.find (index st) (Index.hash key) (size key)
    (Hyperion.key_eq (Hyperion.arena_ st) (Index.hash key) key) = Some (r, false) →
  ∀ j v, ¬ holds st j key v.
Proof.
  intros Hchain Hf j v Hholds.
  destruct Hwf as (_ & _ & Hix). pose proof (capacity_bounds _ Hix) as Hc.
  pose proof (hash_range key) as Hh.
  destruct (Hchain j key v Hholds) as (d & Hd & Hj & Hpath).
  destruct Hholds as (Hj0 & s & Hs & Hvalid & Hentry).
  destruct (slot_facts _ _ Hs) as (Hswf & Hok).
  pose proof (entry_matches _ _ _ _ Hok Hvalid Hentry) as Hm.
  unfold Index.find in Hf. fold (home (index st) key) in Hf.
  assert (0 <= home (index st) key < Index.capacity_ (index st)) as Hhome.
  { unfold home. rewrite land_mask by (done || lia). apply Z.mod_pos_bound. lia. }
  apply find_loop_inv in Hf; [| done | done].
  destruct Hf as (m & Hm' & Hst & Hend & _).
  destruct (decide (d < m)%nat) as [Hlt | Hge].
  - destruct (Hst d Hlt) as (s' & Hs' & Hpass).
    rewrite Hj, Hs in Hs'. injection Hs' as <-. by eapply passed_not_matches.
  - destruct Hend as (se & Hse & Hee); [lia |].
    destruct (decide (d = m)) as [-> | Hne].
    + rewrite Hj, Hs in Hse. injection Hse as <-.
      apply valid_not_empty in Hvalid. congruence.
    + destruct (Hpath m ltac:(lia)) as (s' & Hs' & He').
      rewrite Hse in Hs'. injection Hs' as <-. congruence.
Qed.

Lemma get_holds key out r v :
  Index.find (index st) (Index.hash key) (size key)
    (Hyperion.key_eq (Hyperion.arena_ st) (Index.hash key) key) = Some (r, true) →
  holds st r key v →
  Hyperion.get key out st = Some (OK, v).
Proof.
  intros Hf (_ & s & Hs & _ & Hentry).
  destruct Hwf as (_ & Hl & _). destruct (lock_idle_flags _ Hl) as (Hodd & _).
  rewrite (get_run key out st r true Hodd Hf). rewrite Hs. simpl.
  destruct (read_value _ _ _ _ Hentry) as (-> & -> & R3). simpl.
  rewrite R3. done.
Qed.

(** What [get] returns, in terms of the records the slots point at. *)
Lemma get_spec key out :
  chain_ok st → unique_ok st →
  (∃ r v, holds st r key v ∧ Hyperion.get key out st = Some (OK, v)) ∨
  ((∀ j v, ¬ holds st j key v) ∧ Hyperion.get key out st = Some (NotFound, out)).
Proof.
  intros Hchain Huniq. destruct (find_defined key) as (r & [|] & Hf).
  - left. destruct (find_true_holds _ _ Hf) as (v & Hv).
    exists r, v. split; [done |]. by eapply get_holds.
  - right. split; [by eapply find_false_absent |].
    destruct Hwf as (_ & Hl & _). destruct (lock_idle_flags _ Hl) as (Hodd & _).
    by rewrite (get_run key out st r false Hodd Hf).
Qed.
End Lookup.

(** Two states with the same records for [key] answer [get key] alike. *)
Lemma get_same_records key out st st' :
  store_inv st → store_inv st' →
  (∀ v, (∃ j, holds st j key v) ↔ (∃ j, holds st' j key v)) →
  Hyperion.get key out st' = Hyperion.get key out st.
Proof.
  intros (Hwf & _ & Hrec & Hch & Hun) (Hwf' & _ & Hrec' & Hch' & Hun') Hsame.
  destruct (get_spec st Hwf Hrec key out Hch Hun) as [(r & v & Hh & ->) | [Habs ->]];
  destruct (get_spec st' Hwf' Hrec' key out Hch' Hun') as [(r' & v' & Hh' & ->) | [Habs' ->]].
  - destruct (proj1 (Hsame v) (ex_intro _ r Hh)) as (j & Hj).
    pose proof (Hun' _ _ _ _ _ Hj Hh') as ->.
    destruct Hj as (_ & s & Hs & _ & He), Hh' as (_ & s' & Hs' & _ & He').
    rewrite Hs in Hs'. injection Hs' as <-.
    by destruct (entry_at_inj _ _ _ _ _ _ He He') as [_ ->].
  - destruct (proj1 (Hsame v) (ex_intro _ r Hh)) as (j & Hj). by destruct (Habs' j v).
  - destruct (proj2 (Hsame v') (ex_intro _ r' Hh')) as (j & Hj). by destruct (Habs j v').
  - done.
Qed.

(** ** The invariant holds after [create] *)

Lemma empty_wf : slot_wf Slot.empty.
Proof. unfold slot_wf, Slot.empty, Slot.OFF_EMPTY. simpl. lia. Qed.

Lemma init_wf slots : 0 <= slots <= 2 ^ 31 → index_wf (Index.init slots).
Proof.
  intros Hs. destruct (init_capacity slots Hs) as ((Hp & Hge & _) & Hmask).
  assert (Index.capacity_ (Index.init slots) = 2 ^ Z.log2_up (Z.max slots 8)) as Hcap
    by (unfold Index.init; simpl; apply next_pow2_log2_up; lia).
  split; [| split; [done | split]].
  - exists (Z.log2_up (Z.max slots 8)). split; [| done].
    split; [apply Z.log2_up_nonneg |]. apply Z.log2_up_le_pow2; lia.
  - unfold Index.init in *. simpl in *. rewrite length_replicate, Hcap.
    rewrite Z2Nat.id; [done | apply Z.pow_nonneg; lia].
  - unfold Index.init. simpl. apply Forall_replicate. apply empty_wf.
Qed.

Lemma init_all_empty slots j s :
  Index.at_ (Index.init slots) j = Some s → s = Slot.empty.
Proof.
  unfold Index.at_, Index.init. simpl. intros H.
  apply lookup_replicate in H as [-> _]. done.
Qed.

Lemma create_inv bytes slots :
  0 <= bytes → bytes + 8 <= 2 ^ 32 → 0 <= slots <= 2 ^ 31 →
  Hyperion.create bytes slots true =
    (Hyperion.mk (Arena.mk (λ _, Byte.x00) bytes 8) (SeqLock.make (Index.init slots)), AE_None) ∧
  store_inv (fst (Hyperion.create bytes slots true)).
Proof.
  intros Hb Hb' Hs.
  assert (Hyperion.create bytes slots true =
    (Hyperion.mk (Arena.mk (λ _, Byte.x00) bytes 8) (SeqLock.make (Index.init slots)), AE_None)) as Hc.
  { unfold Hyperion.create, Arena.create, UINT32_MAX.
    rewrite Z.gtb_ltb, (proj2 (Z.ltb_ge _ _)) by lia. simpl.
    unfold u32, wrap. rewrite Z.mod_small by lia. done. }
  split; [done |]. rewrite Hc. simpl.
  assert (∀ j k v, ¬ holds (Hyperion.mk (Arena.mk (λ _, Byte.x00) bytes 8)
                            (SeqLock.make (Index.init slots))) j k v) as Hnone.
  { intros j k v (_ & s & Hs' & Hvalid & _).
    apply init_all_empty in Hs' as ->. done. }
  split; [| split; [| split; [| split]]].
  - split; [| split].
    + unfold arena_wf. simpl. lia.
    + unfold lock_idle. simpl. split; [lia | done].
    + by apply init_wf.
  - simpl. lia.
  - unfold records_ok, index, Index.init. simpl. apply Forall_replicate. by intros ?.
  - intros j k v H. by destruct (Hnone j k v).
  - intros j j' k v v' H. by destruct (Hnone j k v).
Qed.

(** ** Extending the arena keeps the records the slots point at *)

Section ArenaStep.
Variables (st : Hyperion.t) (a2 : Arena.t).
Hypothesis Hinv : store_inv st.
Hypothesis Hsize : Arena.size_ a2 = Arena.size_ (Hyperion.arena_ st).
Hypothesis Hbase : ∀ x, x < Arena.offset_ (Hyperion.arena_ st) →
                        Arena.base_ a2 x = Arena.base_ (Hyperion.arena_ st) x.

Let mid : Hyperion.t := Hyperion.mk a2 (Hyperion.index_ st).

Lemma extend_entry s k v :
  s ∈ Index.slots_ (index st) → Slot.is_valid s = true →
  (entry_at a2 (Slot.offset s) k v ↔ entry_at (Hyperion.arena_ st) (Slot.offset s) k v).
Proof.
  intros Hin Hvalid. destruct Hinv as (_ & _ & Hrec & _).
  unfold records_ok in Hrec. rewrite list.Forall_forall in Hrec.
  destruct (Hrec s Hin Hvalid) as (k0 & v0 & He0 & _ & _ & _ & Hend).
  assert (entry_at a2 (Slot.offset s) k0 v0) as He2.
  { eapply entry_at_frame; [done | done |]. intros x Hx. apply Hbase. lia. }
  split; intros He.
  - by destruct (entry_at_inj _ _ _ _ _ _ He2 He) as [-> ->].
  - by destruct (entry_at_inj _ _ _ _ _ _ He0 He) as [-> ->].
Qed.

Lemma extend_holds j k v : holds mid j k v ↔ holds st j k v.
Proof.
  unfold holds. change (index mid) with (index st).
  change (Hyperion.arena_ mid) with a2.
  split; intros (Hj & s & Hs & Hvalid & He); (split; [done |]); exists s;
    (split; [done |]); (split; [done |]).
  - apply extend_entry; [by eapply list_elem_of_lookup_2 | done | done].
  - apply extend_entry; [by eapply list_elem_of_lookup_2 | done | done].
Qed.

Lemma extend_inv :
  0 <= Arena.offset_ a2 < 2 ^ 32 →
  Arena.offset_ (Hyperion.arena_ st) <= Arena.offset_ a2 ∨
    Arena.size_ a2 < Arena.offset_ a2 →
  store_inv mid.
Proof.
  intros Hcur Hgrow.
  pose proof Hinv as ((Ha & Hl & Hix) & Hsz & Hrec & Hch & Hun).
  split; [| split; [| split; [| split]]].
  - split; [| done]. unfold arena_wf. simpl. rewrite Hsize. split; [apply Ha | done].
  - simpl. by rewrite Hsize.
  - unfold records_ok in *.
    change (index mid) with (index st). change (Hyperion.arena_ mid) with a2.
    rewrite list.Forall_forall in Hrec |- *. intros s Hin Hvalid.
    destruct (Hrec s Hin Hvalid) as (k0 & v0 & He0 & Htag & Hlen & Hvlen & Hend).
    exists k0, v0. split; [by apply extend_entry |].
    split; [done |]. split; [done |]. split; [done |].
    destruct Hgrow as [Hgrow | Hgrow]; [lia |].
    destruct He0 as (_ & Hb & _). lia.
  - intros j k v Hh. apply extend_holds in Hh.
    destruct (Hch j k v Hh) as (d & Hd & Hp & Hpath). exists d. done.
  - intros j j' k v v' Hh Hh'. apply extend_holds in Hh, Hh'. by eapply Hun.
Qed.
End ArenaStep.

(** ** Replacing one slot *)

Section SlotWrite.
Variables (sm : Hyperion.t) (r : Z) (s : Slot.t).
Hypothesis Hwf : store_wf sm.
Hypothesis Hr : 0 <= r < Index.capacity_ (index sm).

Let st' : Hyperion.t := bumped sm (with_slot (index sm) r s).

Lemma holds_write_ne j k v : j ≠ r → (holds st' j k v ↔ holds sm j k v).
Proof.
  intros Hne. unfold holds.
  change (index st') with (with_slot (index sm) r s).
  change (Hyperion.arena_ st') with (Hyperion.arena_ sm).
  split; intros (Hj & s0 & Hs0 & H); (split; [done |]); exists s0; (split; [| done]).
  - rewrite at_with_slot_ne in Hs0; [done | lia | done | done].
  - rewrite at_with_slot_ne; [done | lia | done | done].
Qed.

Lemma holds_write_eq k v :
  holds st' r k v ↔
  Slot.is_valid s = true ∧ entry_at (Hyperion.arena_ sm) (Slot.offset s) k v.
Proof.
  destruct Hwf as (_ & _ & Hix). unfold holds.
  change (index st') with (with_slot (index sm) r s).
  change (Hyperion.arena_ st') with (Hyperion.arena_ sm).
  rewrite at_with_slot_eq by done. split.
  - intros (_ & s0 & [= <-] & H). done.
  - intros H. split; [lia |]. exists s. done.
Qed.

Lemma nonempty_kept p :
  Slot.is_empty s = false →
  (∃ s0, Index.at_ (index sm) p = Some s0 ∧ Slot.is_empty s0 = false) →
  0 <= p →
  ∃ s0, Index.at_ (index st') p = Some s0 ∧ Slot.is_empty s0 = false.
Proof.
  intros He (s0 & Hs0 & He0) Hp. destruct Hwf as (_ & _ & Hix).
  change (index st') with (with_slot (index sm) r s).
  destruct (decide (p = r)) as [-> | Hne].
  - exists s. by rewrite at_with_slot_eq.
  - exists s0. rewrite at_with_slot_ne; [done | lia | done | done].
Qed.

Lemma write_wf :
  slot_wf s → Z.land (SeqLock.seq_ (Hyperion.index_ sm)) 1 = 0 → store_wf st'.
Proof.
  intros Hs Hseq. destruct Hwf as (Ha & Hl & Hix).
  split; [done |]. split; [apply lock_idle_bump; by apply land_1_even |].
  by apply with_slot_wf.
Qed.

(** Writing a slot that is not EMPTY keeps the probe chains of all
    other slots. *)
Lemma write_chain_others j k v :
  Slot.is_empty s = false → chain_ok sm → j ≠ r → holds st' j k v →
  ∃ d : nat, Z.of_nat d < Index.capacity_ (index st') ∧
    probe (index st') (home (index st') k) d = j ∧
    ∀ i, (i < d)%nat →
      ∃ s0, Index.at_ (index st') (probe (index st') (home (index st') k) i) = Some s0 ∧
            Slot.is_empty s0 = false.
Proof.
  intros He Hch Hne Hh. apply holds_write_ne in Hh; [| done].
  destruct (Hch j k v Hh) as (d & Hd & Hp & Hpath).
  change (Index.capacity_ (index st')) with (Index.capacity_ (index sm)).
  change (home (index st') k) with (home (index sm) k).
  change (probe (index st')) with (probe (index sm)).
  exists d. split; [done |]. split; [done |].
  intros i Hi. apply nonempty_kept; [done | by apply Hpath |].
  destruct Hwf as (_ & _ & Hix). apply probe_range. done.
Qed.
End SlotWrite.

(** ** Where [find] ends *)

Section FindEnd.
Variables (ix : Index.t) (h klen : Z) (eq : Slot.t → option bool) (r : Z) (b : bool).
Hypothesis Hwf : index_wf ix.
Hypothesis Hh : 0 <= h.
Hypothesis Hf : Index.find ix h klen eq = Some (r, b).

(** The result is reached from the home bucket over slots that are not
    EMPTY. *)
Lemma find_path :
  ∃ d : nat, Z.of_nat d < Index.capacity_ ix ∧
    probe ix (Z.land h (Index.mask_ ix)) d = r ∧
    ∀ i, (i < d)%nat →
      ∃ s, Index.at_ ix (probe ix (Z.land h (Index.mask_ ix)) i) = Some s ∧
           Slot.is_empty s = false.
Proof.
  pose proof (capacity_bounds ix Hwf) as Hc.
  unfold Index.find in Hf.
  assert (0 <= Z.land h (Index.mask_ ix) < Index.capacity_ ix) as Hstart.
  { rewrite land_mask by done. apply Z.mod_pos_bound. lia. }
  set (start := Z.land h (Index.mask_ ix)) in *.
  apply find_loop_inv in Hf; [| done | done].
  assert (∀ m d : nat, (d <= m)%nat → stepped ix (u8 (h ≫ 24)) klen eq start m →
            ∀ i, (i < d)%nat →
              ∃ s, Index.at_ ix (probe ix start i) = Some s ∧ Slot.is_empty s = false) as Hpre.
  { intros m d Hd Hst i Hi. destruct (Hst i ltac:(lia)) as (s & Hs & He & _). eauto. }
  destruct b.
  - destruct Hf as (m & Hm & Hst & -> & _).
    exists m. split; [lia |]. split; [done |]. by apply (Hpre m m).
  - destruct Hf as (m & Hm & Hst & Hend & [[Hne _] | [_ Hrec]]); [done |].
    destruct Hrec as [(t & Ht & -> & _) | [-> _]].
    + exists t. split; [lia |]. split; [done |]. apply (Hpre m t); [lia | done].
    + destruct (decide (m < Z.to_nat (Index.capacity_ ix))%nat).
      * exists m. split; [lia |]. split; [done |]. by apply (Hpre m m).
      * assert (m = Z.to_nat (Index.capacity_ ix)) as -> by lia.
        exists 0%nat. split; [lia |].
        rewrite probe_full, probe_0 by done. split; [done |]. intros i Hi. lia.
Qed.

(** An insertion candidate is a slot that is not valid, unless every
    slot of the index is valid. *)
Lemma find_false_candidate :
  b = false →
  (∃ s0, Index.at_ ix r = Some s0 ∧ Slot.is_valid s0 = false) ∨
  Forall (λ s, Slot.is_valid s = true) (Index.slots_ ix).
Proof.
  intros ->. pose proof (capacity_bounds ix Hwf) as Hc.
  unfold Index.find in Hf.
  assert (0 <= Z.land h (Index.mask_ ix) < Index.capacity_ ix) as Hstart.
  { rewrite land_mask by done. apply Z.mod_pos_bound. lia. }
  set (start := Z.land h (Index.mask_ ix)) in *.
  apply find_loop_inv in Hf; [| done | done].
  destruct Hf as (m & Hm & Hst & Hend & [[Hne _] | [_ Hrec]]); [done |].
  destruct Hrec as [(t & Ht & -> & (s & Hs1 & Hs2) & _) | [-> Hnotomb]].
  - left. exists s. split; [done |].
    unfold Slot.is_tombstone in Hs2. unfold Slot.is_valid.
    apply Z.eqb_eq in Hs2. rewrite Hs2. done.
  - destruct (decide (m < Z.to_nat (Index.capacity_ ix))%nat) as [Hlt | Hge].
    + left. destruct (Hend Hlt) as (s & Hs & He). exists s. split; [done |].
      unfold Slot.is_empty in He. unfold Slot.is_valid.
      apply Z.eqb_eq in He. rewrite He. done.
    + right. assert (m = Z.to_nat (Index.capacity_ ix)) as -> by lia.
      apply Forall_lookup. intros i s Hs.
      assert (0 <= Z.of_nat i < Index.capacity_ ix) as Hi.
      { apply lookup_lt_Some in Hs. destruct Hwf as (_ & _ & Hlen & _). lia. }
      destruct (probe_reaches ix Hwf start (Z.of_nat i) Hi) as (d & Hd & Hp).
      destruct (Hst d ltac:(lia)) as (s1 & Hs1 & He1 & _).
      destruct (Hnotomb d ltac:(lia)) as (s2 & Hs2 & Ht2).
      rewrite Hp in Hs1, Hs2. unfold Index.at_ in Hs1, Hs2.
      rewrite Nat2Z.id in Hs1, Hs2. simplify_eq.
      apply live_valid; [| done | done].
      destruct Hwf as (_ & _ & _ & Hall). rewrite Forall_lookup in Hall. by eapply Hall.
Qed.
End FindEnd.

(** ** Publishing a slot for a fresh record *)

Section Publish.
Variables (sm : Hyperion.t) (key val : list byte) (off r : Z) (b : bool).
Hypothesis Hinv : store_inv sm.
Hypothesis Hseq : Z.land (SeqLock.seq_ (Hyperion.index_ sm)) 1 = 0.
Hypothesis Hf :
  Index.find (index sm) (Index.hash key) (size key)
    (Hyperion.key_eq (Hyperion.arena_ sm) (Index.hash key) key) = Some (r, b).
Hypothesis Hentry : entry_at (Hyperion.arena_ sm) off key val.
Hypothesis Hend :
  off + HEADER + size key + size val <= Arena.offset_ (Hyperion.arena_ sm).

Let st' : Hyperion.t := bumped sm (with_slot (index sm) r (new_slot key val off)).

Lemma publish_range : 0 <= r < Index.capacity_ (index sm).
Proof.
  destruct Hinv as ((_ & _ & Hix) & _).
  exact (find_result_range _ _ _ _ _ _ Hix (proj1 (hash_range key)) Hf).
Qed.

Lemma publish_new_slot :
  slot_wf (new_slot key val off) ∧ Slot.is_valid (new_slot key val off) = true ∧
  Slot.is_empty (new_slot key val off) = false.
Proof.
  destruct Hinv as ((Ha & _) & _).
  destruct (new_slot_facts (Hyperion.arena_ sm) key val off (proj2 (proj1 Ha)) Hentry)
    as (H1 & H2 & H3 & _). done.
Qed.

Lemma publish_holds j k v :
  holds st' j k v ↔ (j = r ∧ k = key ∧ v = val) ∨ (j ≠ r ∧ holds sm j k v).
Proof.
  destruct Hinv as (Hwf & _). pose proof publish_range as Hr.
  destruct publish_new_slot as (_ & Hvalid & _).
  destruct (decide (j = r)) as [-> | Hne].
  - unfold st'. rewrite holds_write_eq by done. split.
    + intros (_ & He). left.
      by destruct (entry_at_inj _ _ _ _ _ _ Hentry He) as [-> ->].
    + intros [(_ & -> & ->) | (? & _)]; done.
  - unfold st'. rewrite holds_write_ne by done. split; [by right | ].
    intros [(? & _) | (_ & ?)]; done.
Qed.

(** A slot that already holds [key] is the one [find] returned. *)
Lemma publish_old j v : holds sm j key v → b = true ∧ j = r.
Proof.
  intros Hh. destruct Hinv as (Hwf & _ & Hrec & Hch & Hun). destruct b.
  - split; [done |]. destruct (find_true_holds sm Hwf Hrec key r Hf) as (v0 & Hv0).
    by eapply Hun.
  - by destruct (find_false_absent sm Hwf Hrec key r Hch Hf j v).
Qed.

Lemma publish_inv : store_inv st'.
Proof.
  pose proof Hinv as (Hwf & Hsz & Hrec & Hch & Hun).
  pose proof publish_range as Hr.
  destruct publish_new_slot as (Hswf & Hvalid & Hne).
  pose proof Hentry as (_ & _ & Hk & Hv & _).
  pose proof (size_nonneg key). pose proof (size_nonneg val).
  unfold MAX_KEY, MAX_VAL in *.
  split; [| split; [| split; [| split]]].
  - by apply write_wf.
  - done.
  - unfold records_ok in *.
    change (index st') with (with_slot (index sm) r (new_slot key val off)).
    change (Hyperion.arena_ st') with (Hyperion.arena_ sm).
    unfold with_slot. simpl. apply Forall_insert; [done |].
    intros _. exists key, val. split; [done |].
    unfold new_slot. simpl.
    rewrite hash_tag_small, (u8_small (size key)), (u16_small (size val)) by lia.
    done.
  - intros j k v Hh. destruct (decide (j = r)) as [-> | Hjr].
    + apply publish_holds in Hh as [(_ & -> & ->) | (? & _)]; [| done].
      pose proof Hwf as (_ & _ & Hix).
      destruct (find_path _ _ _ _ _ _ Hix (proj1 (hash_range key)) Hf) as (d & Hd & Hp & Hpath).
      change (Index.capacity_ (index st')) with (Index.capacity_ (index sm)).
      change (home (index st') key) with (Z.land (Index.hash key) (Index.mask_ (index sm))).
      change (probe (index st')) with (probe (index sm)).
      exists d. split; [done |]. split; [done |].
      intros i Hi. apply (nonempty_kept sm r _ Hwf Hr); [done | by apply Hpath |].
      apply probe_range. done.
    + by apply (write_chain_others sm r _ Hwf Hr j k v).
  - intros j j' k v v' Hh Hh'.
    apply publish_holds in Hh as [(-> & -> & ->) | (Hj & Hh)];
    apply publish_holds in Hh' as [(-> & Hk' & ->) | (Hj' & Hh')]; try done.
    + by destruct (publish_old _ _ Hh') as (_ & ->).
    + subst k. by destruct (publish_old _ _ Hh) as (_ & ->).
    + by eapply Hun.
Qed.

(** Unless the index is saturated for [key], the slot written held
    [key] or no key at all, so the records of every other key stay. *)
Lemma publish_frame k2 v :
  ¬ crowded key sm → k2 ≠ key →
  ((∃ j, holds sm j k2 v) ↔ (∃ j, holds st' j k2 v)).
Proof.
  intros Hroom Hk2. pose proof Hinv as (Hwf & _ & Hrec & Hch & Hun). split.
  - intros (j & Hh). exists j. apply publish_holds. right. split; [| done].
    intros ->. destruct b.
    + destruct (find_true_holds sm Hwf Hrec key r Hf) as (v0 & Hv0).
      destruct Hh as (_ & s & Hs & _ & He), Hv0 as (_ & s' & Hs' & _ & He').
      rewrite Hs in Hs'. injection Hs' as <-.
      by destruct (entry_at_inj _ _ _ _ _ _ He He') as [-> _].
    + destruct Hwf as (_ & _ & Hix).
      destruct (find_false_candidate _ _ _ _ _ _ Hix (proj1 (hash_range key)) Hf eq_refl)
        as [(s0 & Hs0 & Hv0) | Hall].
      * destruct Hh as (_ & s & Hs & Hvalid & _). rewrite Hs in Hs0. simplify_eq. congruence.
      * apply Hroom. split; [done |].
        eapply find_false_absent; [by destruct Hinv as ((? & ? & ?) & _) | done | done | done].
  - intros (j & Hh). apply publish_holds in Hh as [(_ & -> & _) | (_ & Hh)]; [done |].
    by exists j.
Qed.
End Publish.

(** ** Turning a slot into a tombstone *)

Section Bury.
Variables (st : Hyperion.t) (key : list byte) (r : Z) (s0 : Slot.t).
Hypothesis Hinv : store_inv st.
Hypothesis Hseq : Z.land (SeqLock.seq_ (Hyperion.index_ st)) 1 = 0.
Hypothesis Hr : 0 <= r < Index.capacity_ (index st).
Hypothesis Hs0 : Index.at_ (index st) r = Some s0.

Let st' : Hyperion.t := bumped st (with_slot (index st) r (Slot.make_tombstone s0)).

Lemma bury_holds j k v : holds st' j k v ↔ j ≠ r ∧ holds st j k v.
Proof.
  destruct Hinv as (Hwf & _). destruct (decide (j = r)) as [-> | Hne].
  - unfold st'. rewrite holds_write_eq by done. split; [| by intros (? & _)].
    by intros (? & _).
  - unfold st'. rewrite holds_write_ne by done. split; [done | by intros (_ & ?)].
Qed.

Lemma bury_inv : store_inv st'.
Proof.
  pose proof Hinv as (Hwf & Hsz & Hrec & Hch & Hun).
  assert (slot_wf s0) as Hs0wf.
  { destruct Hwf as (_ & _ & _ & _ & _ & Hall). rewrite Forall_lookup in Hall. by eapply Hall. }
  split; [| split; [| split; [| split]]].
  - apply write_wf; [done | by apply tombstone_wf | done].
  - done.
  - unfold records_ok in *.
    change (index st') with (with_slot (index st) r (Slot.make_tombstone s0)).
    change (Hyperion.arena_ st') with (Hyperion.arena_ st).
    unfold with_slot. simpl. apply Forall_insert; [done |]. by intros ?.
  - intros j k v Hh. pose proof Hh as (Hne & _)%bury_holds.
    by apply (write_chain_others st r _ Hwf Hr j k v).
  - intros j j' k v v' (_ & Hh)%bury_holds (_ & Hh')%bury_holds. by eapply Hun.
Qed.
End Bury.

Lemma bump_inv st :
  store_inv st → Z.land (SeqLock.seq_ (Hyperion.index_ st)) 1 = 0 →
  store_inv (bumped st (index st)).
Proof.
  intros ((Ha & Hl & Hix) & Hsz & Hrec & Hch & Hun) Hseq.
  split; [| done].
  split; [done |]. split; [| done]. apply lock_idle_bump. by apply land_1_even.
Qed.

(** ** The operations keep the invariant *)

(** A successful [put], split in two steps: the arena grows by the new
    record (state [mid]), then the slot is published. *)
Lemma put_OK_steps key val st st' :
  store_inv st → Hyperion.put key val st = Some (OK, st') →
  ∃ a2 r b,
    let mid := Hyperion.mk a2 (Hyperion.index_ st) in
    let off := Arena.offset_ (Hyperion.arena_ st) in
    store_inv mid ∧ (∀ j k v, holds mid j k v ↔ holds st j k v) ∧
    Z.land (SeqLock.seq_ (Hyperion.index_ mid)) 1 = 0 ∧
    Index.find (index mid) (Index.hash key) (size key)
      (Hyperion.key_eq (Hyperion.arena_ mid) (Index.hash key) key) = Some (r, b) ∧
    entry_at (Hyperion.arena_ mid) off key val ∧
    off + HEADER + size key + size val <= Arena.offset_ (Hyperion.arena_ mid) ∧
    st' = bumped mid (with_slot (index mid) r (new_slot key val off)).
Proof.
  intros Hinv Hput.
  apply put_OK_inv in Hput as (Hk & Hv & Hfit & Hseq & a2 & r & b & ix' & Hw & Hf & Hu & ->).
  apply write_entry_inv in Hw as (He & Hsz & Hoff & Hout); [| done | done].
  simpl in Hsz, Hoff, Hout. apply update_inv in Hu as ->.
  pose proof Hinv as ((Ha & _) & Hbig & _).
  pose proof (needed_bounds key val Hk Hv) as Hn.
  pose proof (size_nonneg key) as Hk0. pose proof (size_nonneg val) as Hv0.
  pose proof He as (Hoff0 & Hb & _). rewrite Hsz in Hb.
  destruct Ha as (Hs & Hc). unfold HEADER in *.
  assert (Arena.offset_ a2 = Arena.offset_ (Hyperion.arena_ st) + Hyperion.needed key val) as Hcur.
  { rewrite Hoff. apply u32_small. lia. }
  assert (∀ x, x < Arena.offset_ (Hyperion.arena_ st) →
               Arena.base_ a2 x = Arena.base_ (Hyperion.arena_ st) x) as Hbase.
  { intros x Hx. apply Hout. lia. }
  exists a2, r, b. cbv zeta.
  split; [apply extend_inv; [done | done | done | lia | lia] |].
  split; [intros j k v; by apply extend_holds |].
  split; [done |]. split; [done |]. split; [done |]. split; [simpl; lia | done].
Qed.

Lemma put_inv key val st s st' :
  store_inv st → Hyperion.put key val st = Some (s, st') → store_inv st'.
Proof.
  intros Hinv Hput. destruct s.
  - destruct (put_OK_steps _ _ _ _ Hinv Hput) as (a2 & r & b & Hmid & _ & Hseq & Hf & He & Hend & ->).
    by eapply publish_inv.
  - apply put_rejected in Hput as (_ & ->); done.
  - apply put_rejected in Hput as (_ & ->); done.
  - apply put_ArenaFull_inv in Hput as (_ & _ & Hfull & ->).
    apply (extend_inv st (advanced (Hyperion.arena_ st) (Hyperion.needed key val)));
      [done | done | done | apply u32_range | by right].
  - apply put_rejected in Hput as (_ & ->); done.
Qed.

Lemma crowded_ext key st st' :
  Index.slots_ (index st') = Index.slots_ (index st) →
  (∀ j k v, holds st' j k v ↔ holds st j k v) →
  crowded key st' → crowded key st.
Proof.
  intros Hix Hh (Hall & Habs). split; [by rewrite <- Hix |].
  intros j v H. apply (Habs j v). by apply Hh.
Qed.

(** Unless the index is saturated for [key], a put of [key] leaves the
    records of any other key where they are. *)
Lemma put_frame key val st s st' k2 v :
  store_inv st → Hyperion.put key val st = Some (s, st') →
  ¬ crowded key st → k2 ≠ key →
  ((∃ j, holds st j k2 v) ↔ (∃ j, holds st' j k2 v)).
Proof.
  intros Hinv Hput Hroom Hk2. destruct s.
  - destruct (put_OK_steps _ _ _ _ Hinv Hput) as (a2 & r & b & Hmid & Hsame & Hseq & Hf & He & Hend & ->).
    rewrite <- (publish_frame _ key val _ r b Hmid Hf He Hend k2 v); [| | done].
    + split; intros (j & Hj); exists j; by apply Hsame.
    + intros Hc. apply Hroom. exact (crowded_ext key st (Hyperion.mk a2 (Hyperion.index_ st)) eq_refl Hsame Hc).
  - apply put_rejected in Hput as (_ & ->); done.
  - apply put_rejected in Hput as (_ & ->); done.
  - apply put_ArenaFull_inv in Hput as (_ & _ & Hfull & ->).
    split; intros (j & Hj); exists j;
      by apply (extend_holds st (advanced (Hyperion.arena_ st) (Hyperion.needed key val))).
  - apply put_rejected in Hput as (_ & ->); done.
Qed.

Lemma del_steps key st s st' :
  store_inv st → Hyperion.del key st = Some (s, st') →
  store_inv st' ∧
  ∀ k2 v, k2 ≠ key → ((∃ j, holds st j k2 v) ↔ (∃ j, holds st' j k2 v)).
Proof.
  intros Hinv Hdel. pose proof Hinv as (Hwf & _ & Hrec & _).
  apply del_inv in Hdel as (Hseq & r & b & Hf & Hcase).
  destruct b.
  - destruct Hcase as (-> & s0 & Hs0 & ->).
    pose proof Hwf as (_ & _ & Hix).
    pose proof (find_result_range _ _ _ _ _ _ Hix (proj1 (hash_range key)) Hf) as Hr.
    split; [by apply bury_inv |].
    intros k2 v Hk2. split.
    + intros (j & Hj). exists j. apply (bury_holds st r s0 Hinv Hr).
      split; [| done]. intros ->.
      destruct (find_true_holds st Hwf Hrec key r Hf) as (v0 & Hv0).
      destruct Hj as (_ & s & Hs & _ & He), Hv0 as (_ & s' & Hs' & _ & He').
      rewrite Hs in Hs'. injection Hs' as <-.
      by destruct (entry_at_inj _ _ _ _ _ _ He He') as [-> _].
    + intros (j & Hj). exists j. by apply (bury_holds st r s0 Hinv Hr) in Hj as (_ & Hj).
  - destruct Hcase as (-> & ->). split; [by apply bump_inv | done].
Qed.

(** ** P5 along a sequence of operations on one key *)

Lemma op_frame key o st st' k2 out :
  store_inv st → apply_op key o st = Some st' →
  (match o with Put _ => ¬ crowded key st | Del => True end) → k2 ≠ key →
  store_inv st' ∧ Hyperion.get k2 out st' = Hyperion.get k2 out st.
Proof.
  intros Hinv Hop Hroom Hk2. destruct o as [val |]; simpl in Hop.
  - destruct (Hyperion.put key val st) as [[s st'']|] eqn:Hput; [|done].
    simpl in Hop. injection Hop as ->.
    pose proof (put_inv _ _ _ _ _ Hinv Hput) as Hinv'. split; [done |].
    apply get_same_records; [done | done |]. intros v. by eapply put_frame.
  - destruct (Hyperion.del key st) as [[s st'']|] eqn:Hdel; [|done].
    simpl in Hop. injection Hop as ->.
    destruct (del_steps _ _ _ _ Hinv Hdel) as (Hinv' & Hsame). split; [done |].
    apply get_same_records; [done | done |]. intros v. by apply Hsame.
Qed.

Lemma run_frame key ops : ∀ st st' k2 out,
  store_inv st → run key ops st = Some st' → roomy key ops st → k2 ≠ key →
  store_inv st' ∧ Hyperion.get k2 out st' = Hyperion.get k2 out st.
Proof.
  induction ops as [|o ops IH]; intros st st' k2 out Hinv Hrun Hroom Hk2.
  - simpl in Hrun. injection Hrun as <-. done.
  - simpl in Hrun. destruct (apply_op key o st) as [st1|] eqn:Hop; [|done].
    simpl in Hrun. destruct Hroom as (Hnow & Hlater).
    destruct (op_frame key o st st1 k2 out Hinv Hop Hnow Hk2) as (Hinv1 & Hget1).
    destruct (IH st1 st' k2 out Hinv1 Hrun (Hlater st1 Hop) Hk2) as (Hinv' & Hget').
    split; [done |]. by rewrite Hget', Hget1.
Qed.

(** The invariant holds in every reachable state. *)
Lemma reachable_inv st : reachable st → store_inv st.
Proof.
  induction 1 as [bytes slots Hb Hb' Hs | st key val s st' _ IH Hput
                 | st key s st' _ IH Hdel].
  - by apply create_inv.
  - by eapply put_inv.
  - by destruct (del_steps _ _ _ _ IH Hdel).
Qed.

(** ** Keys longer than MAX_KEY *)

Lemma find_long_key st key eq :
  store_wf st → MAX_KEY < size key →
  ∃ r, Index.find (index st) (Index.hash key) (size key) eq = Some (r, false).
Proof.
  intros (_ & _ & Hix) Hlong. pose proof (capacity_bounds _ Hix) as Hc.
  pose proof (hash_range key) as Hh. unfold MAX_KEY in Hlong.
  assert (∀ s, s ∈ Index.slots_ (index st) → prefilter (u8 (Index.hash key ≫ 24)) (size key) s = false) as Hpre.
  { intros s Hin. destruct Hix as (_ & _ & _ & Hall).
    rewrite list.Forall_forall in Hall. destruct (Hall s Hin) as (_ & Hkl & _).
    unfold prefilter. apply andb_false_iff. right. apply Z.eqb_neq.
    change (2 ^ 8) with 256 in Hkl. lia. }
  destruct (find_loop_total (index st) Hix (u8 (Index.hash key ≫ 24)) (size key) eq
              (Z.to_nat (Index.capacity_ (index st)))
              (Index.hash key mod Index.capacity_ (index st)) UINT32_MAX) as [[r b] Hf].
  - apply Z.mod_pos_bound. lia.
  - intros s Hin _ _ Hp. rewrite Hpre in Hp; done.
  - assert (Index.find (index st) (Index.hash key) (size key) eq = Some (r, b)) as Hf'.
    { unfold Index.find. rewrite land_mask by (done || lia). done. }
    destruct b; [| eauto].
    destruct (find_true_matches _ _ _ _ _ Hix (proj1 Hh) Hf') as (s & Hs & _ & _ & Hp & _).
    rewrite Hpre in Hp; [done |]. by eapply list_elem_of_lookup_2.
Qed.

(** ** What a failed allocation changes *)

Lemma put_ArenaFull_effect key val st st' :
  Hyperion.put key val st = Some (ArenaFull, st') →
  Hyperion.index_ st' = Hyperion.index_ st ∧
  Arena.base_ (Hyperion.arena_ st') = Arena.base_ (Hyperion.arena_ st) ∧
  Arena.size_ (Hyperion.arena_ st') = Arena.size_ (Hyperion.arena_ st) ∧
  Arena.offset_ (Hyperion.arena_ st') =
    u32 (Arena.offset_ (Hyperion.arena_ st) + Hyperion.needed key val) ∧
  (∀ k out, Hyperion.get k out st' = Hyperion.get k out st) ∧
  (∀ k, fst <$> Hyperion.del k st' = fst <$> Hyperion.del k st).
Proof.
  intros H. apply put_ArenaFull_inv in H as (_ & _ & _ & ->).
  destruct st as [a l]. simpl.
  split; [done |]. split; [done |]. split; [done |]. split; [done |].
  split; [intros k out; apply get_cursor_irrelevant |].
  intros k. rewrite del_cursor_irrelevant.
  destruct (Hyperion.del k _) as [[s st'']|]; done.
Qed.

(** ** Puts that are answered ArenaFull, one after the other *)

Lemma needed_pos key val :
  size key <= MAX_KEY → size val <= MAX_VAL → 8 <= Hyperion.needed key val.
Proof.
  intros Hk Hv. pose proof (needed_bounds key val Hk Hv).
  pose proof (size_nonneg key). pose proof (size_nonneg val). unfold HEADER in *. lia.
Qed.

(** While the sum of the requests stays below [2^32], a cursor that is
    past the end of the arena stays there. *)
Lemma puts_full_run key val st n :
  size key <= MAX_KEY → size val <= MAX_VAL →
  0 <= Arena.size_ (Hyperion.arena_ st) < Arena.offset_ (Hyperion.arena_ st) →
  Arena.offset_ (Hyperion.arena_ st) + Z.of_N n * Hyperion.needed key val < 2 ^ 32 →
  puts_full n key val st =
  Some (at_cursor st (Arena.offset_ (Hyperion.arena_ st) + Z.of_N n * Hyperion.needed key val)).
Proof.
  intros Hk Hv Hpast. pose proof (needed_pos key val Hk Hv) as Hn.
  unfold puts_full. induction n as [|n IH] using N.peano_ind; intros Hsum.
  - destruct st as [[m sz c] l]. unfold at_cursor. simpl.
    by rewrite Z.add_0_r.
  - rewrite N2Z.inj_succ in Hsum |- *.
    assert (0 <= Z.of_N n * Hyperion.needed key val) as Hprod by (apply Z.mul_nonneg_nonneg; lia).
    assert (Z.succ (Z.of_N n) * Hyperion.needed key val
            = Z.of_N n * Hyperion.needed key val + Hyperion.needed key val) as Hs by lia.
    rewrite Hs in Hsum |- *.
    rewrite N.iter_succ. rewrite IH by lia.
    unfold put_full at 1. simpl.
    rewrite put_ArenaFull; [| done | done |].
    + unfold at_cursor, advanced. simpl. do 3 f_equal.
      rewrite u32_small by lia. lia.
    + simpl. rewrite u32_small by lia. lia.
Qed.

(** ** Deleting *)

Lemma del_spec key st :
  store_wf st → records_ok st → unique_ok st →
  ∃ r b st',
    Index.find (index st) (Index.hash key) (size key)
      (Hyperion.key_eq (Hyperion.arena_ st) (Index.hash key) key) = Some (r, b) ∧
    Hyperion.del key st = Some (if b then OK else NotFound, st') ∧
    Hyperion.arena_ st' = Hyperion.arena_ st ∧
    if b then
      ∃ s0, Index.at_ (index st) r = Some s0 ∧
        Index.slots_ (index st') =
          <[Z.to_nat r := Slot.make_tombstone s0]> (Index.slots_ (index st)) ∧
        (∃ t, Index.at_ (index st') r = Some t ∧ Slot.is_tombstone t = true) ∧
        ∀ out, Hyperion.get key out st' = Some (NotFound, out)
    else Index.slots_ (index st') = Index.slots_ (index st).
Proof.
  intros Hwf Hrec Hun.
  destruct (find_defined st Hwf Hrec key) as (r & b & Hf).
  pose proof Hwf as (Ha & Hl & Hix).
  destruct (lock_idle_flags _ Hl) as (_ & Hseq).
  pose proof (hash_range key) as Hh.
  pose proof (find_result_range _ _ _ _ _ _ Hix (proj1 Hh) Hf) as Hr.
  exists r, b. rewrite (del_run key st r b Hseq Hf). destruct b.
  - destruct (find_true_matches _ _ _ _ _ Hix (proj1 Hh) Hf) as (s0 & Hs0 & Hm).
    rewrite Hs0. simpl.
    set (st' := bumped st (with_slot (index st) r (Slot.make_tombstone s0))).
    exists st'. split; [done |]. split; [done |]. split; [done |].
    exists s0. split; [done |]. split; [done |].
    assert (slot_wf s0) as Hs0wf.
    { destruct Hix as (_ & _ & _ & Hall). rewrite Forall_lookup in Hall. by eapply Hall. }
    assert (store_wf st') as Hwf'
      by (apply write_wf; [done | by apply tombstone_wf | done]).
    assert (records_ok st') as Hrec'.
    { unfold records_ok, st', with_slot. simpl. apply Forall_insert; [done |]. by intros ?. }
    split.
    { exists (Slot.make_tombstone s0). split; [| done]. by apply at_with_slot_eq. }
    intros out. destruct (find_defined st' Hwf' Hrec' key) as (r' & b' & Hf').
    destruct Hwf' as (_ & Hl' & _). destruct (lock_idle_flags _ Hl') as (Hodd' & _).
    rewrite (get_run key out st' r' b' Hodd' Hf'). destruct b'; [exfalso | done].
    destruct (find_true_holds st' ltac:(by apply write_wf; [| apply tombstone_wf |]) Hrec' key r' Hf')
      as (v' & Hv').
    destruct (find_true_holds st Hwf Hrec key r Hf) as (v0 & Hv0).
    destruct (decide (r' = r)) as [-> | Hne].
    + apply (holds_write_eq st r _ Hwf Hr) in Hv' as (? & _). done.
    + apply (holds_write_ne st r _ Hr r' key v' Hne) in Hv'.
      apply Hne. by eapply Hun.
  - exists (bumped st (index st)). done.
Qed.

(** ** get while the writer is at work *)

Lemma get_body_not_found a key out idx out' :
  Hyperion.get_body a key out idx = Some (false, out') → out' = out.
Proof.
  unfold Hyperion.get_body. intros H.
  destruct (Index.find _ _ _ _) as [[r [|]]|]; simpl in H; [| | done].
  - destruct (Index.at_ _ _) as [s0|]; [|done]. simpl in H.
    destruct (Arena.read16 _ (Slot.offset s0)) as [kl|]; [|done]. simpl in H.
    destruct (Arena.read16 _ _) as [vl|]; [|done]. simpl in H.
    destruct (Arena.read _ _ _) as [v|]; done.
  - by injection H as <-.
Qed.

(** One round without the writer is the single-threaded [get]. *)
Lemma get_under_quiet key out st :
  get_under [([], [])] key out st =
  (λ r, (r.1, r.2, st)) <$> Hyperion.get key out st.
Proof.
  unfold Hyperion.get, SeqLock.read. simpl.
  destruct (Z.odd _); [done |].
  destruct (Hyperion.get_body _ _ _ _) as [[found o]|]; [| done]. simpl.
  by rewrite Z.eqb_refl.
Qed.

Lemma get_under_single key out sched : ∀ st s out' st',
  quiet sched → get_under sched key out st = Some (s, out', st') →
  st' = st ∧ Hyperion.get key out st = Some (s, out').
Proof.
  induction sched as [|round sched IH]; intros st s out' st' Hq H; [done |].
  apply list.Forall_cons in Hq as [-> Hq]. simpl in H.
  unfold Hyperion.get, SeqLock.read.
  destruct (Z.odd _) eqn:Hodd.
  - destruct (IH st s out' st' Hq H) as (_ & Hg).
    unfold Hyperion.get, SeqLock.read in Hg. by rewrite Hodd in Hg.
  - destruct (Hyperion.get_body _ _ _ _) as [[found o]|]; [| done]. simpl in H |- *.
    rewrite Z.eqb_refl in H. by injection H as <- <- <-.
Qed.

Lemma writer_run_wf ws : ∀ st st',
  store_wf st → writer_run ws st = Some st' → store_wf st'.
Proof.
  induction ws as [|w ws IH]; intros st st' Hwf H; simpl in H.
  - by injection H as <-.
  - destruct (writer_step w st) as [st1|] eqn:Hw; [| done]. simpl in H.
    apply (IH st1 st'); [| done]. destruct w as [k v | k]; simpl in Hw.
    + destruct (Hyperion.put k v st) as [[s st1']|] eqn:Hput; [| done].
      simpl in Hw. injection Hw as ->. by eapply put_wf.
    + destruct (Hyperion.del k st) as [[s st1']|] eqn:Hdel; [| done].
      simpl in Hw. injection Hw as ->. by eapply del_wf.
Qed.

(** A key longer than MAX_KEY is not found in any round, whatever the
    writer does in between. *)
Lemma long_key_under key out sched : ∀ st s out' st',
  store_wf st → MAX_KEY < size key →
  get_under sched key out st = Some (s, out', st') →
  s = NotFound ∧ out' = out.
Proof.
  induction sched as [|[before during] sched IH]; intros st s out' st' Hwf Hlong H;
    [done |].
  simpl in H.
  destruct (writer_run before st) as [st1|] eqn:H1; [| done]. simpl in H.
  pose proof (writer_run_wf _ _ _ Hwf H1) as Hwf1.
  destruct (Z.odd _); [by apply (IH st1 s out' st') |].
  destruct (find_long_key st1 key
              (Hyperion.key_eq (Hyperion.arena_ st1) (Index.hash key) key) Hwf1 Hlong)
    as (r & Hf).
  unfold Hyperion.get_body in H. unfold index in Hf. rewrite Hf in H. simpl in H.
  destruct (writer_run during st1) as [st2|] eqn:H2; [| done]. simpl in H.
  pose proof (writer_run_wf _ _ _ Hwf1 H2) as Hwf2.
  destruct (_ =? _); [by injection H as <- <- <- | by apply (IH st2 s out' st')].
Qed.

(** ** Stores that [create] can return *)

(** Without a slot array no put returns OK. *)
Lemma put_needs_slots key val st st' :
  Index.slots_ (index st) = [] → Hyperion.put key val st ≠ Some (OK, st').
Proof.
  intros Hnil Hput.
  apply put_OK_inv in Hput as (_ & _ & _ & _ & a2 & r & b & ix' & _ & _ & Hu & _).
  unfold Index.update in Hu. rewrite Hnil in Hu.
  rewrite bool_decide_eq_false_2 in Hu by (simpl; lia). done.
Qed.

(** [create] returns a well-formed store, or one without a slot array:
    the inert store after a refused mapping, or the store whose slot
    count was above [2^31]. *)
Lemma create_cases bytes slots mapped :
  0 <= bytes → 0 <= slots < 2 ^ 32 →
  store_wf (fst (Hyperion.create bytes slots mapped)) ∨
  Index.slots_ (index (fst (Hyperion.create bytes slots mapped))) = [].
Proof.
  intros Hb Hs. unfold Hyperion.create, Arena.create, UINT32_MAX.
  destruct (bytes >? 4294967295) eqn:Eb; [by right |].
  destruct mapped; [| by right]. simpl.
  rewrite Z.gtb_ltb in Eb. apply Z.ltb_ge in Eb.
  destruct (decide (slots <= 2 ^ 31)) as [Hle | Hgt].
  - left. split; [| split].
    + unfold arena_wf. simpl. rewrite u32_small by lia. lia.
    + unfold lock_idle. simpl. split; [lia | done].
    + apply init_wf. lia.
  - right. unfold index, Index.init. simpl.
    assert (Index.next_pow2 (Z.max slots 8) = 0) as ->; [| done].
    unfold Index.next_pow2, u32, wrap.
    rewrite (Z.mod_small (Z.max slots 8 - 1)) by lia.
    pose proof (smear_ones (Z.max slots 8 - 1) ltac:(lia)) as H.
    cbv zeta in H. rewrite H.
    assert (Z.log2 (Z.max slots 8 - 1) = 31) as ->.
    { apply Z.log2_unique; lia. }
    done.
Qed.

(** ** A put that fits the arena returns OK *)

Lemma needed_range key val :
  size key <= MAX_KEY → size val <= MAX_VAL →
  8 <= Hyperion.needed key val < 2 ^ 17.
Proof.
  intros Hk Hv. pose proof (needed_bounds key val Hk Hv) as Hn.
  pose proof (size_nonneg key). pose proof (size_nonneg val).
  unfold HEADER, MAX_KEY, MAX_VAL in *. lia.
Qed.

(** With the invariant, a put whose request ends inside the arena is
    defined and returns OK. *)
Lemma put_succeeds key val st :
  store_inv st → size key <= MAX_KEY → size val <= MAX_VAL →
  Arena.offset_ (Hyperion.arena_ st) + Hyperion.needed key val
    <= Arena.size_ (Hyperion.arena_ st) →
  ∃ st', Hyperion.put key val st = Some (OK, st') ∧
    Arena.offset_ (Hyperion.arena_ st') =
      Arena.offset_ (Hyperion.arena_ st) + Hyperion.needed key val ∧
    Arena.size_ (Hyperion.arena_ st') = Arena.size_ (Hyperion.arena_ st).
Proof.
  intros Hinv Hk Hv Hfit.
  pose proof Hinv as (((Hs & Hc) & Hidle & Hix) & Hbig & Hrec & _).
  pose proof (needed_bounds key val Hk Hv) as Hn.
  pose proof (size_nonneg key) as Hk0. pose proof (size_nonneg val) as Hv0.
  unfold HEADER in Hn.
  set (a := Hyperion.arena_ st) in *. set (n := Hyperion.needed key val) in *.
  assert (u32 (Arena.offset_ a + n) = Arena.offset_ a + n) as Hu by (apply u32_small; lia).
  destruct (Hyperion.write_entry (advanced a n) (Arena.offset_ a) (Index.hash key) key val)
    as [a2|] eqn:Hw.
  2:{ assert (is_Some (Hyperion.write_entry (advanced a n) (Arena.offset_ a)
                       (Index.hash key) key val)) as (? & H).
      { apply write_entry_Some; [lia |]. unfold advanced, HEADER. simpl. lia. }
      congruence. }
  pose proof Hw as Hw'.
  apply write_entry_inv in Hw' as (He & Hsz & Hoff & Hout); [| done | done].
  simpl in Hsz, Hoff, Hout. rewrite Hu in Hoff.
  assert (store_inv (Hyperion.mk a2 (Hyperion.index_ st))) as Hmid.
  { apply extend_inv; fold a; [done | done | | lia | lia].
    intros x Hx. apply Hout. lia. }
  pose proof Hmid as (Hwfm & _ & Hrecm & _).
  destruct (find_defined _ Hwfm Hrecm key) as (r & b & Hf).
  pose proof (find_result_range _ _ _ _ _ _ Hix (proj1 (hash_range key)) Hf) as Hr.
  destruct (lock_idle_flags _ Hidle) as (_ & Hland).
  exists (bumped (Hyperion.mk a2 (Hyperion.index_ st))
            (with_slot (index st) r (new_slot key val (Arena.offset_ a)))).
  split; [| split; [exact Hoff | exact Hsz]].
  unfold Hyperion.put.
  replace (size key >? MAX_KEY) with false by (symmetry; lia).
  replace (size val >? MAX_VAL) with false by (symmetry; lia).
  unfold Arena.alloc. fold a. fold n. rewrite Hu.
  replace (Arena.offset_ a + n >? Arena.size_ a) with false
    by (symmetry; lia).
  cbn [mbind option_bind].
  unfold advanced in Hw. rewrite Hu in Hw. rewrite Hw. cbn [mbind option_bind].
  unfold SeqLock.write. rewrite Hland. cbn [negb Z.eqb].
  unfold index in Hf. cbn [Hyperion.index_ Hyperion.arena_] in Hf.
  rewrite Hf. cbn [mbind option_bind].
  unfold Index.update. destruct Hix as (_ & _ & Hlen & _).
  rewrite bool_decide_eq_true_2 by (unfold index in *; lia).
  reflexivity.
Qed.

(** ** Counting used slots when a slot is replaced *)

Lemma used_insert_le (l : list Slot.t) : ∀ (i : nat) (x : Slot.t),
  (length (List.filter (λ s, negb (Slot.is_empty s)) (<[i:=x]> l)) <=
   S (length (List.filter (λ s, negb (Slot.is_empty s)) l)))%nat.
Proof.
  induction l as [|y l IH]; intros i x; [simpl; lia |].
  destruct i as [|i]; simpl.
  - destruct (negb (Slot.is_empty x)), (negb (Slot.is_empty y)); simpl; lia.
  - specialize (IH i x). destruct (negb (Slot.is_empty y)); simpl; lia.
Qed.

Lemma used_with_slot_le ix r s : (used (with_slot ix r s) <= S (used ix))%nat.
Proof. unfold used, with_slot. simpl. apply used_insert_le. Qed.

Lemma used_insert_ge (l : list Slot.t) : ∀ (i : nat) (x : Slot.t),
  Slot.is_empty x = false →
  (length (List.filter (λ s, negb (Slot.is_empty s)) l) <=
   length (List.filter (λ s, negb (Slot.is_empty s)) (<[i:=x]> l)))%nat.
Proof.
  induction l as [|y l IH]; intros i x Hx; [simpl; lia |].
  destruct i as [|i]; simpl.
  - rewrite Hx. simpl. destruct (negb (Slot.is_empty y)); simpl; lia.
  - specialize (IH i x Hx). destruct (negb (Slot.is_empty y)); simpl; lia.
Qed.

Lemma used_all_valid ix :
  Forall (λ s, Slot.is_valid s = true) (Index.slots_ ix) →
  used ix = length (Index.slots_ ix).
Proof.
  unfold used. induction (Index.slots_ ix) as [|s l IH]; intros H; [done |].
  apply list.Forall_cons in H as (Hs & Hl). simpl.
  rewrite (valid_not_empty s Hs). simpl. by rewrite IH.
Qed.

(** An index with a slot to spare is saturated for no key. *)
Lemma used_room key st :
  store_wf st → Z.of_nat (used (index st)) < Index.capacity_ (index st) →
  ¬ crowded key st.
Proof.
  intros (_ & _ & (_ & _ & Hlen & _)) Hu (Hall & _).
  apply used_all_valid in Hall. lia.
Qed.

(** ** Allocation *)

Lemma alloc_inv a sz e o a' :
  Arena.alloc a sz = (e, o, a') →
  a' = advanced a sz ∧
  ((e = AE_None ∧ o = Some (Arena.offset_ a) ∧
    u32 (Arena.offset_ a + sz) <= Arena.size_ a) ∨
   (e = OutOfSpace ∧ o = None ∧ Arena.size_ a < u32 (Arena.offset_ a + sz))).
Proof.
  unfold Arena.alloc, advanced. intros H.
  destruct (u32 (Arena.offset_ a + sz) >? Arena.size_ a) eqn:E;
    injection H as <- <- <-; (split; [done |]); [right | left]; (split; [done |]);
    (split; [done | lia]).
Qed.

Lemma u32_mod8 x : u32 x mod 8 = x mod 8.
Proof.
  unfold u32, wrap. apply Z.mod_mod_divide. exists (2 ^ 29). done.
Qed.

(** ** Runs of the writer, call by call *)

(** A write transaction that leaves the index as it is changes the
    answer of no [get]. *)
Lemma get_bumped key out st :
  lock_idle (Hyperion.index_ st) →
  Hyperion.get key out (bumped st (index st)) = Hyperion.get key out st.
Proof.
  intros Hidle. destruct (lock_idle_flags _ Hidle) as (Hodd & Hland).
  unfold Hyperion.get, SeqLock.read, bumped. simpl.
  rewrite (bump_not_odd _ Hland), Hodd. done.
Qed.

Lemma writer_log_cons w ws st ss st' :
  writer_log (w :: ws) st = Some (ss, st') →
  ∃ s st1 ss', writer_call w st = Some (s, st1) ∧
    writer_log ws st1 = Some (ss', st') ∧ ss = s :: ss'.
Proof.
  simpl. intros H.
  destruct (writer_call w st) as [[s st1]|]; [| done]. simpl in H.
  destruct (writer_log ws st1) as [[ss' st2]|] eqn:Hl; [| done]. simpl in H.
  injection H as <- <-. by exists s, st1, ss'.
Qed.

Lemma writer_call_inv w st s st' :
  store_inv st → writer_call w st = Some (s, st') → store_inv st'.
Proof.
  intros Hinv H. destruct w as [key val | key]; simpl in H.
  - by eapply put_inv.
  - by eapply del_steps.
Qed.

Lemma writer_log_inv ws : ∀ st ss st',
  store_inv st → writer_log ws st = Some (ss, st') → store_inv st'.
Proof.
  induction ws as [|w ws IH]; intros st ss st' Hinv H.
  - simpl in H. by injection H as <- <-.
  - apply writer_log_cons in H as (s & st1 & ss' & Hc & Hl & ->).
    eapply IH; [| done]. by eapply writer_call_inv.
Qed.

(** One call of the writer leaves no slot EMPTY that was not. *)
Lemma writer_call_slots w st s st' :
  store_inv st → writer_call w st = Some (s, st') →
  Index.capacity_ (index st') = Index.capacity_ (index st) ∧
  (used (index st) <= used (index st'))%nat ∧
  ∀ j s0, 0 <= j → Index.at_ (index st) j = Some s0 → Slot.is_empty s0 = false →
    ∃ s1, Index.at_ (index st') j = Some s1 ∧ Slot.is_empty s1 = false.
Proof.
  intros Hinv H. pose proof Hinv as (Hwf & _ & Hrec & _).
  pose proof Hwf as (_ & _ & Hix).
  destruct w as [key val | key]; simpl in H.
  - destruct s.
    + destruct (put_OK_steps _ _ _ _ Hinv H)
        as (a2 & r & b & Hmid & Hsame & Hseq & Hf & He & Hend & ->).
      pose proof Hmid as (Hwfm & _).
      pose proof (find_result_range _ _ _ _ _ _ Hix (proj1 (hash_range key)) Hf) as Hr.
      destruct (publish_new_slot _ key val _ Hmid He) as (_ & _ & Hne).
      split; [done |]. split.
      * unfold used, with_slot. simpl. by apply used_insert_ge.
      * intros j s0 Hj Hs0 Hne0.
        apply (nonempty_kept _ r _ Hwfm Hr j Hne); [| done]. by exists s0.
    + apply put_rejected in H as (_ & ->); [| done | done].
      split; [done |]. split; [done |]. intros j s0 _ Hs0 Hne0. by exists s0.
    + apply put_rejected in H as (_ & ->); [| done | done].
      split; [done |]. split; [done |]. intros j s0 _ Hs0 Hne0. by exists s0.
    + apply put_ArenaFull_inv in H as (_ & _ & _ & ->).
      split; [done |]. split; [done |]. intros j s0 _ Hs0 Hne0. by exists s0.
    + apply put_rejected in H as ([? | ?] & _); done.
  - apply del_inv in H as (Hseq & r & b & Hf & Hcase).
    destruct b.
    + destruct Hcase as (-> & s0 & Hs0 & ->).
      pose proof (find_result_range _ _ _ _ _ _ Hix (proj1 (hash_range key)) Hf) as Hr.
      destruct (find_true_matches _ _ _ _ _ Hix (proj1 (hash_range key)) Hf)
        as (s1 & Hs1 & Hne & _).
      rewrite Hs0 in Hs1. injection Hs1 as <-.
      split; [done |]. split.
      * assert (used (with_slot (index st) r (Slot.make_tombstone s0)) = used (index st))
          as Hu by (apply (used_with_slot _ r _ s0); [lia | done | by rewrite Hne]).
        unfold index at 2, bumped. simpl. fold (index st). rewrite Hu. done.
      * intros j s2 Hj Hs2 Hne2.
        apply (nonempty_kept _ r _ Hwf Hr j); [done | by exists s2 | done].
    + destruct Hcase as (-> & ->).
      split; [done |]. split; [done |]. intros j s0 _ Hs0 Hne0. by exists s0.
Qed.

(** One call of the writer writes no byte below [c0], a bound on the
    cursor unless the cursor is past the end. *)
Lemma writer_call_arena w st s st' c0 :
  store_inv st → writer_call w st = Some (s, st') →
  c0 <= Arena.offset_ (Hyperion.arena_ st) ∨
    Arena.size_ (Hyperion.arena_ st) < Arena.offset_ (Hyperion.arena_ st) →
  Arena.size_ (Hyperion.arena_ st') = Arena.size_ (Hyperion.arena_ st) ∧
  (∀ x, x < c0 → Arena.base_ (Hyperion.arena_ st') x = Arena.base_ (Hyperion.arena_ st) x) ∧
  (c0 <= Arena.offset_ (Hyperion.arena_ st') ∨
   Arena.size_ (Hyperion.arena_ st') < Arena.offset_ (Hyperion.arena_ st')).
Proof.
  intros Hinv H Hc0. pose proof Hinv as (((Hs & Hc) & _) & Hbig & _).
  destruct w as [key val | key]; simpl in H.
  - destruct s.
    + apply put_OK_inv in H as (Hk & Hv & Hfit & Hseq & a2 & r & b & ix' & Hw & _ & _ & ->).
      apply write_entry_inv in Hw as (He & Hsz & Hoff & Hout); [| done | done].
      simpl in Hsz, Hoff, Hout |- *.
      pose proof (needed_bounds key val Hk Hv) as Hn.
      pose proof (size_nonneg key). pose proof (size_nonneg val).
      destruct He as (Hoff0 & Hb & _). rewrite Hsz in Hb. unfold HEADER in *.
      assert (Arena.offset_ a2 = Arena.offset_ (Hyperion.arena_ st) + Hyperion.needed key val)
        as Hcur by (rewrite Hoff; apply u32_small; lia).
      split; [done |]. split; [| lia].
      intros x Hx. apply Hout. lia.
    + apply put_rejected in H as (_ & ->); done.
    + apply put_rejected in H as (_ & ->); done.
    + apply put_ArenaFull_inv in H as (_ & _ & Hfull & ->). simpl.
      split; [done |]. split; [done |]. by right.
    + apply put_rejected in H as ([? | ?] & _); done.
  - apply del_inv in H as (_ & r & b & _ & Hcase). destruct b.
    + destruct Hcase as (_ & s0 & _ & ->). done.
    + destruct Hcase as (_ & ->). done.
Qed.

Lemma writer_call_aligned w st s st' :
  store_inv st → aligned_ok st → writer_call w st = Some (s, st') → aligned_ok st'.
Proof.
  intros Hinv (Hlow & Hmod & Hall) H.
  pose proof Hinv as (((Hs & Hc) & _) & Hbig & _).
  destruct w as [key val | key]; simpl in H.
  - destruct s.
    + apply put_OK_inv in H as (Hk & Hv & Hfit & Hseq & a2 & r & b & ix' & Hw & _ & Hu & ->).
      apply write_entry_inv in Hw as (He & Hsz & Hoff & Hout); [| done | done].
      apply update_inv in Hu as ->.
      simpl in Hsz, Hoff, Hout. unfold aligned_ok, index. simpl.
      pose proof (needed_bounds key val Hk Hv) as Hn.
      pose proof (needed_eq key val Hk Hv) as Hn8.
      pose proof (size_nonneg key). pose proof (size_nonneg val).
      destruct He as (Hoff0 & Hb & _). rewrite Hsz in Hb. unfold HEADER in *.
      assert (Arena.offset_ a2 = Arena.offset_ (Hyperion.arena_ st) + Hyperion.needed key val)
        as Hcur by (rewrite Hoff; apply u32_small; lia).
      split; [lia |]. split.
      * rewrite Hcur, Hn8. rewrite Z.add_mod, Hmod by lia.
        rewrite (Z.mul_comm 8), Z_mod_mult. done.
      * apply Forall_insert; [done |]. simpl. intros _. split; [lia | done].
    + apply put_rejected in H as (_ & ->); done.
    + apply put_rejected in H as (_ & ->); done.
    + apply put_ArenaFull_inv in H as (Hk & Hv & Hfull & ->).
      unfold aligned_ok, index. simpl.
      split; [by right |]. split; [| done].
      rewrite u32_mod8, (needed_eq key val Hk Hv). rewrite Z.add_mod, Hmod by lia.
      rewrite (Z.mul_comm 8), Z_mod_mult. done.
    + apply put_rejected in H as ([? | ?] & _); done.
  - apply del_inv in H as (_ & r & b & _ & Hcase). destruct b.
    + destruct Hcase as (_ & s0 & _ & ->).
      unfold aligned_ok, index. simpl.
      split; [done |]. split; [done |]. apply Forall_insert; [done |]. done.
    + destruct Hcase as (_ & ->). done.
Qed.

(** ** The store against the dictionary *)

Lemma needed_record_size key val :
  size key <= MAX_KEY → size val <= MAX_VAL →
  Hyperion.needed key val = record_size key val.
Proof. apply needed_eq. Qed.

Lemma demand_nonneg ws : 0 <= demand ws.
Proof.
  induction ws as [|[k v|k] ws IH]; simpl; [lia | | done].
  case_bool_decide as H; [| lia]. unfold record_size.
  pose proof (size_nonneg k). pose proof (size_nonneg v). unfold HEADER.
  assert (0 <= (8 + size k + size v + 7) / 8) by (apply Z.div_pos; lia). lia.
Qed.

(** One put, in the store and in the dictionary. *)
Lemma refine_put key val st d :
  store_inv st → refines st d →
  Z.of_nat (used (index st)) < Index.capacity_ (index st) →
  Dict.cursor d + demand [W_put key val] < 2 ^ 32 →
  ∃ st', Hyperion.put key val st = Some (fst (Dict.put key val d), st') ∧
    store_inv st' ∧ refines st' (snd (Dict.put key val d)) ∧
    (used (index st') <= S (used (index st)))%nat ∧
    Index.capacity_ (index st') = Index.capacity_ (index st).
Proof.
  intros Hinv Href Hroom Hdem. pose proof Href as (Hcur & Hlim & Hget).
  pose proof Hinv as (Hwf & _). pose proof Hwf as ((Hs & Hc) & _).
  unfold Dict.put. case_bool_decide as Hk.
  { exists st. simpl. unfold Hyperion.put.
    replace (size key >? MAX_KEY) with true by (symmetry; lia).
    split; [done |]. split; [done |]. split; [done |]. split; [lia | done]. }
  case_bool_decide as Hv.
  { exists st. simpl. unfold Hyperion.put.
    replace (size key >? MAX_KEY) with false by (symmetry; lia).
    replace (size val >? MAX_VAL) with true by (symmetry; lia).
    split; [done |]. split; [done |]. split; [done |]. split; [lia | done]. }
  assert (size key <= MAX_KEY) as Hk' by lia.
  assert (size val <= MAX_VAL) as Hv' by lia.
  pose proof (needed_record_size key val Hk' Hv') as Hn.
  pose proof (needed_pos key val Hk' Hv') as Hpos.
  simpl in Hdem. rewrite bool_decide_eq_true_2 in Hdem by done.
  case_bool_decide as Hfull; simpl.
  - assert (u32 (Arena.offset_ (Hyperion.arena_ st) + Hyperion.needed key val)
            = Dict.cursor d + record_size key val) as Hu.
    { rewrite Hn, Hcur. apply u32_small. lia. }
    pose proof (put_ArenaFull key val st Hk' Hv' ltac:(lia)) as Hput.
    eexists. split; [exact Hput |].
    split; [by eapply put_inv |].
    destruct (put_ArenaFull_effect _ _ _ _ Hput) as (_ & _ & Hsz & Hoff & Hg & _).
    split; [| split; [unfold index; simpl; lia | done]].
    split; [by rewrite Hoff |]. split; [by rewrite Hsz |].
    intros k out. rewrite Hg. apply Hget.
  - destruct (put_succeeds key val st Hinv Hk' Hv' ltac:(lia)) as (st' & Hput & Hoff & Hsz).
    exists st'. split; [done |].
    pose proof (put_inv _ _ _ _ _ Hinv Hput) as Hinv'.
    split; [done |]. split.
    + split; [simpl; lia |]. split; [simpl; lia |].
      intros k out. unfold Dict.get. simpl. case_bool_decide as Hkk.
      * subst k. by eapply put_get.
      * rewrite (get_same_records k out st st' Hinv Hinv').
        { apply Hget. }
        intros v. eapply put_frame; [done | done | by apply used_room | done].
    + destruct (put_OK_steps _ _ _ _ Hinv Hput) as (a2 & r & b & _ & _ & _ & _ & _ & _ & ->).
      split; [apply used_with_slot_le | done].
Qed.

(** One delete, in the store and in the dictionary. *)
Lemma refine_del key st d :
  store_inv st → refines st d →
  ∃ st', Hyperion.del key st = Some (fst (Dict.del key d), st') ∧
    store_inv st' ∧ refines st' (snd (Dict.del key d)) ∧
    used (index st') = used (index st) ∧
    Index.capacity_ (index st') = Index.capacity_ (index st).
Proof.
  intros Hinv Href. pose proof Href as (Hcur & Hlim & Hget).
  pose proof Hinv as (Hwf & _ & Hrec & Hchain & Huniq).
  pose proof Hwf as (_ & Hidle & Hix).
  destruct (lock_idle_flags _ Hidle) as (Hodd & Hland).
  destruct (del_spec key st Hwf Hrec Huniq) as (r & b & st' & Hf & Hdel & Harena & Hcase).
  destruct (del_steps _ _ _ _ Hinv Hdel) as (Hinv' & Hframe).
  pose proof (del_inv _ _ _ _ Hdel) as (_ & r' & b' & Hf' & Hst').
  rewrite Hf in Hf'. injection Hf' as <- <-.
  exists st'. destruct b.
  - destruct (find_true_holds st Hwf Hrec key r Hf) as (v & Hv).
    pose proof (get_holds st Hwf key [] r v Hf Hv) as Hg.
    rewrite Hget in Hg. unfold Dict.get in Hg. unfold Dict.del.
    destruct (Dict.table d key) as [v0|] eqn:Ht; [| done]. simpl.
    split; [done |]. split; [done |].
    destruct Hcase as (s0 & Hs0 & _ & _ & Hnf).
    destruct Hst' as (_ & s0' & Hs0' & ->). rewrite Hs0 in Hs0'. injection Hs0' as <-.
    split.
    + split; [by rewrite Harena |]. split; [by rewrite Harena |].
      intros k out. unfold Dict.get. simpl. case_bool_decide as Hkk.
      * subst k. apply Hnf.
      * rewrite (get_same_records k out st _ Hinv Hinv'); [apply Hget |].
        intros v'. by apply Hframe.
    + split; [| done]. simpl.
      pose proof (find_result_range _ _ _ _ _ _ Hix (proj1 (hash_range key)) Hf) as Hr.
      apply (used_with_slot _ r _ s0); [lia | done |].
      destruct (find_true_matches _ _ _ _ _ Hix (proj1 (hash_range key)) Hf)
        as (s1 & Hs1 & Hne & _).
      rewrite Hs0 in Hs1. injection Hs1 as <-. rewrite Hne. done.
  - pose proof (get_run key [] st r false Hodd Hf) as Hg. simpl in Hg.
    rewrite Hget in Hg. unfold Dict.get in Hg. unfold Dict.del.
    destruct (Dict.table d key) as [v0|] eqn:Ht; [done |]. simpl.
    destruct Hst' as (_ & ->).
    split; [done |]. split; [done |]. split; [| done].
    split; [done |]. split; [done |].
    intros k out. rewrite get_bumped by done. apply Hget.
Qed.

(** A run of the writer, in the store and in the dictionary: with a slot
    to spare for every put and less than [2^32] bytes asked for. *)
Lemma refine_run ws : ∀ st d,
  store_inv st → refines st d →
  Z.of_nat (used (index st)) + Z.of_nat (puts ws) <= Index.capacity_ (index st) →
  Dict.cursor d + demand ws < 2 ^ 32 →
  ∃ st', writer_log ws st = Some (fst (Dict.log ws d), st') ∧
    store_inv st' ∧ refines st' (snd (Dict.log ws d)).
Proof.
  induction ws as [|w ws IH]; intros st d Hinv Href Hroom Hdem.
  - exists st. done.
  - pose proof (demand_nonneg ws) as Hd0.
    destruct w as [key val | key].
    + destruct (refine_put key val st d Hinv Href) as (st1 & Hput & Hinv1 & Href1 & Hu1 & Hcap1).
      { simpl in Hroom. lia. }
      { simpl in Hdem |- *. lia. }
      destruct (IH st1 (snd (Dict.put key val d)) Hinv1 Href1) as (st' & Hlog & Hinv' & Href').
      { simpl in Hroom. lia. }
      { assert (Dict.cursor (Dict.put key val d).2 + demand ws <= Dict.cursor d + demand (W_put key val :: ws)); [| lia].
        simpl. unfold Dict.put.
        repeat case_bool_decide; simpl; try lia.
        all: pose proof (size_nonneg key); pose proof (size_nonneg val);
          unfold record_size, HEADER;
          assert (0 <= (8 + size key + size val + 7) / 8) by (apply Z.div_pos; lia); lia. }
      exists st'. simpl. rewrite Hput. simpl. rewrite Hlog. simpl.
      destruct (Dict.put key val d) as [s d1]. simpl in *.
      destruct (Dict.log ws d1) as [ss d2]. done.
    + destruct (refine_del key st d Hinv Href) as (st1 & Hdel & Hinv1 & Href1 & Hu1 & Hcap1).
      destruct (IH st1 (snd (Dict.del key d)) Hinv1 Href1) as (st' & Hlog & Hinv' & Href').
      { simpl in Hroom. lia. }
      { assert (Dict.cursor (Dict.del key d).2 = Dict.cursor d) as ->; [| by simpl in Hdem].
        unfold Dict.del. by destruct (Dict.table d key). }
      exists st'. simpl. rewrite Hdel. simpl. rewrite Hlog. simpl.
      destruct (Dict.del key d) as [s d1]. simpl in *.
      destruct (Dict.log ws d1) as [ss d2]. done.
Qed.

Lemma init_used slots : used (Index.init slots) = 0%nat.
Proof.
  unfold used, Index.init. simpl.
  induction (Z.to_nat (Index.next_pow2 (Z.max slots 8))) as [|n IH]; [done |].
  simpl. exact IH.
Qed.

Lemma fresh_get bytes slots key out :
  0 <= bytes → bytes + 8 <= 2 ^ 32 → 0 <= slots <= 2 ^ 31 →
  Hyperion.get key out (fst (Hyperion.create bytes slots true)) = Some (NotFound, out).
Proof.
  intros Hb Hb' Hs.
  destruct (create_inv bytes slots Hb Hb' Hs) as (Hc & Hinv).
  pose proof Hinv as (Hwf & _ & Hrec & Hchain & Huniq).
  destruct (get_spec _ Hwf Hrec key out Hchain Huniq) as [(r & v & Hh & _) | (_ & Hg)]; [| done].
  rewrite Hc in Hh. destruct Hh as (_ & s & Hs' & Hvalid & _).
  apply init_all_empty in Hs' as ->. done.
Qed.

Lemma fresh_refines bytes slots :
  0 <= bytes → bytes + 8 <= 2 ^ 32 → 0 <= slots <= 2 ^ 31 →
  refines (fst (Hyperion.create bytes slots true)) (Dict.create bytes).
Proof.
  intros Hb Hb' Hs. destruct (create_inv bytes slots Hb Hb' Hs) as (Hc & _).
  split; [by rewrite Hc |]. split; [by rewrite Hc |].
  intros key out. by apply fresh_get.
Qed.

(** ** The workload of the benchmark *)

Lemma digits_length fuel : ∀ n acc,
  (length (digits fuel n acc) <= fuel + length acc)%nat.
Proof.
  induction fuel as [|fuel IH]; intros n acc; simpl; [lia |].
  destruct (n / 10 =? 0); simpl; [lia |].
  specialize (IH (n / 10) (byte_of (48 + n mod 10) :: acc)). simpl in IH. lia.
Qed.

Lemma bench_keys_size count k : k ∈ bench_keys count → size k <= 14.
Proof.
  unfold bench_keys. intros Hk. apply list_elem_of_fmap in Hk as (i & -> & _).
  unfold size. rewrite length_app. unfold to_string.
  pose proof (digits_length 10 (Z.of_nat i) []) as H.
  change (length (@nil byte)) with 0%nat in H.
  change (length (bytes "key:")) with 4%nat. lia.
Qed.

Lemma bench_insert_log keys val : ∀ db,
  bench_insert keys val db = writer_log (map (λ k, W_put k val) keys) db.
Proof.
  induction keys as [|k keys IH]; intros db; simpl; [done |].
  destruct (Hyperion.put k val db) as [[s db1]|]; simpl; [| done].
  by rewrite IH.
Qed.

Lemma puts_map keys val : puts (map (λ k, W_put k val) keys) = length keys.
Proof. induction keys as [|k keys IH]; simpl; [done | by rewrite IH]. Qed.

Lemma record_size_bench k v :
  0 <= size k <= 14 → size v = 60 → 0 <= record_size k v <= 88.
Proof.
  intros Hk Hv. unfold record_size, HEADER. rewrite Hv.
  Z.div_mod_to_equations. lia.
Qed.

Lemma demand_bench keys v :
  Forall (λ k, size k <= 14) keys → size v = 60 →
  0 <= demand (map (λ k, W_put k v) keys) <= 88 * Z.of_nat (length keys).
Proof.
  intros Hall Hv. induction Hall as [|k keys Hk _ IH]; simpl; [lia |].
  pose proof (size_nonneg k).
  pose proof (record_size_bench k v ltac:(lia) Hv).
  case_bool_decide; lia.
Qed.

Lemma dict_puts keys v : ∀ d,
  Forall (λ k, size k <= 14) keys → size v = 60 →
  Dict.cursor d + 88 * Z.of_nat (length keys) <= Dict.limit d →
  fst (Dict.log (map (λ k, W_put k v) keys) d) = replicate (length keys) OK ∧
  (∀ k, k ∈ keys → Dict.table (snd (Dict.log (map (λ k, W_put k v) keys) d)) k = Some v) ∧
  (∀ k, Dict.table d k = Some v →
        Dict.table (snd (Dict.log (map (λ k, W_put k v) keys) d)) k = Some v).
Proof.
  induction keys as [|k keys IH]; intros d Hall Hv Hfit.
  - simpl. split; [done |]. split; [| done]. intros k Hk. by apply elem_of_nil in Hk.
  - apply list.Forall_cons in Hall as (Hk & Hall).
    pose proof (size_nonneg k) as Hk0.
    pose proof (record_size_bench k v ltac:(lia) Hv) as Hrs.
    assert (Dict.put k v d =
            (OK, Dict.mk (λ k', if bool_decide (k' = k) then Some v else Dict.table d k')
                         (Dict.cursor d + record_size k v) (Dict.limit d))) as Hput.
    { unfold Dict.put, MAX_KEY, MAX_VAL.
      rewrite bool_decide_eq_false_2 by lia. rewrite bool_decide_eq_false_2 by lia.
      rewrite bool_decide_eq_false_2; [done |].
      rewrite length_cons in Hfit. lia. }
    cbn [map Dict.log Dict.call]. rewrite Hput.
    destruct (IH (Dict.mk (λ k', if bool_decide (k' = k) then Some v else Dict.table d k')
                          (Dict.cursor d + record_size k v) (Dict.limit d)) Hall Hv)
      as (Hss & Hin & Hkeep).
    { simpl. rewrite length_cons in Hfit. lia. }
    destruct (Dict.log _ _) as [ss d2]. simpl in *.
    split; [by rewrite Hss |]. split.
    + intros k' Hk'. apply elem_of_cons in Hk' as [-> | Hk'].
      * apply Hkeep. by rewrite bool_decide_eq_true_2.
      * by apply Hin.
    + intros k' Hk'. apply Hkeep. case_bool_decide; done.
Qed.

Lemma bench_read_hits keys v db : ∀ out,
  (∀ k out, k ∈ keys → Hyperion.get k out db = Some (OK, v)) →
  bench_read keys out db =
    Some (replicate (length keys) OK, match keys with [] => out | _ => v end).
Proof.
  induction keys as [|k keys IH]; intros out Hget; [done |].
  simpl. rewrite (Hget k out) by apply list_elem_of_here. simpl.
  rewrite IH by (intros k' out' Hk'; apply Hget; by apply list_elem_of_further).
  simpl. by destruct keys.
Qed.

(** ** Runs that do not carry the cursor to [2^32] *)

(** While the requests do not carry the cursor to [2^32], a call of the
    writer returns; the cursor moves on by what the call asked for. *)
Lemma writer_call_defined w st :
  store_inv st →
  Arena.offset_ (Hyperion.arena_ st) + demand [w] < 2 ^ 32 →
  ∃ s st', writer_call w st = Some (s, st') ∧ store_inv st' ∧
    Arena.offset_ (Hyperion.arena_ st') = Arena.offset_ (Hyperion.arena_ st) + demand [w].
Proof.
  intros Hinv Hdem. pose proof Hinv as (((Hs & Hc) & _) & _).
  destruct w as [key val | key].
  - cbn [demand] in Hdem |- *. cbn [writer_call].
    destruct (decide (size key <= MAX_KEY ∧ size val <= MAX_VAL)) as [(Hk & Hv) | Hbad].
    + rewrite bool_decide_eq_true_2 in Hdem |- * by done.
      rewrite <- (needed_record_size key val Hk Hv) in Hdem |- *.
      pose proof (needed_pos key val Hk Hv) as Hpos.
      destruct (decide (Arena.offset_ (Hyperion.arena_ st) + Hyperion.needed key val
                        <= Arena.size_ (Hyperion.arena_ st))) as [Hfit | Hfull].
      * destruct (put_succeeds key val st Hinv Hk Hv Hfit) as (st' & Hput & Hoff & _).
        exists OK, st'. split; [done |]. split; [by eapply put_inv | lia].
      * assert (u32 (Arena.offset_ (Hyperion.arena_ st) + Hyperion.needed key val)
                = Arena.offset_ (Hyperion.arena_ st) + Hyperion.needed key val) as Hu
          by (apply u32_small; lia).
        pose proof (put_ArenaFull key val st Hk Hv ltac:(lia)) as Hput.
        eexists _, _. split; [exact Hput |].
        split; [by eapply put_inv |]. simpl. lia.
    + rewrite bool_decide_eq_false_2 in Hdem |- * by done.
      exists (if bool_decide (MAX_KEY < size key) then KeyTooLong else ValTooLong), st.
      split; [| split; [done | lia]].
      unfold Hyperion.put. case_bool_decide as Hk.
      * by replace (size key >? MAX_KEY) with true by (symmetry; lia).
      * assert (MAX_VAL < size val) as Hv
          by (destruct (decide (MAX_VAL < size val)); [done | exfalso; apply Hbad; lia]).
        replace (size key >? MAX_KEY) with false by (symmetry; lia).
        by replace (size val >? MAX_VAL) with true by (symmetry; lia).
  - cbn [demand writer_call].
    pose proof Hinv as (Hwf & _ & Hrec & _ & Huniq).
    destruct (del_spec key st Hwf Hrec Huniq) as (r & b & st' & _ & Hdel & Harena & _).
    exists (if b then OK else NotFound), st'. split; [done |].
    split; [by eapply del_steps |]. rewrite Harena. lia.
Qed.

Lemma demand_cons w ws : demand (w :: ws) = demand [w] + demand ws.
Proof. destruct w; simpl; lia. Qed.

(** Such a run of the writer returns, in a state that satisfies the
    invariant. *)
Lemma writer_log_defined ws : ∀ st,
  store_inv st →
  Arena.offset_ (Hyperion.arena_ st) + demand ws < 2 ^ 32 →
  ∃ ss st', writer_log ws st = Some (ss, st') ∧ store_inv st' ∧
    Arena.offset_ (Hyperion.arena_ st') = Arena.offset_ (Hyperion.arena_ st) + demand ws.
Proof.
  induction ws as [|w ws IH]; intros st Hinv Hdem.
  - exists [], st. split; [done |]. split; [done |]. simpl. lia.
  - rewrite demand_cons in Hdem |- *.
    pose proof (demand_nonneg ws) as Hws. pose proof (demand_nonneg [w]) as Hw.
    destruct (writer_call_defined w st Hinv ltac:(lia)) as (s & st1 & Hcall & Hinv1 & Hoff1).
    destruct (IH st1 Hinv1 ltac:(lia)) as (ss & st' & Hlog & Hinv' & Hoff').
    exists (s :: ss), st'. split; [| split; [done | lia]].
    cbn [writer_log]. rewrite Hcall. cbn [mbind option_bind]. rewrite Hlog. done.
Qed.

(** A sequence of operations on one key is a run of the writer. *)
Lemma run_writer_log key ops : ∀ st,
  run key ops st = snd <$> writer_log (map (on_key key) ops) st.
Proof.
  induction ops as [|o ops IH]; intros st; [done |].
  cbn [run map writer_log].
  assert (apply_op key o st = snd <$> writer_call (on_key key o) st) as -> by by destruct o.
  destruct (writer_call (on_key key o) st) as [[s st1]|]; [| done].
  cbn [fmap option_fmap option_map mbind option_bind snd]. rewrite IH.
  by destruct (writer_log (map (on_key key) ops) st1) as [[ss st2]|].
Qed.

Lemma run_defined key ops st :
  store_inv st →
  Arena.offset_ (Hyperion.arena_ st) + demand (map (on_key key) ops) < 2 ^ 32 →
  ∃ st', run key ops st = Some st'.
Proof.
  intros Hinv Hdem.
  destruct (writer_log_defined _ st Hinv Hdem) as (ss & st' & Hlog & _).
  exists st'. by rewrite run_writer_log, Hlog.
Qed.

(** A run of the writer writes no byte below [c0], a bound on the cursor
    unless the cursor is past the end. *)
Lemma writer_log_arena ws c0 : ∀ st ss st',
  store_inv st → writer_log ws st = Some (ss, st') →
  c0 <= Arena.offset_ (Hyperion.arena_ st) ∨
    Arena.size_ (Hyperion.arena_ st) < Arena.offset_ (Hyperion.arena_ st) →
  Arena.size_ (Hyperion.arena_ st') = Arena.size_ (Hyperion.arena_ st) ∧
  ∀ x, x < c0 →
    Arena.base_ (Hyperion.arena_ st') x = Arena.base_ (Hyperion.arena_ st) x.
Proof.
  induction ws as [|w ws IH]; intros st ss st' Hinv H Hc0.
  - simpl in H. by injection H as <- <-.
  - apply writer_log_cons in H as (s & st1 & ss' & Hc & Hl & ->).
    destruct (writer_call_arena _ _ _ _ c0 Hinv Hc Hc0) as (Hsz1 & Hb1 & Hc1).
    destruct (IH st1 ss' st' (writer_call_inv _ _ _ _ Hinv Hc) Hl) as (Hsz & Hb).
    { by rewrite Hsz1 in Hc1 |- *. }
    split; [congruence |]. intros x Hx. rewrite Hb by done. by apply Hb1.
Qed.

Lemma writer_log_aligned ws : ∀ st ss st',
  store_inv st → aligned_ok st → writer_log ws st = Some (ss, st') → aligned_ok st'.
Proof.
  induction ws as [|w ws IH]; intros st ss st' Hinv Hal H.
  - simpl in H. by injection H as <- <-.
  - apply writer_log_cons in H as (s & st1 & ss' & Hcall & Hl & ->).
    apply (IH st1 ss' st'); [by eapply writer_call_inv | by eapply writer_call_aligned | done].
Qed.

(** * The claims *)

Lemma roomyb_sound key ops : ∀ st, roomyb key ops st = true → roomy key ops st.
Proof.
  induction ops as [|o ops IH]; intros st H; [done |].
  simpl in H. apply andb_true_iff in H as [Hnow Hlater]. split.
  - destruct o; [| done]. intros (Hall & _).
    apply negb_true_iff in Hnow. apply not_true_iff_false in Hnow. apply Hnow.
    apply forallb_forall. intros s Hs. rewrite Forall_forall in Hall. by apply Hall.
  - intros st' Hop. rewrite Hop in Hlater. by apply IH.
Qed.

Lemma store16_inv : store_inv store16.
Proof. apply create_inv; lia. Qed.

Lemma store16_a_put :
  Hyperion.put user1001 balance5000 store16 = Some (OK, store16_a).
Proof. vm_compute. reflexivity. Qed.

Lemma store16_b_put :
  Hyperion.put user1002 balance0 store16 = Some (OK, store16_b).
Proof. vm_compute. reflexivity. Qed.

Lemma store16_a_inv : store_inv store16_a.
Proof. exact (put_inv _ _ _ _ _ store16_inv store16_a_put). Qed.

Lemma store16_b_inv : store_inv store16_b.
Proof. exact (put_inv _ _ _ _ _ store16_inv store16_b_put). Qed.

(** ** C1 *)

(** C1 (P1, round trip): on a well-formed store, for every key of at most
    255 bytes and value of at most 65535 bytes, if [put key val] returns
    OK then the [get key] that follows returns OK and leaves exactly the
    bytes of [val] in the output buffer, whatever the buffer held. *)
Theorem put_then_get (key val out : list byte) (st st' : Hyperion.t) :
  store_wf st →
  size key <= MAX_KEY → size val <= MAX_VAL →
  Hyperion.put key val st = Some (OK, st') →
  Hyperion.get key out st' = Some (OK, val).
Proof. intros Hwf _ _ Hput. by eapply put_get. Qed.

Lemma put_then_get_witness :
  Hyperion.get user1001 [] store16_a = Some (OK, balance5000).
Proof.
  apply (put_then_get user1001 balance5000 [] store16 store16_a).
  - apply store16_inv.
  - vm_compute. discriminate.
  - vm_compute. discriminate.
  - apply store16_a_put.
Defined.

(** ** C2 *)

(** C2, as stated, fails: on [create(64, 8)] the put of a 60-byte value is
    answered ArenaFull and moves the cursor from 8 to 80, and a put that
    would have succeeded before is answered ArenaFull after it. *)
Lemma failed_put_changes_state :
  Hyperion.put (bytes "k") value60 store64 = Some (ArenaFull, store64_full) ∧
  Arena.offset_ (Hyperion.arena_ store64) = 8 ∧
  Arena.offset_ (Hyperion.arena_ store64_full) = 80 ∧
  fst <$> Hyperion.put (bytes "a") (bytes "b") store64 = Some OK ∧
  fst <$> Hyperion.put (bytes "a") (bytes "b") store64_full = Some ArenaFull.
Proof. vm_compute. repeat split; reflexivity. Qed.

(** C2 (amended): when [put] returns ArenaFull the index (slots and
    sequence number), the contents and the size of the arena are
    unchanged, and every [get] and the status of every [delete] are what
    they were; only the cursor has moved on by the size of the request. *)
Theorem failed_put_effect (key val : list byte) (st st' : Hyperion.t) :
  Hyperion.put key val st = Some (ArenaFull, st') →
  Hyperion.index_ st' = Hyperion.index_ st ∧
  Arena.base_ (Hyperion.arena_ st') = Arena.base_ (Hyperion.arena_ st) ∧
  Arena.size_ (Hyperion.arena_ st') = Arena.size_ (Hyperion.arena_ st) ∧
  Arena.offset_ (Hyperion.arena_ st') =
    u32 (Arena.offset_ (Hyperion.arena_ st) + Hyperion.needed key val) ∧
  (∀ k out, Hyperion.get k out st' = Hyperion.get k out st) ∧
  (∀ k, fst <$> Hyperion.del k st' = fst <$> Hyperion.del k st).
Proof. apply put_ArenaFull_effect. Qed.

Lemma failed_put_effect_witness :
  Hyperion.index_ store64_full = Hyperion.index_ store64 ∧
  Arena.offset_ (Hyperion.arena_ store64_full) =
    u32 (Arena.offset_ (Hyperion.arena_ store64) + Hyperion.needed (bytes "k") value60).
Proof.
  destruct (failed_put_effect (bytes "k") value60 store64 store64_full)
    as (H1 & _ & _ & H4 & _).
  - vm_compute. reflexivity.
  - exact (conj H1 H4).
Defined.

(** ** C3 *)

(** C3 fails on the code.  On [create(64, 8)] a put of a 60-byte value is
    answered ArenaFull; so are the next 65527 puts of a 65535-byte value,
    which leave the cursor at 4294901768.  The request of the following
    put ends exactly at [2^32]: the sum wraps to 0, [alloc] reports
    success with an offset far outside the 64-byte mapping and resets the
    cursor to 0, and [put] goes on to write the record there instead of
    returning ArenaFull. *)
Theorem arena_full_not_sticky :
  Hyperion.put (bytes "k") value60 store64 = Some (ArenaFull, store64_full) ∧
  puts_full 65527 (bytes "k") value_max store64_full
    = Some (at_cursor store64_full 4294901768) ∧
  Arena.alloc (Hyperion.arena_ (at_cursor store64_full 4294901768))
              (Hyperion.needed (bytes "k") value_wrap)
    = (AE_None, Some 4294901768,
       Hyperion.arena_ (at_cursor store64_full 0)) ∧
  Hyperion.put (bytes "k") value_wrap (at_cursor store64_full 4294901768) = None.
Proof.
  split; [vm_compute; reflexivity |]. split; [| split; vm_compute; reflexivity].
  assert (Hyperion.needed (bytes "k") value_max = 65544) as Hn by (vm_compute; reflexivity).
  rewrite puts_full_run.
  - rewrite Hn. reflexivity.
  - vm_compute. discriminate.
  - vm_compute. discriminate.
  - vm_compute. split; [discriminate | reflexivity].
  - rewrite Hn. vm_compute. reflexivity.
Qed.

(** ** C4 *)

(** C4, as stated, fails: on [create(1 << 16, 8)] with the eight keys "a"
    to "h" stored, the index has no EMPTY slot and no tombstone; the put
    of a ninth key "i" returns OK and overwrites the slot of "a" (the
    home bucket of "i"), after which [get "a"] returns NotFound. *)
Lemma saturated_put_evicts :
  put_all eight_keys store8 = Some store8_full ∧
  bytes "i" ≠ bytes "a" ∧
  run (bytes "i") [Put (bytes "i")] store8_full = Some store8_ninth ∧
  Hyperion.get (bytes "a") [] store8_full = Some (OK, bytes "a") ∧
  Hyperion.get (bytes "a") [] store8_ninth = Some (NotFound, []).
Proof.
  split; [vm_compute; reflexivity |]. split; [discriminate |].
  split; [vm_compute; reflexivity |]. split; vm_compute; reflexivity.
Qed.

(** C4 (amended): in a state that satisfies the data-model invariants
    (they hold after create and are kept by puts and deletes as long as
    the requests do not carry the 32-bit cursor to [2^32]), for distinct
    keys [k1] and [k2] and every sequence of puts and deletes on [k1]
    that asks for fewer arena bytes than would carry the cursor to [2^32]
    and none of whose puts starts on an index saturated for [k1] (every
    slot valid and none holding [k1]), the sequence runs to its end, and
    [get k2] has a result before the sequence and the same result after
    it. *)
Theorem other_key_unchanged (k1 k2 out : list byte) (ops : list op)
    (st : Hyperion.t) :
  store_inv st → k1 ≠ k2 → roomy k1 ops st →
  Arena.offset_ (Hyperion.arena_ st) + demand (map (on_key k1) ops) < 2 ^ 32 →
  ∃ st' res, run k1 ops st = Some st' ∧
             Hyperion.get k2 out st = Some res ∧
             Hyperion.get k2 out st' = Some res.
Proof.
  intros Hinv Hne Hroom Hdem.
  destruct (run_defined k1 ops st Hinv Hdem) as (st' & Hrun).
  destruct (run_frame k1 ops st st' k2 out Hinv Hrun Hroom ltac:(congruence))
    as (_ & Hsame).
  destruct Hinv as (Hwf & _ & Hrec & Hch & Hun).
  destruct (get_spec st Hwf Hrec k2 out Hch Hun) as [(r & v & _ & Hg) | [_ Hg]].
  - exists st', (OK, v). by rewrite Hsame.
  - exists st', (NotFound, out). by rewrite Hsame.
Qed.

Lemma other_key_unchanged_witness :
  ∃ st' res,
    run user1001 [Put balance5000; Del; Put balance0] store16_b = Some st' ∧
    Hyperion.get user1002 [] store16_b = Some res ∧
    Hyperion.get user1002 [] st' = Some res.
Proof.
  apply (other_key_unchanged user1001 user1002 []
           [Put balance5000; Del; Put balance0] store16_b).
  - apply store16_b_inv.
  - discriminate.
  - apply roomyb_sound. vm_compute. reflexivity.
  - vm_compute. reflexivity.
Defined.

(** ** C5 *)

(** C5 (P4, tombstone reuse): on a well-formed store, for a key and two
    values within the limits, after [put key v], [del key], [put key v']
    that all return OK, [get key] returns OK with [v'] and the number of
    slots that are not EMPTY is what it was after the first put. *)
Theorem tombstone_reuse (key v v' out : list byte)
    (st st1 st2 st3 : Hyperion.t) :
  store_wf st →
  size key <= MAX_KEY → size v <= MAX_VAL → size v' <= MAX_VAL →
  Hyperion.put key v st = Some (OK, st1) →
  Hyperion.del key st1 = Some (OK, st2) →
  Hyperion.put key v' st2 = Some (OK, st3) →
  Hyperion.get key out st3 = Some (OK, v') ∧
  used (index st3) = used (index st1).
Proof. intros Hwf _ _ _. apply put_del_put. exact Hwf. Qed.

Lemma tombstone_reuse_witness :
  let st2 := after (Hyperion.del user1001 store16_a) in
  let st3 := after (Hyperion.put user1001 balance0 st2) in
  Hyperion.get user1001 [] st3 = Some (OK, balance0) ∧
  used (index st3) = used (index store16_a).
Proof.
  intros st2 st3.
  apply (tombstone_reuse user1001 balance5000 balance0 [] store16 store16_a st2 st3).
  - apply store16_inv.
  - vm_compute. discriminate.
  - vm_compute. discriminate.
  - vm_compute. discriminate.
  - apply store16_a_put.
  - vm_compute. reflexivity.
  - vm_compute. reflexivity.
Defined.

(** ** C6 *)



(** ** C7 *)

(** C7 (hash): the hash of the code is 32-bit FNV-1a as the specification
    words it; [find] probes with the tag [h >> 24] from the slot index
    [h & mask], which it returns when that slot is EMPTY; and the slot
    that a successful [put] writes carries the tag [h >> 24]. *)
Theorem hash_is_fnv1a (key : list byte) :
  let h := fnv1a key in
  Index.hash key = h ∧
  (∀ ix klen eq,
     Index.find ix (Index.hash key) klen eq =
     Index.find_loop ix (h ≫ 24) klen eq (Z.to_nat (Index.capacity_ ix))
                     (Z.land h (Index.mask_ ix)) UINT32_MAX) ∧
  (∀ ix klen eq s,
     0 < Index.capacity_ ix →
     Index.at_ ix (Z.land h (Index.mask_ ix)) = Some s →
     Slot.is_empty s = true →
     Index.find ix (Index.hash key) klen eq = Some (Z.land h (Index.mask_ ix), false)) ∧
  (∀ val st st',
     Hyperion.put key val st = Some (OK, st') →
     ∃ r, Index.at_ (index st') r =
          Some (Slot.mk (h ≫ 24) (size key) (size val)
                        (Arena.offset_ (Hyperion.arena_ st)) 0)).
Proof.
  cbv zeta. pose proof (hash_fnv1a key) as Hh.
  pose proof (hash_tag_small key) as Ht. rewrite Hh in Ht.
  split; [done |]. split; [| split].
  - intros ix klen eq. unfold Index.find. by rewrite Hh, Ht.
  - intros ix klen eq s Hc Hs He. unfold Index.find. rewrite Hh, Ht.
    destruct (Z.to_nat (Index.capacity_ ix)) as [|n] eqn:En; [lia |].
    simpl. rewrite Hs. simpl. rewrite He. done.
  - intros val st st' Hput.
    apply put_OK_inv in Hput as (Hk & Hv & _ & _ & a2 & r & b & ix' & _ & _ & Hu & ->).
    pose proof (size_nonneg key). pose proof (size_nonneg val).
    unfold MAX_KEY, MAX_VAL in *.
    exists r. unfold Index.update in Hu. case_bool_decide as Hlt; [| done].
    injection Hu as <-. unfold index, Index.at_. simpl.
    rewrite list_lookup_insert_eq by done.
    rewrite Hh, Ht, (u8_small (size key)), (u16_small (size val)) by lia. done.
Qed.

Lemma hash_is_fnv1a_witness :
  Index.find (index store16) (Index.hash user1001) (size user1001) (λ _, Some false)
    = Some (Z.land (fnv1a user1001) (Index.mask_ (index store16)), false) ∧
  ∃ r, Index.at_ (index store16_a) r =
       Some (Slot.mk (fnv1a user1001 ≫ 24) (size user1001) (size balance5000)
                     (Arena.offset_ (Hyperion.arena_ store16)) 0).
Proof.
  destruct (hash_is_fnv1a user1001) as (_ & _ & Hhome & Hput). split.
  - apply (Hhome (index store16) (size user1001) (λ _, Some false) Slot.empty).
    + vm_compute. reflexivity.
    + vm_compute. reflexivity.
    + reflexivity.
  - apply (Hput balance5000 store16 store16_a). apply store16_a_put.
Defined.

(** ** C8 *)

(** C8 fails on the code for slot counts above [2^31]: for
    [slots = 2^31 + 1] the rounding wraps, the capacity is 0 (not a power
    of two, and below the request), the mask is [2^32 - 1] and the slot
    array is empty. *)
Theorem init_overflow :
  Index.capacity_ (Index.init 2147483649) = 0 ∧
  Index.mask_ (Index.init 2147483649) = 4294967295 ∧
  Index.slots_ (Index.init 2147483649) = [] ∧
  ¬ smallest_pow2_geq (Z.max 2147483649 8) (Index.capacity_ (Index.init 2147483649)).
Proof.
  assert (Index.capacity_ (Index.init 2147483649) = 0) as Hc by (vm_compute; reflexivity).
  split; [done |]. split; [vm_compute; reflexivity |]. split; [vm_compute; reflexivity |].
  rewrite Hc. intros (_ & Hge & _). lia.
Qed.

(** ** C9 *)

(** C9 (long keys): on a well-formed store, for every key longer than
    255 bytes [get] returns NotFound and leaves the output buffer as it
    was, and [del] returns NotFound and changes neither a slot nor the
    arena: the 8-bit [key_len] of no slot equals such a length, so the
    comparison is never reached.  The same holds for a [get] that is
    retried while the writer is at work: whenever it returns, it returns
    NotFound with the buffer as it was. *)
Theorem long_key_not_found (key out : list byte) (st : Hyperion.t) :
  store_wf st → MAX_KEY < size key →
  Hyperion.get key out st = Some (NotFound, out) ∧
  (∃ st', Hyperion.del key st = Some (NotFound, st') ∧
          Index.slots_ (index st') = Index.slots_ (index st) ∧
          Hyperion.arena_ st' = Hyperion.arena_ st) ∧
  (∀ sched s out' st',
     get_under sched key out st = Some (s, out', st') →
     s = NotFound ∧ out' = out).
Proof.
  intros Hwf Hlong.
  destruct (find_long_key st key
              (Hyperion.key_eq (Hyperion.arena_ st) (Index.hash key) key) Hwf Hlong)
    as (r & Hf).
  pose proof Hwf as (_ & Hl & _). destruct (lock_idle_flags _ Hl) as (Hodd & Hseq).
  rewrite (get_run key out st r false Hodd Hf).
  rewrite (del_run key st r false Hseq Hf). split; [done |]. split.
  - exists (bumped st (index st)). done.
  - intros sched s out' st'. by apply long_key_under.
Qed.

Lemma long_key_not_found_witness :
  Hyperion.get (replicate 256 "k"%byte) balance0 store16_a
    = Some (NotFound, balance0).
Proof.
  apply (long_key_not_found (replicate 256 "k"%byte) balance0 store16_a).
  - apply store16_a_inv.
  - vm_compute. reflexivity.
Defined.

(** ** C10 *)

(** C10, as stated, fails when the read is retried.  With "user:1001"
    stored and an empty buffer, the first round of [get] finds the key
    and assigns its value to the buffer; the writer then completes a
    delete of the key before the reader loads [v2], so the round is
    retried; the second round does not find the key and [get] returns
    NotFound, with the value of the first round in the buffer. *)
Lemma retried_get_overwrites_buffer :
  Hyperion.get user1001 [] store16_a = Some (OK, balance5000) ∧
  get_under [([], [W_del user1001]); ([], [])] user1001 [] store16_a
    = Some (NotFound, balance5000, after (Hyperion.del user1001 store16_a)) ∧
  balance5000 ≠ [].
Proof.
  split; [vm_compute; reflexivity |]. split; [vm_compute; reflexivity | discriminate].
Qed.

(** C10 (amended): in a single-threaded execution, that is whenever no
    write transaction completes during the call, a [get] that returns
    NotFound leaves the output buffer exactly as it was before the call
    (and the store as it was). *)
Theorem not_found_keeps_buffer (key out out' : list byte) (st : Hyperion.t) :
  (Hyperion.get key out st = Some (NotFound, out') → out' = out) ∧
  (∀ sched st',
     quiet sched → get_under sched key out st = Some (NotFound, out', st') →
     out' = out ∧ st' = st).
Proof.
  assert (Hyperion.get key out st = Some (NotFound, out') → out' = out) as Hseq.
  { intros H. by destruct (get_status key out st NotFound out' H) as [? | [_ ?]]. }
  split; [done |]. intros sched st' Hq H.
  destruct (get_under_single key out sched st NotFound out' st' Hq H) as (-> & Hg).
  split; [by apply Hseq | done].
Qed.

Lemma not_found_keeps_buffer_witness :
  quiet [([], [])] ∧
  get_under [([], [])] user1002 balance0 store16_a
    = Some (NotFound, balance0, store16_a) ∧
  balance0 = balance0 ∧ store16_a = store16_a.
Proof.
  assert (quiet [([], [])]) as Hq by (repeat constructor).
  assert (get_under [([], [])] user1002 balance0 store16_a
          = Some (NotFound, balance0, store16_a)) as H
    by (vm_compute; reflexivity).
  split; [exact Hq |]. split; [exact H |].
  exact (proj2 (not_found_keeps_buffer user1002 balance0 balance0 store16_a)
               [([], [])] store16_a Hq H).
Defined.

(** * Further properties of the code *)

(** ** States and runs of the examples *)

Lemma store16_a_wf : store_wf store16_a.
Proof. apply store16_a_inv. Qed.

Lemma store16_a_index_wf : index_wf (index store16_a).
Proof. apply store16_a_wf. Qed.

Lemma store64_full_inv : store_inv store64_full.
Proof.
  apply (put_inv (bytes "k") value60 store64 ArenaFull).
  - apply (create_inv 64 8); lia.
  - vm_compute. reflexivity.
Qed.

Lemma store16_a_log_eq :
  writer_log two_calls store16_a = Some (store16_a_log.1, store16_a_log.2).
Proof. vm_compute. reflexivity. Qed.

Lemma arena16_entry_eq :
  Hyperion.write_entry arena16 8 (Index.hash user1001) user1001 balance5000
  = Some arena16_entry.
Proof. vm_compute. reflexivity. Qed.

Lemma arena16_entry_at : entry_at arena16_entry 8 user1001 balance5000.
Proof.
  apply (write_entry_inv arena16 8 user1001 balance5000 arena16_entry).
  - vm_compute. discriminate.
  - vm_compute. discriminate.
  - apply arena16_entry_eq.
Qed.

(** ** X1 *)

(** X1 (Arena::alloc, bump allocation): on an arena whose size and cursor are
    32-bit values, two allocations in a row that both succeed, with sizes
    that do not carry the cursor to [2^32], return adjacent blocks: the
    first starts at the old cursor, the second where the first ends, and
    the cursor is left at the end of the second, inside the mapping.  The
    size and the contents of the arena are as before. *)
Theorem alloc_blocks_adjacent (a a1 a2 : Arena.t) (s1 s2 o1 o2 : Z) :
  arena_wf a → 0 <= s1 → 0 <= s2 →
  Arena.offset_ a + s1 + s2 < 2 ^ 32 →
  Arena.alloc a s1 = (AE_None, Some o1, a1) →
  Arena.alloc a1 s2 = (AE_None, Some o2, a2) →
  o1 = Arena.offset_ a ∧ o2 = o1 + s1 ∧
  Arena.offset_ a2 = o2 + s2 ∧ o2 + s2 <= Arena.size_ a ∧
  Arena.size_ a2 = Arena.size_ a ∧ Arena.base_ a2 = Arena.base_ a.
Proof.
  intros (Hs & Hc) H1 H2 Hsum Ha1 Ha2.
  apply alloc_inv in Ha1 as (-> & [(_ & Ho1 & Hf1) | (? & _)]); [| done].
  apply alloc_inv in Ha2 as (-> & [(_ & Ho2 & Hf2) | (? & _)]); [| done].
  injection Ho1 as ->. injection Ho2 as ->.
  unfold advanced in *. simpl in *.
  assert (u32 (Arena.offset_ a + s1) = Arena.offset_ a + s1) as E1
    by (apply u32_small; lia).
  rewrite E1 in Hf2 |- *.
  assert (u32 (Arena.offset_ a + s1 + s2) = Arena.offset_ a + s1 + s2) as E2
    by (apply u32_small; lia).
  rewrite E2 in Hf2 |- *. done.
Qed.

Lemma alloc_blocks_adjacent_witness :
  8 = Arena.offset_ arena16 ∧ 24 = 8 + 16 ∧
  Arena.offset_ (advanced (advanced arena16 16) 24) = 24 + 24 ∧
  24 + 24 <= Arena.size_ arena16 ∧
  Arena.size_ (advanced (advanced arena16 16) 24) = Arena.size_ arena16 ∧
  Arena.base_ (advanced (advanced arena16 16) 24) = Arena.base_ arena16.
Proof.
  apply (alloc_blocks_adjacent arena16 (advanced arena16 16)
           (advanced (advanced arena16 16) 24) 16 24 8 24).
  - split; simpl; lia.
  - lia.
  - lia.
  - simpl. lia.
  - vm_compute. reflexivity.
  - vm_compute. reflexivity.
Defined.

(** ** X2 *)

(** X2 (Arena::alloc, exhaustion): an allocation that fails leaves the cursor
    past the end of the arena; the next request, as long as it does not
    carry the cursor to [2^32], fails as well and moves the cursor on by
    its size. *)
Theorem alloc_failure_persists (a a' : Arena.t) (sz sz' : Z) :
  arena_wf a → 0 <= sz' →
  Arena.alloc a sz = (OutOfSpace, None, a') →
  Arena.offset_ a' + sz' < 2 ^ 32 →
  Arena.size_ a' < Arena.offset_ a' ∧
  Arena.alloc a' sz' = (OutOfSpace, None, advanced a' sz') ∧
  Arena.offset_ (advanced a' sz') = Arena.offset_ a' + sz'.
Proof.
  intros (Hs & Hc) Hsz' Ha Hsum.
  apply alloc_inv in Ha as (-> & [(? & _) | (_ & _ & Hfull)]); [done |].
  pose proof (u32_range (Arena.offset_ a + sz)) as Hr.
  unfold advanced in *. simpl in *. split; [done |].
  unfold Arena.alloc. simpl.
  rewrite (u32_small (u32 (Arena.offset_ a + sz) + sz')) by lia.
  replace (u32 (Arena.offset_ a + sz) + sz' >? Arena.size_ a) with true by (symmetry; lia).
  done.
Qed.

Lemma alloc_failure_persists_witness :
  Arena.size_ (advanced arena16 65536) < Arena.offset_ (advanced arena16 65536) ∧
  Arena.alloc (advanced arena16 65536) 16
    = (OutOfSpace, None, advanced (advanced arena16 65536) 16) ∧
  Arena.offset_ (advanced (advanced arena16 65536) 16)
    = Arena.offset_ (advanced arena16 65536) + 16.
Proof.
  apply (alloc_failure_persists arena16 (advanced arena16 65536) 65536 16).
  - split; simpl; lia.
  - lia.
  - vm_compute. reflexivity.
  - vm_compute. reflexivity.
Defined.

(** ** X3 *)

(** X3 (Slot): a slot whose offset is a 32-bit value is in exactly one of the
    states EMPTY, tombstone and valid.  [make_tombstone] turns any slot
    into a tombstone with tag 0 and keeps its key and value lengths;
    [Slot::empty()] is EMPTY. *)
Theorem slot_states (s : Slot.t) :
  0 <= Slot.offset s < 2 ^ 32 →
  (Slot.is_empty s = true ∧ Slot.is_tombstone s = false ∧ Slot.is_valid s = false ∨
   Slot.is_empty s = false ∧ Slot.is_tombstone s = true ∧ Slot.is_valid s = false ∨
   Slot.is_empty s = false ∧ Slot.is_tombstone s = false ∧ Slot.is_valid s = true) ∧
  Slot.is_tombstone (Slot.make_tombstone s) = true ∧
  Slot.hash_tag (Slot.make_tombstone s) = 0 ∧
  Slot.key_len (Slot.make_tombstone s) = Slot.key_len s ∧
  Slot.val_len (Slot.make_tombstone s) = Slot.val_len s ∧
  Slot.is_empty Slot.empty = true.
Proof.
  intros Ho. split; [| done].
  unfold Slot.is_empty, Slot.is_tombstone, Slot.is_valid, Slot.OFF_EMPTY, Slot.OFF_TOMB.
  destruct (decide (Slot.offset s = 0xFFFFFFFF)) as [-> | H1]; [left; done |].
  destruct (decide (Slot.offset s = 0xFFFFFFFE)) as [-> | H2]; [right; left; done |].
  right. right. split; [lia |]. split; lia.
Qed.

Lemma slot_states_witness :
  (Slot.is_empty (Slot.mk 1 2 3 8 0) = true ∧
   Slot.is_tombstone (Slot.mk 1 2 3 8 0) = false ∧
   Slot.is_valid (Slot.mk 1 2 3 8 0) = false ∨
   Slot.is_empty (Slot.mk 1 2 3 8 0) = false ∧
   Slot.is_tombstone (Slot.mk 1 2 3 8 0) = true ∧
   Slot.is_valid (Slot.mk 1 2 3 8 0) = false ∨
   Slot.is_empty (Slot.mk 1 2 3 8 0) = false ∧
   Slot.is_tombstone (Slot.mk 1 2 3 8 0) = false ∧
   Slot.is_valid (Slot.mk 1 2 3 8 0) = true) ∧
  Slot.is_tombstone (Slot.make_tombstone (Slot.mk 1 2 3 8 0)) = true ∧
  Slot.hash_tag (Slot.make_tombstone (Slot.mk 1 2 3 8 0)) = 0 ∧
  Slot.key_len (Slot.make_tombstone (Slot.mk 1 2 3 8 0)) = 2 ∧
  Slot.val_len (Slot.make_tombstone (Slot.mk 1 2 3 8 0)) = 3 ∧
  Slot.is_empty Slot.empty = true.
Proof. apply (slot_states (Slot.mk 1 2 3 8 0)). simpl. lia. Defined.

(** ** X4 *)

(** X4 (Index::next_pow2): for [1 <= v <= 2^31] the result is a power of two
    with [v <= result < 2 v], and a power of two is returned as it is. *)
Theorem next_pow2_bounds (v : Z) :
  1 <= v <= 2 ^ 31 →
  is_pow2 (Index.next_pow2 v) ∧
  v <= Index.next_pow2 v < 2 * v ∧
  (is_pow2 v → Index.next_pow2 v = v).
Proof.
  intros Hv. destruct (decide (v = 1)) as [-> | Hne].
  { assert (Index.next_pow2 1 = 1) as -> by (vm_compute; reflexivity).
    split; [by exists 0 |]. split; [lia | done]. }
  rewrite next_pow2_log2_up by lia.
  pose proof (Z.log2_up_spec v ltac:(lia)) as (Hlo & Hhi).
  pose proof (Z.log2_up_pos v ltac:(lia)) as Hpos.
  split; [exists (Z.log2_up v); split; [lia | done] |].
  split.
  - split; [done |].
    replace (Z.log2_up v) with (Z.succ (Z.pred (Z.log2_up v))) by lia.
    rewrite Z.pow_succ_r by lia. lia.
  - intros (k & Hk & ->). by rewrite Z.log2_up_pow2.
Qed.

Lemma next_pow2_bounds_witness :
  is_pow2 (Index.next_pow2 1000) ∧
  1000 <= Index.next_pow2 1000 < 2 * 1000 ∧
  (is_pow2 1000 → Index.next_pow2 1000 = 1000).
Proof. apply (next_pow2_bounds 1000). lia. Defined.

(** ** X5 *)

(** X5 (Index::init): for a slot count of at most [2^31] the capacity is the
    smallest power of two that is at least [max(slots, 8)], the mask is
    the capacity minus one, the slot array has as many entries as the
    capacity and all of them are EMPTY. *)
Theorem init_rounds_up (slots : Z) :
  0 <= slots <= 2 ^ 31 →
  let ix := Index.init slots in
  smallest_pow2_geq (Z.max slots 8) (Index.capacity_ ix) ∧
  Index.mask_ ix = Index.capacity_ ix - 1 ∧
  Z.of_nat (length (Index.slots_ ix)) = Index.capacity_ ix ∧
  (∀ j, 0 <= j < Index.capacity_ ix → Index.at_ ix j = Some Slot.empty) ∧
  used ix = 0%nat.
Proof.
  intros Hs ix. destruct (init_capacity slots Hs) as (Hsm & Hmask).
  pose proof (init_wf slots Hs) as Hwf. fold ix in Hsm, Hmask, Hwf.
  split; [done |]. split; [done |].
  split; [by destruct Hwf as (_ & _ & Hlen & _) |].
  split; [| apply init_used].
  intros j Hj. destruct (at_in_range ix Hwf j Hj) as (s & Hat & _).
  rewrite Hat. f_equal. by eapply init_all_empty.
Qed.

Lemma init_rounds_up_witness :
  smallest_pow2_geq (Z.max 16 8) (Index.capacity_ (Index.init 16)) ∧
  Index.mask_ (Index.init 16) = Index.capacity_ (Index.init 16) - 1 ∧
  Z.of_nat (length (Index.slots_ (Index.init 16))) = Index.capacity_ (Index.init 16) ∧
  (∀ j, 0 <= j < Index.capacity_ (Index.init 16) →
        Index.at_ (Index.init 16) j = Some Slot.empty) ∧
  used (Index.init 16) = 0%nat.
Proof. apply (init_rounds_up 16). lia. Defined.

(** ** X6 *)

(** X6 (Index::hash): the hash of the empty input is the offset basis
    2166136261; appending a byte [b] to the input takes the hash [h] to
    [(h xor b) * 16777619] modulo [2^32]; every hash is a 32-bit value. *)
Theorem hash_streaming (data : list byte) (b : byte) :
  Index.hash [] = 2166136261 ∧
  Index.hash (data ++ [b]) = u32 (Z.lxor (Index.hash data) (byte_val b) * 16777619) ∧
  0 <= Index.hash data < 2 ^ 32.
Proof.
  split; [done |]. split; [| apply hash_range].
  rewrite !hash_fnv1a. unfold fnv1a. rewrite fold_left_app. simpl.
  reflexivity.
Qed.

(** ** X7 *)

(** X7 (Index::find, bounds): on a well-formed index, for a hash that is not
    negative and a comparison that always answers, [find] returns, and the
    index it returns lies inside the slot array, so that [update] and [at]
    on it stay inside the array. *)
Theorem find_returns_slot_index (ix : Index.t) (h klen : Z)
    (eq : Slot.t → option bool) :
  index_wf ix → 0 <= h → (∀ s, is_Some (eq s)) →
  ∃ r b, Index.find ix h klen eq = Some (r, b) ∧
         0 <= r < Index.capacity_ ix ∧ is_Some (Index.at_ ix r).
Proof.
  intros Hwf Hh Heq.
  assert (is_Some (Index.find ix h klen eq)) as ([r b] & Hf).
  { unfold Index.find. apply find_loop_total; [done | |].
    - rewrite land_mask by done. apply Z.mod_pos_bound. by apply capacity_bounds.
    - intros s _ _ _ _. apply Heq. }
  exists r, b. split; [done |].
  pose proof (find_result_range _ _ _ _ _ _ Hwf Hh Hf) as Hr. split; [done |].
  destruct (at_in_range ix Hwf r Hr) as (s & Hs & _). by exists s.
Qed.

Lemma find_returns_slot_index_witness :
  ∃ r b, Index.find (index store16_a) (Index.hash user1001) (size user1001)
           (λ _, Some false) = Some (r, b) ∧
         0 <= r < Index.capacity_ (index store16_a) ∧
         is_Some (Index.at_ (index store16_a) r).
Proof.
  apply (find_returns_slot_index (index store16_a) (Index.hash user1001)
           (size user1001) (λ _, Some false)).
  - apply store16_a_index_wf.
  - vm_compute. discriminate.
  - intros s. by exists false.
Defined.

(** ** X8 *)

(** X8 (Index::find, found): on a well-formed index, [find] returns
    [(r, true)] exactly when [r] is reached within [capacity] probes from
    [h & mask], every slot probed before it is stepped over (it is a
    tombstone, fails the tag and length filter, or is rejected by the
    comparison; none is EMPTY), and the slot at [r] is neither EMPTY nor a
    tombstone, carries the tag [(uint8_t)(h >> 24)] and the key length,
    and is accepted by the comparison. *)
Theorem find_first_match (ix : Index.t) (h klen : Z)
    (eq : Slot.t → option bool) (r : Z) :
  index_wf ix → 0 <= h →
  let tag := u8 (h ≫ 24) in
  let start := Z.land h (Index.mask_ ix) in
  Index.find ix h klen eq = Some (r, true) ↔
  ∃ m : nat, Z.of_nat m < Index.capacity_ ix ∧ r = probe ix start m ∧
    stepped ix tag klen eq start m ∧
    ∃ s, Index.at_ ix r = Some s ∧ matches tag klen eq s.
Proof.
  intros Hwf Hh tag start.
  assert (0 <= start < Index.capacity_ ix) as Hstart.
  { unfold start. rewrite land_mask by done.
    apply Z.mod_pos_bound. by apply capacity_bounds. }
  pose proof (capacity_bounds ix Hwf) as Hcap.
  split.
  - intros Hf. unfold Index.find in Hf. fold tag start in Hf.
    pose proof (find_loop_inv ix Hwf tag klen eq _ _ _ _ _ Hstart Hf) as Hfound.
    simpl in Hfound. destruct Hfound as (m & Hm & Hstep & -> & s & Hs & Hmatch).
    exists m. split; [lia |]. split; [done |]. split; [done |]. by exists s.
  - intros (m & Hm & -> & Hstep & s & Hs & Hmatch).
    unfold Index.find. fold tag start.
    apply (find_loop_found ix Hwf tag klen eq m _ _ _ s); [done | lia | done | done | done].
Qed.

Lemma find_first_match_witness :
  Index.find (index store16_a) (Index.hash user1001) (size user1001)
    (Hyperion.key_eq (Hyperion.arena_ store16_a) (Index.hash user1001) user1001)
    = Some (6, true) ↔
  ∃ m : nat, Z.of_nat m < Index.capacity_ (index store16_a) ∧
    6 = probe (index store16_a)
          (Z.land (Index.hash user1001) (Index.mask_ (index store16_a))) m ∧
    stepped (index store16_a) (u8 (Index.hash user1001 ≫ 24)) (size user1001)
      (Hyperion.key_eq (Hyperion.arena_ store16_a) (Index.hash user1001) user1001)
      (Z.land (Index.hash user1001) (Index.mask_ (index store16_a))) m ∧
    ∃ s, Index.at_ (index store16_a) 6 = Some s ∧
         matches (u8 (Index.hash user1001 ≫ 24)) (size user1001)
           (Hyperion.key_eq (Hyperion.arena_ store16_a) (Index.hash user1001) user1001) s.
Proof.
  apply (find_first_match (index store16_a) (Index.hash user1001) (size user1001)
           (Hyperion.key_eq (Hyperion.arena_ store16_a) (Index.hash user1001) user1001) 6).
  - apply store16_a_index_wf.
  - vm_compute. discriminate.
Defined.

(** ** X9 *)

(** X9 (Index::find, not found): when [find] returns [(r, false)] on a
    well-formed index, the probe stepped over [m <= capacity] slots and
    then met an EMPTY slot (or [m] is the capacity), and [r] is the first
    tombstone among the slots stepped over, or the slot where the probe
    stopped when there was no tombstone.  The slot at [r] is not valid,
    unless every slot of the index is valid. *)
Theorem find_insertion_candidate (ix : Index.t) (h klen : Z)
    (eq : Slot.t → option bool) (r : Z) :
  index_wf ix → 0 <= h →
  Index.find ix h klen eq = Some (r, false) →
  let tag := u8 (h ≫ 24) in
  let start := Z.land h (Index.mask_ ix) in
  (∃ m : nat, Z.of_nat m <= Index.capacity_ ix ∧
     stepped ix tag klen eq start m ∧
     (Z.of_nat m < Index.capacity_ ix →
      ∃ s, Index.at_ ix (probe ix start m) = Some s ∧ Slot.is_empty s = true) ∧
     recycled ix start m r) ∧
  ((∃ s, Index.at_ ix r = Some s ∧ Slot.is_valid s = false) ∨
   Forall (λ s, Slot.is_valid s = true) (Index.slots_ ix)).
Proof.
  intros Hwf Hh Hf tag start.
  assert (0 <= start < Index.capacity_ ix) as Hstart.
  { unfold start. rewrite land_mask by done.
    apply Z.mod_pos_bound. by apply capacity_bounds. }
  pose proof (capacity_bounds ix Hwf) as Hcap.
  split; [| by eapply find_false_candidate].
  unfold Index.find in Hf. fold tag start in Hf.
  pose proof (find_loop_inv ix Hwf tag klen eq _ _ _ _ _ Hstart Hf) as Habs.
  simpl in Habs. destruct Habs as (m & Hm & Hstep & Hend & [(Hne & _) | (_ & Hrec)]); [done |].
  exists m. split; [lia |]. split; [done |]. split; [| done].
  intros Hlt. apply Hend. lia.
Qed.

Lemma find_insertion_candidate_witness :
  (∃ m : nat, Z.of_nat m <= Index.capacity_ (index store16_a) ∧
     stepped (index store16_a) (u8 (Index.hash user1002 ≫ 24)) (size user1002)
       (Hyperion.key_eq (Hyperion.arena_ store16_a) (Index.hash user1002) user1002)
       (Z.land (Index.hash user1002) (Index.mask_ (index store16_a))) m ∧
     (Z.of_nat m < Index.capacity_ (index store16_a) →
      ∃ s, Index.at_ (index store16_a)
             (probe (index store16_a)
                (Z.land (Index.hash user1002) (Index.mask_ (index store16_a))) m)
             = Some s ∧ Slot.is_empty s = true) ∧
     recycled (index store16_a)
       (Z.land (Index.hash user1002) (Index.mask_ (index store16_a))) m 3) ∧
  ((∃ s, Index.at_ (index store16_a) 3 = Some s ∧ Slot.is_valid s = false) ∨
   Forall (λ s, Slot.is_valid s = true) (Index.slots_ (index store16_a))).
Proof.
  apply (find_insertion_candidate (index store16_a) (Index.hash user1002) (size user1002)
           (Hyperion.key_eq (Hyperion.arena_ store16_a) (Index.hash user1002) user1002) 3).
  - apply store16_a_index_wf.
  - vm_compute. discriminate.
  - vm_compute. reflexivity.
Defined.

(** ** X10 *)

(** X10 (Index::update, Index::at): [update] is defined for an index inside
    the slot array only; afterwards [at(idx)] is the slot built from the
    arguments with zero padding, and every other slot, the capacity, the
    mask and the length of the array are as before. *)
Theorem update_then_at (ix ix' : Index.t) (idx tag klen vlen off : Z) :
  0 <= idx →
  Index.update ix idx tag klen vlen off = Some ix' →
  (Z.to_nat idx < length (Index.slots_ ix))%nat ∧
  Index.at_ ix' idx = Some (Slot.mk tag klen vlen off 0) ∧
  (∀ j, 0 <= j → j ≠ idx → Index.at_ ix' j = Index.at_ ix j) ∧
  Index.capacity_ ix' = Index.capacity_ ix ∧ Index.mask_ ix' = Index.mask_ ix ∧
  length (Index.slots_ ix') = length (Index.slots_ ix).
Proof.
  intros Hidx Hu. unfold Index.update in Hu.
  case_bool_decide as Hlt; [| done]. injection Hu as <-.
  unfold Index.at_. simpl.
  split; [lia |]. split; [by apply list_lookup_insert_eq |].
  split; [| by rewrite length_insert].
  intros j Hj Hne. apply list_lookup_insert_ne. lia.
Qed.

Lemma update_then_at_witness :
  (Z.to_nat 3 < length (Index.slots_ (Index.init 16)))%nat ∧
  Index.at_ (with_slot (Index.init 16) 3 (Slot.mk 7 9 12 8 0)) 3
    = Some (Slot.mk 7 9 12 8 0) ∧
  (∀ j, 0 <= j → j ≠ 3 →
     Index.at_ (with_slot (Index.init 16) 3 (Slot.mk 7 9 12 8 0)) j
     = Index.at_ (Index.init 16) j) ∧
  Index.capacity_ (with_slot (Index.init 16) 3 (Slot.mk 7 9 12 8 0))
    = Index.capacity_ (Index.init 16) ∧
  Index.mask_ (with_slot (Index.init 16) 3 (Slot.mk 7 9 12 8 0))
    = Index.mask_ (Index.init 16) ∧
  length (Index.slots_ (with_slot (Index.init 16) 3 (Slot.mk 7 9 12 8 0)))
    = length (Index.slots_ (Index.init 16)).
Proof.
  apply (update_then_at (Index.init 16) (with_slot (Index.init 16) 3 (Slot.mk 7 9 12 8 0))
           3 7 9 12 8).
  - lia.
  - vm_compute. reflexivity.
Defined.

(** ** X11 *)

(** X11 (SeqLock::write, SeqLock::read): a write transaction on an idle lock
    (even sequence number) applies the mutator to the data and moves the
    sequence number on by 2 modulo [2^64], to a different even number;
    the lock is idle again and a read that follows returns [f] of the new
    data. *)
Theorem seqlock_write_then_read {T R R' : Type} (l l' : SeqLock.t T)
    (f : T → option (T * R)) (g : T → option R') (r : R) :
  lock_idle l → SeqLock.write l f = Some (l', r) →
  f (SeqLock.data_ l) = Some (SeqLock.data_ l', r) ∧
  SeqLock.seq_ l' = u64 (SeqLock.seq_ l + 2) ∧
  SeqLock.seq_ l' ≠ SeqLock.seq_ l ∧
  lock_idle l' ∧
  SeqLock.read l' g = g (SeqLock.data_ l').
Proof.
  intros Hidle Hw. pose proof Hidle as (Hrange & Heven).
  destruct (lock_idle_flags _ Hidle) as (Hodd & Hland).
  unfold SeqLock.write in Hw. rewrite Hland in Hw. simpl in Hw.
  destruct (f (SeqLock.data_ l)) as [[d r']|]; [| done]. simpl in Hw.
  injection Hw as <- <-. simpl.
  split; [done |]. split; [done |]. split.
  - unfold u64, wrap.
    destruct (decide (SeqLock.seq_ l + 2 < 2 ^ 64)) as [Hlt | Hge].
    + rewrite Z.mod_small by lia. lia.
    + replace (SeqLock.seq_ l + 2) with (SeqLock.seq_ l + 2 - 2 ^ 64 + 1 * 2 ^ 64) by lia.
      rewrite Z.mod_add by lia. rewrite Z.mod_small by lia. lia.
  - split; [by apply lock_idle_bump |].
    unfold SeqLock.read. simpl. by rewrite (bump_not_odd _ Hland).
Qed.

Lemma seqlock_write_then_read_witness :
  Some (5 + 1, ()) = Some (SeqLock.data_ (SeqLock.mk 2 6), ()) ∧
  SeqLock.seq_ (SeqLock.mk 2 6) = u64 (SeqLock.seq_ (SeqLock.make 5) + 2) ∧
  SeqLock.seq_ (SeqLock.mk 2 6) ≠ SeqLock.seq_ (SeqLock.make 5) ∧
  lock_idle (SeqLock.mk 2 6) ∧
  SeqLock.read (SeqLock.mk 2 6) (λ d : Z, Some d) = Some (SeqLock.data_ (SeqLock.mk 2 6)).
Proof.
  apply (seqlock_write_then_read (SeqLock.make 5) (SeqLock.mk 2 6)
           (λ d, Some (d + 1, ())) (λ d, Some d) ()).
  - split; [simpl; lia | reflexivity].
  - vm_compute. reflexivity.
Defined.

(** ** X12 *)

(** X12 (Hyperion::create, failure): when [create] reports an error, the error
    is TooLarge exactly when the size is above [UINT32_MAX] and MmapFailed
    exactly when the size is accepted and the mapping is refused; the
    store returned is the default one, on which every [get] returns
    NotFound without touching the buffer, every delete returns NotFound,
    and every put of a key and value within the limits returns
    ArenaFull. *)
Theorem create_failure_inert (bytes slots : Z) (mapped : bool)
    (st : Hyperion.t) (ae : ArenaError) :
  Hyperion.create bytes slots mapped = (st, ae) → ae ≠ AE_None →
  (ae = TooLarge ↔ UINT32_MAX < bytes) ∧
  (ae = MmapFailed ↔ bytes <= UINT32_MAX ∧ mapped = false) ∧
  st = Hyperion.default ∧
  (∀ key out, Hyperion.get key out st = Some (NotFound, out)) ∧
  (∀ key, fst <$> Hyperion.del key st = Some NotFound) ∧
  (∀ key val, size key <= MAX_KEY → size val <= MAX_VAL →
     fst <$> Hyperion.put key val st = Some ArenaFull).
Proof.
  intros Hc Hae. unfold Hyperion.create, Arena.create in Hc.
  assert (st = Hyperion.default ∧
          ((ae = TooLarge ∧ UINT32_MAX < bytes) ∨
           (ae = MmapFailed ∧ bytes <= UINT32_MAX ∧ mapped = false))) as (-> & Hcase).
  { destruct (bytes >? UINT32_MAX) eqn:Hb.
    - injection Hc as <- <-. split; [done |]. left. split; [done | lia].
    - destruct mapped; simpl in Hc.
      + injection Hc as <- <-. done.
      + injection Hc as <- <-. split; [done |]. right. split; [done |]. split; [lia | done]. }
  split; [| split; [| split; [done |]]].
  - split; [intros -> | intros H]; destruct Hcase as [(? & ?) | (? & ? & ?)]; try done; lia.
  - split; [intros -> | intros (H1 & H2)]; destruct Hcase as [(? & ?) | (? & ? & ?)];
      try done; lia.
  - split; [done |]. split; [done |].
    intros key val Hk Hv. pose proof (needed_range key val Hk Hv) as Hn.
    unfold Hyperion.put.
    replace (size key >? MAX_KEY) with false by (symmetry; lia).
    replace (size val >? MAX_VAL) with false by (symmetry; lia).
    unfold Arena.alloc, Hyperion.default, Arena.default.
    cbn [Hyperion.arena_ Arena.offset_ Arena.size_ Arena.base_].
    rewrite Z.add_0_l, u32_small by lia.
    replace (Hyperion.needed key val >? 0) with true by (symmetry; lia). done.
Qed.

Lemma create_failure_inert_witness :
  (TooLarge = TooLarge ↔ UINT32_MAX < 4294967296) ∧
  (TooLarge = MmapFailed ↔ 4294967296 <= UINT32_MAX ∧ true = false) ∧
  Hyperion.default = Hyperion.default ∧
  (∀ key out, Hyperion.get key out Hyperion.default = Some (NotFound, out)) ∧
  (∀ key, fst <$> Hyperion.del key Hyperion.default = Some NotFound) ∧
  (∀ key val, size key <= MAX_KEY → size val <= MAX_VAL →
     fst <$> Hyperion.put key val Hyperion.default = Some ArenaFull).
Proof.
  apply (create_failure_inert 4294967296 16 true Hyperion.default TooLarge).
  - vm_compute. reflexivity.
  - discriminate.
Defined.

(** ** X13 *)

(** X13 (Hyperion::create, success): for at most [2^32 - 8] bytes and at most
    [2^31] slots, with the mapping granted, [create] reports no error; the
    arena has the size asked for, the cursor is at 8, no slot is in use,
    and [get] and delete of any key return NotFound, [get] leaving the
    output buffer as it was. *)
Theorem fresh_store_empty (bytes slots : Z) (key out : list byte) :
  0 <= bytes → bytes + 8 <= 2 ^ 32 → 0 <= slots <= 2 ^ 31 →
  let st := fst (Hyperion.create bytes slots true) in
  snd (Hyperion.create bytes slots true) = AE_None ∧
  Arena.size_ (Hyperion.arena_ st) = bytes ∧
  Arena.offset_ (Hyperion.arena_ st) = 8 ∧
  used (index st) = 0%nat ∧
  Hyperion.get key out st = Some (NotFound, out) ∧
  fst <$> Hyperion.del key st = Some NotFound.
Proof.
  intros Hb Hb' Hs st.
  destruct (create_inv bytes slots Hb Hb' Hs) as (Hc & Hinv).
  pose proof (fresh_get bytes slots key out Hb Hb' Hs) as Hg. fold st in Hg, Hinv.
  split; [by rewrite Hc |]. split; [subst st; by rewrite Hc |].
  split; [subst st; by rewrite Hc |].
  split; [subst st; rewrite Hc; apply init_used |]. split; [done |].
  destruct (refine_del key st (Dict.create bytes) Hinv (fresh_refines bytes slots Hb Hb' Hs))
    as (st' & Hdel & _).
  rewrite Hdel. done.
Qed.

Lemma fresh_store_empty_witness :
  snd (Hyperion.create 65536 16 true) = AE_None ∧
  Arena.size_ (Hyperion.arena_ store16) = 65536 ∧
  Arena.offset_ (Hyperion.arena_ store16) = 8 ∧
  used (index store16) = 0%nat ∧
  Hyperion.get user1001 balance0 store16 = Some (NotFound, balance0) ∧
  fst <$> Hyperion.del user1001 store16 = Some NotFound.
Proof. apply (fresh_store_empty 65536 16 user1001 balance0); lia. Defined.

(** ** X14 *)

(** X14 (Hyperion::put, size of the request): for a key and a value within the
    limits, [(8 + klen + vlen + 7) & ~7] is a multiple of 8, at least the
    8 header bytes plus the key and value bytes, and less than 8 more. *)
Theorem needed_rounds_up (key val : list byte) :
  size key <= MAX_KEY → size val <= MAX_VAL →
  Hyperion.needed key val mod 8 = 0 ∧
  HEADER + size key + size val <= Hyperion.needed key val
    < HEADER + size key + size val + 8.
Proof.
  intros Hk Hv. pose proof (needed_bounds key val Hk Hv) as Hn.
  split; [| lia]. rewrite (needed_eq key val Hk Hv).
  by rewrite (Z.mul_comm 8), Z_mod_mult.
Qed.

Lemma needed_rounds_up_witness :
  Hyperion.needed user1001 balance5000 mod 8 = 0 ∧
  HEADER + size user1001 + size balance5000 <= Hyperion.needed user1001 balance5000
    < HEADER + size user1001 + size balance5000 + 8.
Proof.
  apply (needed_rounds_up user1001 balance5000); vm_compute; discriminate.
Defined.

(** ** X15 *)

(** X15 (record layout): after the five stores of [put] at an offset, reading
    back as the comparison closure and [get] do gives the key length, the
    value length, the hash, the key bytes and the value bytes that were
    written; no byte outside the record has changed, nor the size or the
    cursor of the arena. *)
Theorem entry_round_trip (a a' : Arena.t) (off : Z) (key val : list byte) :
  size key <= MAX_KEY → size val <= MAX_VAL →
  Hyperion.write_entry a off (Index.hash key) key val = Some a' →
  Arena.read16 a' off = Some (size key) ∧
  Arena.read16 a' (off + 2) = Some (size val) ∧
  Arena.read32 a' (off + 4) = Some (Index.hash key) ∧
  Arena.read a' (off + HEADER) (size key) = Some key ∧
  Arena.read a' (off + HEADER + size key) (size val) = Some val ∧
  (∀ x, ¬ (off <= x < off + HEADER + size key + size val) →
        Arena.base_ a' x = Arena.base_ a x) ∧
  Arena.size_ a' = Arena.size_ a ∧ Arena.offset_ a' = Arena.offset_ a.
Proof.
  intros Hk Hv Hw.
  apply write_entry_inv in Hw as (He & Hsz & Hoff & Hout); [| done | done].
  destruct (read_value _ _ _ _ He) as (Hr1 & Hr2 & Hr3).
  pose proof He as (Hoff0 & Hb & _ & _ & _ & _ & Hh & Hkey & _).
  pose proof (size_nonneg key) as Hk0. pose proof (size_nonneg val) as Hv0.
  unfold HEADER in *.
  split; [done |]. split; [done |]. split.
  - unfold Arena.read32. rewrite read_Some by lia.
    cbn [fmap option_fmap option_map]. change (Z.to_nat 4) with 4%nat. rewrite Hh.
    by rewrite le_val_le32 by apply hash_range.
  - split.
    + rewrite read_Some by lia. unfold size. rewrite Nat2Z.id. by rewrite Hkey.
    + done.
Qed.

Lemma entry_round_trip_witness :
  Arena.read16 arena16_entry 8 = Some (size user1001) ∧
  Arena.read16 arena16_entry (8 + 2) = Some (size balance5000) ∧
  Arena.read32 arena16_entry (8 + 4) = Some (Index.hash user1001) ∧
  Arena.read arena16_entry (8 + HEADER) (size user1001) = Some user1001 ∧
  Arena.read arena16_entry (8 + HEADER + size user1001) (size balance5000)
    = Some balance5000 ∧
  (∀ x, ¬ (8 <= x < 8 + HEADER + size user1001 + size balance5000) →
        Arena.base_ arena16_entry x = Arena.base_ arena16 x) ∧
  Arena.size_ arena16_entry = Arena.size_ arena16 ∧
  Arena.offset_ arena16_entry = Arena.offset_ arena16.
Proof.
  apply (entry_round_trip arena16 arena16_entry 8 user1001 balance5000).
  - vm_compute. discriminate.
  - vm_compute. discriminate.
  - apply arena16_entry_eq.
Defined.

(** ** X16 *)

(** X16 (comparison closure of put, get and del): on a valid slot that points
    at the complete record of a key [k], the closure answers true exactly
    when [k] is the key looked for, so that a collision of the 8-bit tag
    or of the 32-bit hash never makes a lookup hit another key; on a slot
    that is not valid it answers false without reading the arena. *)
Theorem key_eq_exact (a : Arena.t) (key k v : list byte) (s : Slot.t) :
  Slot.is_valid s = true → entry_at a (Slot.offset s) k v →
  Hyperion.key_eq a (Index.hash key) key s = Some (bool_decide (k = key)) ∧
  (∀ h t, Slot.is_valid t = false → Hyperion.key_eq a h key t = Some false).
Proof.
  intros Hvalid He. split; [by eapply key_eq_entry |].
  intros h t Ht. unfold Hyperion.key_eq. by rewrite Ht.
Qed.

Lemma key_eq_exact_witness :
  Hyperion.key_eq arena16_entry (Index.hash user1002) user1002 (Slot.mk 0 0 0 8 0)
    = Some (bool_decide (user1001 = user1002)) ∧
  (∀ h t, Slot.is_valid t = false →
     Hyperion.key_eq arena16_entry h user1002 t = Some false).
Proof.
  apply (key_eq_exact arena16_entry user1002 user1001 balance5000 (Slot.mk 0 0 0 8 0)).
  - reflexivity.
  - apply arena16_entry_at.
Defined.

(** ** X17 *)

(** X17 (Hyperion::put, size checks): a key longer than 255 bytes is answered
    KeyTooLong, whatever the value; otherwise a value longer than 65535
    bytes is answered ValTooLong; in both cases the store is exactly as it
    was, cursor included.  [put] returns these statuses in no other case,
    and never returns NotFound. *)
Theorem put_size_checks (key val : list byte) (st : Hyperion.t) :
  (MAX_KEY < size key → Hyperion.put key val st = Some (KeyTooLong, st)) ∧
  (size key <= MAX_KEY → MAX_VAL < size val →
   Hyperion.put key val st = Some (ValTooLong, st)) ∧
  (∀ s st', Hyperion.put key val st = Some (s, st') →
     s ≠ NotFound ∧
     (s = KeyTooLong ↔ MAX_KEY < size key) ∧
     (s = ValTooLong ↔ size key <= MAX_KEY ∧ MAX_VAL < size val)).
Proof.
  split; [| split].
  - intros Hk. unfold Hyperion.put.
    by replace (size key >? MAX_KEY) with true by (symmetry; lia).
  - intros Hk Hv. unfold Hyperion.put.
    replace (size key >? MAX_KEY) with false by (symmetry; lia).
    by replace (size val >? MAX_VAL) with true by (symmetry; lia).
  - intros s st' Hput. destruct s.
    + apply put_OK_inv in Hput as (Hk & Hv & _).
      split; [done |]. split; (split; [done | lia]).
    + unfold Hyperion.put in Hput.
      destruct (size key >? MAX_KEY) eqn:Hk.
      * split; [done |]. split; (split; [try done; lia | try done; lia]).
      * destruct (size val >? MAX_VAL); [done |].
        destruct (Arena.alloc _ _) as [[e o] a]. destruct e; [| done | done | done].
        destruct o; [| done]. simpl in Hput.
        destruct (Hyperion.write_entry _ _ _ _ _); [| done]. simpl in Hput.
        by destruct (SeqLock.write _ _) as [[? ?]|].
    + unfold Hyperion.put in Hput.
      destruct (size key >? MAX_KEY) eqn:Hk; [done |].
      destruct (size val >? MAX_VAL) eqn:Hv.
      * split; [done |]. split; (split; [try done; lia | try done; lia]).
      * destruct (Arena.alloc _ _) as [[e o] a]. destruct e; [| done | done | done].
        destruct o; [| done]. simpl in Hput.
        destruct (Hyperion.write_entry _ _ _ _ _); [| done]. simpl in Hput.
        by destruct (SeqLock.write _ _) as [[? ?]|].
    + apply put_ArenaFull_inv in Hput as (Hk & Hv & _).
      split; [done |]. split; (split; [done | lia]).
    + exfalso. apply put_rejected in Hput as ([? | ?] & _); done.
Qed.

(** ** X18 *)

(** X18 (Hyperion::put, OK or ArenaFull): in a state that satisfies the
    data-model invariants, for a key and a value within the limits and a
    request that does not carry the cursor to [2^32], [put] returns; the
    status is OK when the request ends inside the arena and ArenaFull when
    it does not, and in both cases the cursor has moved on by the size of
    the request. *)
Theorem put_fits_iff (key val : list byte) (st : Hyperion.t) :
  store_inv st → size key <= MAX_KEY → size val <= MAX_VAL →
  Arena.offset_ (Hyperion.arena_ st) + Hyperion.needed key val < 2 ^ 32 →
  ∃ st',
    Hyperion.put key val st =
      Some (if bool_decide (Arena.offset_ (Hyperion.arena_ st) + Hyperion.needed key val
                            <= Arena.size_ (Hyperion.arena_ st))
            then OK else ArenaFull, st') ∧
    Arena.offset_ (Hyperion.arena_ st') =
      Arena.offset_ (Hyperion.arena_ st) + Hyperion.needed key val.
Proof.
  intros Hinv Hk Hv Hsum. pose proof Hinv as (((Hs & Hc) & _) & _).
  pose proof (needed_pos key val Hk Hv) as Hpos.
  case_bool_decide as Hfit.
  - destruct (put_succeeds key val st Hinv Hk Hv Hfit) as (st' & Hput & Hoff & _).
    by exists st'.
  - eexists. split; [apply put_ArenaFull; [done | done |] |].
    + rewrite u32_small by lia. lia.
    + simpl. apply u32_small. lia.
Qed.

Lemma put_fits_iff_witness :
  ∃ st',
    Hyperion.put user1001 balance5000 store16 =
      Some (if bool_decide (Arena.offset_ (Hyperion.arena_ store16)
                              + Hyperion.needed user1001 balance5000
                            <= Arena.size_ (Hyperion.arena_ store16))
            then OK else ArenaFull, st') ∧
    Arena.offset_ (Hyperion.arena_ st') =
      Arena.offset_ (Hyperion.arena_ store16) + Hyperion.needed user1001 balance5000.
Proof.
  apply (put_fits_iff user1001 balance5000 store16).
  - apply store16_inv.
  - vm_compute. discriminate.
  - vm_compute. discriminate.
  - vm_compute. reflexivity.
Defined.

(** ** X19 *)

(** X19 (Hyperion::put, index update): a put that returns OK replaces exactly
    one slot, by the slot [(h >> 24, klen, vlen, old cursor, 0)]; the
    capacity and the mask stay; the number of slots that are not EMPTY
    does not shrink, grows by at most one, and stays the same when the key
    was stored before the put. *)
Theorem put_writes_one_slot (key val : list byte) (st st' : Hyperion.t) :
  store_inv st → Hyperion.put key val st = Some (OK, st') →
  ∃ r, 0 <= r < Index.capacity_ (index st) ∧
    Index.slots_ (index st') =
      <[Z.to_nat r := Slot.mk (Index.hash key ≫ 24) (size key) (size val)
                        (Arena.offset_ (Hyperion.arena_ st)) 0]>
        (Index.slots_ (index st)) ∧
    Index.capacity_ (index st') = Index.capacity_ (index st) ∧
    Index.mask_ (index st') = Index.mask_ (index st) ∧
    (used (index st) <= used (index st') <= S (used (index st)))%nat ∧
    ((∃ out v0, Hyperion.get key out st = Some (OK, v0)) →
     used (index st') = used (index st)).
Proof.
  intros Hinv Hput.
  pose proof (put_OK_inv _ _ _ _ Hput) as (Hk & Hv & _).
  destruct (put_OK_steps _ _ _ _ Hinv Hput)
    as (a2 & r & b & Hmid & Hsame & Hseq & Hf & He & Hend & ->).
  pose proof Hmid as (Hwfm & _ & Hrecm & _). pose proof Hwfm as (_ & _ & Hix).
  pose proof (find_result_range _ _ _ _ _ _ Hix (proj1 (hash_range key)) Hf) as Hr.
  pose proof (size_nonneg key) as Hk0. pose proof (size_nonneg val) as Hv0.
  assert (new_slot key val (Arena.offset_ (Hyperion.arena_ st)) =
          Slot.mk (Index.hash key ≫ 24) (size key) (size val)
                  (Arena.offset_ (Hyperion.arena_ st)) 0) as Hnew.
  { unfold new_slot. rewrite hash_tag_small.
    rewrite u8_small by (unfold MAX_KEY in Hk; lia).
    rewrite u16_small by (unfold MAX_VAL in Hv; lia). done. }
  exists r. split; [done |]. split; [by rewrite <- Hnew |].
  split; [done |]. split; [done |]. split.
  - split; [| apply used_with_slot_le].
    unfold used, with_slot. simpl. apply used_insert_ge. rewrite Hnew. simpl.
    pose proof He as (Hoff0 & Hb & _). destruct Hmid as (((Hs & _) & _) & _).
    simpl in Hs, Hb. unfold Slot.is_empty, Slot.OFF_EMPTY. simpl.
    pose proof (size_nonneg key). pose proof (size_nonneg val). unfold HEADER in Hb. lia.
  - intros (out & v0 & Hg).
    pose proof Hinv as (Hwf & _ & Hrec & Hchain & Huniq).
    destruct (get_spec st Hwf Hrec key out Hchain Huniq) as [(j & v & Hh & _) | (_ & Hn)];
      [| congruence].
    apply Hsame in Hh.
    destruct (publish_old _ key r b Hmid Hf j v Hh) as (-> & ->).
    destruct Hh as (_ & s & Hs & Hvalid & _).
    apply (used_with_slot _ r _ s); [lia | done |].
    rewrite (valid_not_empty s Hvalid).
    destruct (publish_new_slot _ key val _ Hmid He) as (_ & _ & Hne). done.
Qed.

Lemma put_writes_one_slot_witness :
  ∃ r, 0 <= r < Index.capacity_ (index store16) ∧
    Index.slots_ (index store16_a) =
      <[Z.to_nat r := Slot.mk (Index.hash user1001 ≫ 24) (size user1001)
                        (size balance5000) (Arena.offset_ (Hyperion.arena_ store16)) 0]>
        (Index.slots_ (index store16)) ∧
    Index.capacity_ (index store16_a) = Index.capacity_ (index store16) ∧
    Index.mask_ (index store16_a) = Index.mask_ (index store16) ∧
    (used (index store16) <= used (index store16_a) <= S (used (index store16)))%nat ∧
    ((∃ out v0, Hyperion.get user1001 out store16 = Some (OK, v0)) →
     used (index store16_a) = used (index store16)).
Proof.
  apply (put_writes_one_slot user1001 balance5000 store16 store16_a).
  - apply store16_inv.
  - apply store16_a_put.
Defined.

(** ** X20 *)

(** X20 (get and delete agree): in a well-formed state that satisfies I1,
    [del key] and [get key] both return, with the same status, OK or
    NotFound. *)
Theorem del_status_is_get_status (key out : list byte) (st : Hyperion.t) :
  store_wf st → records_ok st →
  ∃ s st' v, Hyperion.del key st = Some (s, st') ∧
             Hyperion.get key out st = Some (s, v) ∧
             (s = OK ∨ s = NotFound).
Proof.
  intros Hwf Hrec. pose proof Hwf as (_ & Hidle & Hix).
  destruct (lock_idle_flags _ Hidle) as (Hodd & Hland).
  destruct (find_defined st Hwf Hrec key) as (r & b & Hf).
  rewrite (del_run key st r b Hland Hf). destruct b.
  - destruct (find_true_holds st Hwf Hrec key r Hf) as (v & Hv).
    rewrite (get_holds st Hwf key out r v Hf Hv).
    destruct Hv as (_ & s & Hs & _). rewrite Hs. simpl.
    eexists _, _, _. split; [done |]. split; [done |]. by left.
  - rewrite (get_run key out st r false Hodd Hf).
    eexists _, _, _. split; [done |]. split; [done |]. by right.
Qed.

Lemma del_status_is_get_status_witness :
  ∃ s st' v, Hyperion.del user1001 store16_a = Some (s, st') ∧
             Hyperion.get user1001 [] store16_a = Some (s, v) ∧
             (s = OK ∨ s = NotFound).
Proof.
  apply (del_status_is_get_status user1001 [] store16_a).
  - apply store16_a_inv.
  - apply store16_a_inv.
Defined.

(** ** X21 *)

(** X21 (delete twice): in a state that satisfies the invariants, after a
    delete of a key, whatever it returned, a second delete of the same key
    returns NotFound and changes neither a slot nor the arena. *)
Theorem del_twice (key : list byte) (st st1 : Hyperion.t) (s1 : Status) :
  store_inv st → Hyperion.del key st = Some (s1, st1) →
  ∃ st2, Hyperion.del key st1 = Some (NotFound, st2) ∧
    Index.slots_ (index st2) = Index.slots_ (index st1) ∧
    Hyperion.arena_ st2 = Hyperion.arena_ st1.
Proof.
  intros Hinv Hdel. pose proof Hinv as (Hwf & _ & Hrec & _ & Huniq).
  pose proof Hwf as (_ & Hidle & _).
  destruct (lock_idle_flags _ Hidle) as (Hodd & Hland).
  destruct (del_steps _ _ _ _ Hinv Hdel) as (Hinv1 & _).
  pose proof Hinv1 as (Hwf1 & _ & Hrec1 & _ & Huniq1).
  assert (Hyperion.get key [] st1 = Some (NotFound, [])) as Hg.
  { destruct (del_spec key st Hwf Hrec Huniq) as (r & b & st' & Hf & Hdel' & _ & Hcase).
    rewrite Hdel in Hdel'. injection Hdel' as -> <-. destruct b.
    - destruct Hcase as (s0 & _ & _ & _ & Hnf). apply Hnf.
    - apply del_inv in Hdel as (_ & r' & b' & Hf' & Hst).
      rewrite Hf in Hf'. injection Hf' as <- <-. destruct Hst as (_ & ->).
      rewrite get_bumped by done. by rewrite (get_run key [] st r false Hodd Hf). }
  destruct (del_spec key st1 Hwf1 Hrec1 Huniq1) as (r & b & st2 & Hf & Hdel2 & Harena & Hcase).
  destruct b.
  - destruct (find_true_holds st1 Hwf1 Hrec1 key r Hf) as (v & Hv).
    rewrite (get_holds st1 Hwf1 key [] r v Hf Hv) in Hg. done.
  - by exists st2.
Qed.

Lemma del_twice_witness :
  ∃ st2, Hyperion.del user1001 (after (Hyperion.del user1001 store16_a))
           = Some (NotFound, st2) ∧
    Index.slots_ (index st2)
      = Index.slots_ (index (after (Hyperion.del user1001 store16_a))) ∧
    Hyperion.arena_ st2 = Hyperion.arena_ (after (Hyperion.del user1001 store16_a)).
Proof.
  apply (del_twice user1001 store16_a (after (Hyperion.del user1001 store16_a)) OK).
  - apply store16_a_inv.
  - vm_compute. reflexivity.
Defined.

(** ** X22 *)

(** X22 (Hyperion::get, what it reads): in a state that satisfies the
    invariants, [get key] returns OK with [v] exactly when some valid slot
    points at a record of [key] with value [v], and NotFound (buffer
    untouched) exactly when no valid slot points at a record of [key]. *)
Theorem get_reads_record (key out v : list byte) (st : Hyperion.t) :
  store_inv st →
  (Hyperion.get key out st = Some (OK, v) ↔ ∃ j, holds st j key v) ∧
  (Hyperion.get key out st = Some (NotFound, out) ↔ ∀ j v', ¬ holds st j key v').
Proof.
  intros (Hwf & _ & Hrec & Hchain & Huniq).
  destruct (get_spec st Hwf Hrec key out Hchain Huniq)
    as [(r & v0 & Hh & Hg) | (Hnone & Hg)]; rewrite Hg.
  - split; split.
    + intros [= <-]. by exists r.
    + intros (j & Hj). pose proof (Huniq _ _ _ _ _ Hh Hj) as <-.
      destruct Hh as (_ & s & Hs & _ & He), Hj as (_ & s' & Hs' & _ & He').
      rewrite Hs in Hs'. injection Hs' as <-.
      by destruct (entry_at_inj _ _ _ _ _ _ He He') as (_ & ->).
    + done.
    + intros Hn. by destruct (Hn r v0).
  - split; split.
    + done.
    + intros (j & Hj). by destruct (Hnone j v).
    + done.
    + done.
Qed.

Lemma get_reads_record_witness :
  (Hyperion.get user1001 [] store16_a = Some (OK, balance5000)
   ↔ ∃ j, holds store16_a j user1001 balance5000) ∧
  (Hyperion.get user1001 [] store16_a = Some (NotFound, [])
   ↔ ∀ j v', ¬ holds store16_a j user1001 v').
Proof. apply (get_reads_record user1001 [] balance5000 store16_a), store16_a_inv. Defined.

(** ** X23 *)

(** X23 (invariants): from [create] (at most [2^32 - 8] bytes, at most
    [2^31] slots), a run of puts and deletes that asks for fewer arena
    bytes than would carry the 32-bit cursor from 8 to [2^32] runs to its
    end, whatever the statuses, and the state it reaches is well-formed
    and satisfies I1 (every valid slot points at a complete record below
    the cursor, with the tag and the lengths of the slot), has every
    stored key reachable from its home bucket over slots that are not
    EMPTY, and satisfies I3 (at most one valid slot per key). *)
Theorem invariants_hold (bytes slots : Z) (ws : list wop) :
  0 <= bytes → bytes + 8 <= 2 ^ 32 → 0 <= slots <= 2 ^ 31 →
  8 + demand ws < 2 ^ 32 →
  ∃ ss st',
    writer_log ws (fst (Hyperion.create bytes slots true)) = Some (ss, st') ∧
    store_wf st' ∧ records_ok st' ∧ chain_ok st' ∧ unique_ok st'.
Proof.
  intros Hb Hb' Hs Hdem.
  destruct (create_inv bytes slots Hb Hb' Hs) as (Hc & Hinv).
  destruct (writer_log_defined ws _ Hinv) as (ss & st' & Hlog & Hinv' & _).
  { by rewrite Hc. }
  exists ss, st'. split; [done |].
  destruct Hinv' as (? & _ & ? & ? & ?). done.
Qed.

Lemma invariants_hold_witness :
  ∃ ss st',
    writer_log five_calls (fst (Hyperion.create 65536 16 true)) = Some (ss, st') ∧
    store_wf st' ∧ records_ok st' ∧ chain_ok st' ∧ unique_ok st'.
Proof.
  apply (invariants_hold 65536 16 five_calls).
  - lia.
  - lia.
  - lia.
  - vm_compute. reflexivity.
Defined.

(** ** X24 *)

(** X24 (no slot returns to EMPTY): along a run of puts and deletes from a
    state that satisfies the invariants, the capacity stays, every slot
    that is not EMPTY stays not EMPTY (a delete leaves a tombstone), and
    the number of such slots does not shrink. *)
Theorem slots_never_emptied (ws : list wop) (st st' : Hyperion.t)
    (ss : list Status) :
  store_inv st → writer_log ws st = Some (ss, st') →
  Index.capacity_ (index st') = Index.capacity_ (index st) ∧
  (used (index st) <= used (index st'))%nat ∧
  ∀ j s0, 0 <= j → Index.at_ (index st) j = Some s0 → Slot.is_empty s0 = false →
    ∃ s1, Index.at_ (index st') j = Some s1 ∧ Slot.is_empty s1 = false.
Proof.
  revert st ss st'. induction ws as [|w ws IH]; intros st ss st' Hinv H.
  - simpl in H. injection H as <- <-.
    split; [done |]. split; [done |]. intros j s0 _ Hs0 Hne. by exists s0.
  - apply writer_log_cons in H as (s & st1 & ss' & Hc & Hl & ->).
    destruct (writer_call_slots _ _ _ _ Hinv Hc) as (Hcap1 & Hu1 & Hk1).
    destruct (IH st1 ss' st' (writer_call_inv _ _ _ _ Hinv Hc) Hl) as (Hcap & Hu & Hk).
    split; [congruence |]. split; [lia |].
    intros j s0 Hj Hs0 Hne. destruct (Hk1 j s0 Hj Hs0 Hne) as (s1 & Hs1 & Hne1).
    by apply (Hk j s1).
Qed.

Lemma slots_never_emptied_witness :
  Index.capacity_ (index store16_a_log.2) = Index.capacity_ (index store16_a) ∧
  (used (index store16_a) <= used (index store16_a_log.2))%nat ∧
  ∀ j s0, 0 <= j → Index.at_ (index store16_a) j = Some s0 →
    Slot.is_empty s0 = false →
    ∃ s1, Index.at_ (index store16_a_log.2) j = Some s1 ∧ Slot.is_empty s1 = false.
Proof.
  apply (slots_never_emptied two_calls store16_a store16_a_log.2 store16_a_log.1).
  - apply store16_a_inv.
  - apply store16_a_log_eq.
Defined.

(** ** X25 *)

(** X25 (append-only arena): from a state that satisfies the invariants, a
    run of puts and deletes that asks for fewer arena bytes than would
    carry the 32-bit cursor to [2^32] runs to its end; the size of the
    arena stays and no byte below the cursor of the first state is
    written again: a record, once written, stays as it is. *)
Theorem arena_append_only (ws : list wop) (st : Hyperion.t) :
  store_inv st →
  Arena.offset_ (Hyperion.arena_ st) + demand ws < 2 ^ 32 →
  ∃ ss st', writer_log ws st = Some (ss, st') ∧
    Arena.size_ (Hyperion.arena_ st') = Arena.size_ (Hyperion.arena_ st) ∧
    ∀ x, x < Arena.offset_ (Hyperion.arena_ st) →
         Arena.base_ (Hyperion.arena_ st') x = Arena.base_ (Hyperion.arena_ st) x.
Proof.
  intros Hinv Hdem.
  destruct (writer_log_defined ws st Hinv Hdem) as (ss & st' & Hlog & _).
  exists ss, st'. split; [done |].
  apply (writer_log_arena ws _ st ss st' Hinv Hlog). left. lia.
Qed.

Lemma arena_append_only_witness :
  ∃ ss st', writer_log two_calls store16_a = Some (ss, st') ∧
    Arena.size_ (Hyperion.arena_ st') = Arena.size_ (Hyperion.arena_ store16_a) ∧
    ∀ x, x < Arena.offset_ (Hyperion.arena_ store16_a) →
         Arena.base_ (Hyperion.arena_ st') x
         = Arena.base_ (Hyperion.arena_ store16_a) x.
Proof.
  apply (arena_append_only two_calls store16_a).
  - apply store16_a_inv.
  - vm_compute. reflexivity.
Defined.

(** ** X26 *)

(** X26 (alignment): from [create] (at most [2^32 - 8] bytes, at most
    [2^31] slots), a run of puts and deletes that asks for fewer arena
    bytes than would carry the 32-bit cursor from 8 to [2^32] runs to its
    end, and in the state it reaches the cursor is a multiple of 8 and
    every valid slot has an offset that is a multiple of 8 and at least
    8: no record starts at offset 0. *)
Theorem records_aligned (bytes slots : Z) (ws : list wop) :
  0 <= bytes → bytes + 8 <= 2 ^ 32 → 0 <= slots <= 2 ^ 31 →
  8 + demand ws < 2 ^ 32 →
  ∃ ss st',
    writer_log ws (fst (Hyperion.create bytes slots true)) = Some (ss, st') ∧
    Arena.offset_ (Hyperion.arena_ st') mod 8 = 0 ∧
    ∀ j s, Index.at_ (index st') j = Some s → Slot.is_valid s = true →
           8 <= Slot.offset s ∧ Slot.offset s mod 8 = 0.
Proof.
  intros Hb Hb' Hs Hdem.
  destruct (create_inv bytes slots Hb Hb' Hs) as (Hc & Hinv).
  assert (aligned_ok (fst (Hyperion.create bytes slots true))) as Hal.
  { rewrite Hc. unfold aligned_ok, index. simpl.
    split; [left; lia |]. split; [done |]. apply Forall_replicate. done. }
  destruct (writer_log_defined ws _ Hinv) as (ss & st' & Hlog & _).
  { by rewrite Hc. }
  exists ss, st'. split; [done |].
  destruct (writer_log_aligned ws _ ss st' Hinv Hal Hlog) as (_ & Hmod & Hall).
  split; [done |]. intros j s Hj Hvalid.
  rewrite list.Forall_forall in Hall. apply Hall; [| done].
  unfold Index.at_ in Hj. by eapply list_elem_of_lookup_2.
Qed.

Lemma records_aligned_witness :
  ∃ ss st',
    writer_log five_calls (fst (Hyperion.create 65536 16 true)) = Some (ss, st') ∧
    Arena.offset_ (Hyperion.arena_ st') mod 8 = 0 ∧
    ∀ j s, Index.at_ (index st') j = Some s → Slot.is_valid s = true →
           8 <= Slot.offset s ∧ Slot.offset s mod 8 = 0.
Proof.
  apply (records_aligned 65536 16 five_calls).
  - lia.
  - lia.
  - lia.
  - vm_compute. reflexivity.
Defined.

(** ** X27 *)

(** X27 (ArenaFull while the cursor does not wrap): in a state that satisfies
    the invariants and whose cursor is past the end of the arena (as after
    any put answered ArenaFull), a run of puts and deletes that asks for
    fewer bytes than would carry the cursor to [2^32] returns, leaves the
    cursor past the end, and answers each of its puts KeyTooLong,
    ValTooLong or ArenaFull, never OK. *)
Theorem arena_full_persists (ws : list wop) (st : Hyperion.t) :
  store_inv st →
  Arena.size_ (Hyperion.arena_ st) < Arena.offset_ (Hyperion.arena_ st) →
  Arena.offset_ (Hyperion.arena_ st) + demand ws < 2 ^ 32 →
  ∃ ss st', writer_log ws st = Some (ss, st') ∧
    Arena.size_ (Hyperion.arena_ st') < Arena.offset_ (Hyperion.arena_ st') ∧
    ∀ (i : nat) key val, ws !! i = Some (W_put key val) →
      ss !! i = Some (put_refused key val).
Proof.
  revert st. induction ws as [|w ws IH]; intros st Hinv Hfull Hdem.
  - exists [], st. split; [done |]. split; [done |]. intros i key val H. done.
  - pose proof (demand_nonneg ws) as Hd0.
    pose proof Hinv as (((Hs & Hc) & _) & _).
    destruct w as [key val | key].
    + assert (∃ st1, Hyperion.put key val st = Some (put_refused key val, st1) ∧
                Arena.size_ (Hyperion.arena_ st1) = Arena.size_ (Hyperion.arena_ st) ∧
                Arena.offset_ (Hyperion.arena_ st1) + demand ws
                  <= Arena.offset_ (Hyperion.arena_ st) + demand (W_put key val :: ws) ∧
                Arena.offset_ (Hyperion.arena_ st) <= Arena.offset_ (Hyperion.arena_ st1))
        as (st1 & Hput & Hsz & Hoff & Hmono).
      { unfold put_refused. cbn [demand] in Hdem |- *.
        destruct (decide (MAX_KEY < size key)) as [Hk | Hk].
        { exists st. rewrite (bool_decide_eq_true_2 (MAX_KEY < size key)) by done.
          rewrite (bool_decide_eq_false_2 (size key <= MAX_KEY ∧ size val <= MAX_VAL)) by lia.
          unfold Hyperion.put.
          replace (size key >? MAX_KEY) with true by (symmetry; lia).
          split; [done |]. split; [done | lia]. }
        rewrite (bool_decide_eq_false_2 (MAX_KEY < size key)) by done.
        destruct (decide (MAX_VAL < size val)) as [Hv | Hv].
        { exists st. rewrite (bool_decide_eq_true_2 (MAX_VAL < size val)) by done.
          rewrite (bool_decide_eq_false_2 (size key <= MAX_KEY ∧ size val <= MAX_VAL)) by lia.
          unfold Hyperion.put.
          replace (size key >? MAX_KEY) with false by (symmetry; lia).
          replace (size val >? MAX_VAL) with true by (symmetry; lia).
          split; [done |]. split; [done | lia]. }
        rewrite (bool_decide_eq_false_2 (MAX_VAL < size val)) by done.
        rewrite (bool_decide_eq_true_2 (size key <= MAX_KEY ∧ size val <= MAX_VAL))
          in Hdem |- * by lia.
        assert (size key <= MAX_KEY) as Hk' by lia.
        assert (size val <= MAX_VAL) as Hv' by lia.
        pose proof (needed_record_size key val Hk' Hv') as Hn.
        pose proof (needed_pos key val Hk' Hv') as Hpos.
        assert (u32 (Arena.offset_ (Hyperion.arena_ st) + Hyperion.needed key val)
                = Arena.offset_ (Hyperion.arena_ st) + record_size key val) as Hu.
        { rewrite Hn. apply u32_small. lia. }
        eexists. split; [apply put_ArenaFull; [done | done | lia] |].
        simpl. rewrite Hu. split; [done | lia]. }
      pose proof (put_inv _ _ _ _ _ Hinv Hput) as Hinv1.
      destruct (IH st1 Hinv1 ltac:(lia) ltac:(lia)) as (ss & st' & Hlog & Hfull' & Hall).
      exists (put_refused key val :: ss), st'.
      split; [simpl; rewrite Hput; simpl; rewrite Hlog; done |].
      split; [done |].
      intros [|i] k v Hi; simpl in Hi |- *.
      * by injection Hi as <- <-.
      * by apply Hall.
    + pose proof Hinv as (Hwf & _ & Hrec & _ & Huniq).
      destruct (del_spec key st Hwf Hrec Huniq) as (r & b & st1 & _ & Hdel & Harena & _).
      destruct (del_steps _ _ _ _ Hinv Hdel) as (Hinv1 & _).
      destruct (IH st1 Hinv1) as (ss & st' & Hlog & Hfull' & Hall).
      { by rewrite Harena. }
      { rewrite Harena. by simpl in Hdem. }
      exists ((if b then OK else NotFound) :: ss), st'.
      split; [simpl; rewrite Hdel; simpl; rewrite Hlog; done |].
      split; [done |].
      intros [|i] k v Hi; simpl in Hi |- *; [done |]. by apply Hall.
Qed.

Lemma arena_full_persists_witness :
  ∃ ss st', writer_log calls_when_full store64_full = Some (ss, st') ∧
    Arena.size_ (Hyperion.arena_ st') < Arena.offset_ (Hyperion.arena_ st') ∧
    ∀ (i : nat) key val, calls_when_full !! i = Some (W_put key val) →
      ss !! i = Some (put_refused key val).
Proof.
  apply (arena_full_persists calls_when_full store64_full).
  - apply store64_full_inv.
  - vm_compute. reflexivity.
  - vm_compute. reflexivity.
Defined.

(** ** X28 *)

(** X28 (the store is a dictionary): from [create] (at most [2^32 - 8] bytes,
    at most [2^31] slots), a run of puts and deletes with at most
    [max(slots, 8)] puts that asks for fewer than [2^32 - 8] arena bytes
    returns, call by call, the statuses of the dictionary with a byte
    budget [Dict] (OK, or KeyTooLong, ValTooLong, ArenaFull for a put;
    OK or NotFound for a delete), and afterwards [get] of every key
    returns what the dictionary holds for it: the value of the last put
    of the key that returned OK, unless a delete followed it. *)
Theorem store_refines_dict (bytes slots : Z) (ws : list wop) :
  0 <= bytes → bytes + 8 <= 2 ^ 32 → 0 <= slots <= 2 ^ 31 →
  Z.of_nat (puts ws) <= Z.max slots 8 →
  8 + demand ws < 2 ^ 32 →
  ∃ st',
    writer_log ws (fst (Hyperion.create bytes slots true))
      = Some (fst (Dict.log ws (Dict.create bytes)), st') ∧
    ∀ key out,
      Hyperion.get key out st'
      = Some (Dict.get key out (snd (Dict.log ws (Dict.create bytes)))).
Proof.
  intros Hb Hb' Hs Hp Hd.
  destruct (create_inv bytes slots Hb Hb' Hs) as (Hc & Hinv).
  destruct (refine_run ws _ (Dict.create bytes) Hinv (fresh_refines bytes slots Hb Hb' Hs))
    as (st' & Hlog & _ & _ & _ & Hget).
  - destruct (init_capacity slots Hs) as ((_ & Hge & _) & _).
    rewrite Hc. unfold index. cbn [fst Hyperion.index_ SeqLock.data_ SeqLock.make].
    rewrite init_used. lia.
  - done.
  - by exists st'.
Qed.

Lemma store_refines_dict_witness :
  ∃ st',
    writer_log five_calls (fst (Hyperion.create 65536 16 true))
      = Some (fst (Dict.log five_calls (Dict.create 65536)), st') ∧
    ∀ key out,
      Hyperion.get key out st'
      = Some (Dict.get key out (snd (Dict.log five_calls (Dict.create 65536)))).
Proof.
  apply (store_refines_dict 65536 16 five_calls).
  - lia.
  - lia.
  - lia.
  - vm_compute. discriminate.
  - vm_compute. reflexivity.
Defined.

(** ** X29 *)

(** X29 (main.cpp, bench_hyperion): for [0 <= count <= 1000000] (main runs it
    with 1000000) and the mapping granted, each put of the insert loop
    returns OK and each [get] of the read loop returns OK; when there was
    a key at all, [out] ends up holding the 60-byte payload. *)
Theorem bench_all_hits (count : Z) :
  0 <= count <= 1000000 →
  bench_hyperion count true =
    Some (replicate (Z.to_nat count) OK, replicate (Z.to_nat count) OK,
          if count =? 0 then [] else bench_val).
Proof.
  intros Hcount. unfold bench_hyperion.
  assert (u32 (count * 2) = count * 2) as -> by (apply u32_small; lia).
  set (size_bytes := 256 * 1024 * 1024).
  assert (0 <= size_bytes) as Hb by (unfold size_bytes; lia).
  assert (size_bytes + 8 <= 2 ^ 32) as Hb' by (unfold size_bytes; lia).
  assert (0 <= count * 2 <= 2 ^ 31) as Hs by lia.
  destruct (create_inv size_bytes (count * 2) Hb Hb' Hs) as (Hc & Hinv).
  set (keys := bench_keys count).
  assert (length keys = Z.to_nat count) as Hlen.
  { unfold keys, bench_keys. by rewrite length_map, length_seq. }
  assert (Forall (λ k, size k <= 14) keys) as Hsizes.
  { rewrite list.Forall_forall. intros k Hk. by eapply bench_keys_size. }
  assert (size bench_val = 60) as Hv by done.
  pose proof (demand_bench keys bench_val Hsizes Hv) as Hdem.
  destruct (refine_run (map (λ k, W_put k bench_val) keys) _ (Dict.create size_bytes) Hinv
              (fresh_refines size_bytes (count * 2) Hb Hb' Hs))
    as (st' & Hlog & _ & _ & _ & Hget).
  { destruct (init_capacity (count * 2) Hs) as ((_ & Hge & _) & _).
    rewrite Hc. unfold index. cbn [fst Hyperion.index_ SeqLock.data_ SeqLock.make].
    rewrite init_used, puts_map, Hlen. lia. }
  { simpl. rewrite Hlen in Hdem. lia. }
  destruct (dict_puts keys bench_val (Dict.create size_bytes) Hsizes Hv) as (Hss & Hin & _).
  { simpl. rewrite Hlen. unfold size_bytes. lia. }
  rewrite Hc in Hlog |- *. cbn [fst] in Hlog.
  rewrite bench_insert_log, Hlog. cbn [mbind option_bind].
  rewrite (bench_read_hits keys bench_val st' []).
  - rewrite Hss, Hlen. cbn [mbind option_bind]. do 2 f_equal.
    destruct (count =? 0) eqn:E.
    + apply Z.eqb_eq in E. subst count. done.
    + apply Z.eqb_neq in E. destruct keys; [| done]. simpl in Hlen. lia.
  - intros k out Hk. rewrite Hget. unfold Dict.get. by rewrite (Hin k Hk).
Qed.

Lemma bench_all_hits_witness :
  bench_hyperion 3 true =
    Some (replicate (Z.to_nat 3) OK, replicate (Z.to_nat 3) OK,
          if 3 =? 0 then [] else bench_val).
Proof. apply (bench_all_hits 3). lia. Defined.
